(** * devils: the browser state facade

    A shallow embedding of [src/index.ts]: the key/value store facade
    ([storageManager]), the theme controller ([themeManager]), the
    query-string codec ([qsm]), the scroll-position cache ([scrollBack])
    and the audio resource cache ([audioPlayer]), together with the part of
    the host (strings, values, [JSON], [btoa]/[atob], property lookup,
    [localStorage]) those functions call.

    Conventions.
    - A JS string is the list of its UTF-16 code units, each a [Z].
    - A JS number is a binary64 value, held exactly: an integer [JNum n],
      or [JReal x] for a dyadic fraction in lowest terms or an
      infinity.  [binary64] rounds a rational to the nearest such value,
      ties to even; the Numbers are the [n] and [x] that rounding leaves
      as they are ([is_Number]), and the conversions to text round the
      others first.  [-0] is not told from [0], which [===] and every
      operation of the module treat alike, and there is no [NaN], which
      no JSON text denotes.
    - A thrown exception is the [Throw] result of the [completion] monad.
    - [localStorage] is a finite map without quota. *)

From Stdlib Require Import ZArith QArith Qpower String Ascii List Lia DecimalFacts DecimalPos DecimalN Sorted.
From stdpp Require Import gmap list.

Local Open Scope Z_scope.

(** ** Strings *)

Definition jsstring := list Z.

(** The code units of an ASCII literal. *)
Definition js (s : string) : jsstring :=
  map (fun a => Z.of_N (N_of_ascii a)) (list_ascii_of_string s).

Definition code_unit (c : Z) : Prop := 0 <= c < 65536.

Definition wf_string (s : jsstring) : Prop := Forall code_unit s.

Definition str_eqb (a b : jsstring) : bool := bool_decide (a = b).

(** A string is truthy when it is not empty. *)
Definition nonempty (s : jsstring) : bool :=
  match s with
  | [] => false
  | _ :: _ => true
  end.

(** [s.slice(n)] for [0 <= n]. *)
Definition slice_from (n : nat) (s : jsstring) : jsstring := drop n s.

(** ** Completions *)

Inductive error : Type :=
| SyntaxError
| TypeError
| InvalidCharacterError.

Inductive completion (A : Type) : Type :=
| Normal (a : A)
| Throw (e : error).

Arguments Normal {A} a.
Arguments Throw {A} e.

Definition bind {A B : Type} (c : completion A) (k : A -> completion B) : completion B :=
  match c with
  | Normal a => k a
  | Throw e => Throw e
  end.

(** [try { body } catch (error) { handler }] *)
Definition try_catch {A : Type} (body : completion A) (handler : error -> completion A)
  : completion A :=
  match body with
  | Normal a => Normal a
  | Throw e => handler e
  end.

Declare Scope js_scope.
Delimit Scope js_scope with js.
Notation "x <- c ;; k" := (bind c (fun x => k))
  (at level 100, c at next level, right associativity) : js_scope.
Local Open Scope js_scope.

(** ** Values *)

(** A Number that is no integer: the fraction [m / 2^e] in lowest
    terms, that is with an odd [m], or an infinity. *)
Inductive nonintegral : Type :=
| Dyadic (m : Z) (e : positive)
| Infinity (negative : bool).

(** The data [JSON.parse] builds.  A number is [JNum] when it is an
    integer and [JReal] when it is not.  [JArr] holds the elements of a
    dense array; [JObj] holds the own properties of a plain object in
    the order the engine enumerates them. *)
#[local] Unset Elimination Schemes.
Inductive json : Type :=
| JNull
| JBool (b : bool)
| JNum (n : Z)
| JReal (x : nonintegral)
| JStr (s : jsstring)
| JArr (elems : list json)
| JObj (props : list (jsstring * json)).
#[local] Set Elimination Schemes.

(** The values the facade receives and returns: [undefined], data, or
    [Builtin name], the built-in function a prototype holds under
    [name].  Objects that hold [undefined] or functions are outside the
    model. *)
Inductive any : Type :=
| Undefined
| Data (j : json)
| Builtin (name : jsstring).

Definition ToBoolean (v : any) : bool :=
  match v with
  | Undefined | Data JNull => false
  | Data (JBool b) => b
  | Data (JNum n) => negb (n =? 0)
  | Data (JStr s) => nonempty s
  | Data (JReal _) | Data (JArr _) | Data (JObj _) | Builtin _ => true
  end.

(** [[null, undefined].includes(value)] *)
Definition is_nullish (v : any) : bool :=
  match v with
  | Undefined | Data JNull => true
  | _ => false
  end.

(** [ToString] of [null], [undefined] or a string, as the host applies
    it to the argument of [JSON.parse], [btoa] and [setItem]. *)
Definition ToString_null (o : option jsstring) : jsstring :=
  match o with
  | Some s => s
  | None => js "null"
  end.

Definition ToString_undefined (o : option jsstring) : jsstring :=
  match o with
  | Some s => s
  | None => js "undefined"
  end.

(** ** Decimal digits *)

Fixpoint digits_of_uint (d : Decimal.uint) : jsstring :=
  match d with
  | Decimal.Nil => []
  | Decimal.D0 r => 48 :: digits_of_uint r
  | Decimal.D1 r => 49 :: digits_of_uint r
  | Decimal.D2 r => 50 :: digits_of_uint r
  | Decimal.D3 r => 51 :: digits_of_uint r
  | Decimal.D4 r => 52 :: digits_of_uint r
  | Decimal.D5 r => 53 :: digits_of_uint r
  | Decimal.D6 r => 54 :: digits_of_uint r
  | Decimal.D7 r => 55 :: digits_of_uint r
  | Decimal.D8 r => 56 :: digits_of_uint r
  | Decimal.D9 r => 57 :: digits_of_uint r
  end.

Definition is_digit (c : Z) : bool := (48 <=? c) && (c <=? 57).

Definition digit_cons (c : Z) (d : Decimal.uint) : Decimal.uint :=
  if c =? 48 then Decimal.D0 d
  else if c =? 49 then Decimal.D1 d
  else if c =? 50 then Decimal.D2 d
  else if c =? 51 then Decimal.D3 d
  else if c =? 52 then Decimal.D4 d
  else if c =? 53 then Decimal.D5 d
  else if c =? 54 then Decimal.D6 d
  else if c =? 55 then Decimal.D7 d
  else if c =? 56 then Decimal.D8 d
  else Decimal.D9 d.

(** The longest run of digits at the head of [s], and what follows it. *)
Fixpoint read_digits (s : jsstring) : Decimal.uint * jsstring :=
  match s with
  | [] => (Decimal.Nil, [])
  | c :: r =>
      if is_digit c
      then let '(d, rest) := read_digits r in (digit_cons c d, rest)
      else (Decimal.Nil, s)
  end.

(** The decimal digits of a natural number. *)
Definition decimal_digits (n : Z) : jsstring := digits_of_uint (N.to_uint (Z.to_N n)).

(** The number a run of digits denotes. *)
Definition digits_value (ds : jsstring) : Z :=
  fold_left (fun acc c => 10 * acc + (c - 48)) ds 0.

(** ** Numbers *)

Inductive number : Type :=
| Integer (n : Z)
| NonIntegral (x : nonintegral).

Definition nonintegral_eqb (a b : nonintegral) : bool :=
  match a, b with
  | Dyadic m e, Dyadic m' e' => (m =? m') && (e =? e')%positive
  | Infinity s, Infinity s' => Bool.eqb s s'
  | _, _ => false
  end.

(** [x === y] on numbers *)
Definition number_eqb (a b : number) : bool :=
  match a, b with
  | Integer n, Integer n' => n =? n'
  | NonIntegral x, NonIntegral x' => nonintegral_eqb x x'
  | _, _ => false
  end.

Definition signed (negative : bool) (v : Z) : Z := if negative then - v else v.

(** [m / 2^e] in lowest terms: the mantissa, and what is left of the
    exponent. *)
Fixpoint lowest_terms (m e : positive) : positive * Z :=
  match m with
  | xO m' =>
      match e with
      | xH => (m', 0)
      | _ => lowest_terms m' (Pos.pred e)
      end
  | _ => (m, Zpos e)
  end.

(** The number [m * 2^u], negated when [negative], for [0 <= m]. *)
Definition dyadic (negative : bool) (m u : Z) : number :=
  if 0 <=? u then Integer (signed negative (m * 2 ^ u))
  else match m with
       | Zpos p =>
           match lowest_terms p (Z.to_pos (- u)) with
           | (p', Zpos e) => NonIntegral (Dyadic (signed negative (Zpos p')) e)
           | (p', _) => Integer (signed negative (Zpos p'))
           end
       | _ => Integer 0
       end.

(** [num / den] rounded to the nearest integer, a tie to the even
    one. *)
Definition round_half_even (num den : Z) : Z :=
  let q := num / den in
  let r := num mod den in
  if 2 * r <? den then q
  else if den <? 2 * r then q + 1
  else if Z.even q then q else q + 1.

(** The Number value for the rational [q]: binary64, rounded to
    nearest, ties to even.  [E] is the binary exponent of [|q|] and
    [u] that of the unit in the last place: 53 bits of mantissa, and
    no unit below [2^-1074].  A mantissa that reaches [2^1024] is an
    infinity; a zero has no sign. *)
Definition binary64 (q : Q) : number :=
  let q := Qred q in
  let negative := Qnum q <? 0 in
  let p := Z.abs (Qnum q) in
  let d := Zpos (Qden q) in
  if p =? 0 then Integer 0
  else
    let e0 := Z.log2 p - Z.log2 d in
    let below := if 0 <=? e0 then p <? d * 2 ^ e0 else p * 2 ^ (- e0) <? d in
    let E := if below then e0 - 1 else e0 in
    let u := Z.max (E - 52) (-1074) in
    let M := if 0 <=? u then round_half_even p (d * 2 ^ u)
             else round_half_even (p * 2 ^ (- u)) d in
    if 2 ^ (1024 - u) <=? M then NonIntegral (Infinity negative)
    else dyadic negative M u.

(** The rational a finite number is. *)
Definition number_value (x : number) : Q :=
  match x with
  | Integer n => inject_Z n
  | NonIntegral (Dyadic m e) => Qmake m (2 ^ e)
  | NonIntegral (Infinity _) => 0%Q
  end.

(** [x] is a Number: an infinity, or a rational that [binary64] leaves
    as it is. *)
Definition is_Number (x : number) : bool :=
  match x with
  | NonIntegral (Infinity _) => true
  | _ => number_eqb (binary64 (number_value x)) x
  end.

(** The Number an integer, or a fraction, stands for. *)
Definition Number_of_integer (n : Z) : number := binary64 (inject_Z n).

Definition Number_of_nonintegral (x : nonintegral) : number :=
  match x with
  | Dyadic m e => binary64 (Qmake m (2 ^ e))
  | Infinity _ => NonIntegral x
  end.

(** [s * 10^x] *)
Definition decimal (s x : Z) : Q := (inject_Z s * 10 ^ x)%Q.

(** *** Number::toString *)

(** The least [t], from [t] on and looked for [fuel] times, with
    [d <= p * 10^t]. *)
Fixpoint least_scale (fuel : nat) (p d t : Z) : Z :=
  match fuel with
  | O => t
  | S f => if d <=? p * 10 ^ t then t else least_scale f p d (t + 1)
  end.

(** The [n] with [10^(n-1) <= p / d < 10^n], for positive [p] and
    [d]. *)
Definition decimal_exponent (p d : Z) : Z :=
  if d <=? p then Z.of_nat (length (decimal_digits (p / d)))
  else 1 - least_scale (length (decimal_digits d)) p d 1.

(** Of the two integers [s] next to [p / d / 10^x], the closer one
    among those for which [s * 10^x], negated when [negative], is read
    as [target]; a tie goes to the even one. *)
Definition digits_at (negative : bool) (target : number) (p d x : Z) : option (Z * Z) :=
  let '(num, den) := if 0 <=? x then (p, d * 10 ^ x) else (p * 10 ^ (- x), d) in
  let lo := num / den in
  let r := num mod den in
  let reads s := (0 <? s) && number_eqb (binary64 (decimal (signed negative s) x)) target in
  let lo_nearer := (2 * r <? den) || ((2 * r =? den) && Z.even lo) in
  if reads lo && (lo_nearer || negb (reads (lo + 1))) then Some (lo, x)
  else if reads (lo + 1) then Some (lo + 1, x)
  else None.

(** The first number of digits, from [k] on and tried [fuel] times,
    with which the number [p / d], whose decimal exponent is [n], can
    be written. *)
Fixpoint shortest (fuel : nat) (negative : bool) (target : number) (p d n k : Z)
  : option (Z * Z) :=
  match fuel with
  | O => None
  | S f =>
      match digits_at negative target p d (n - k) with
      | Some r => Some r
      | None => shortest f negative target p d n (k + 1)
      end
  end.

(** [s * 10^x] without the final zeros of [s]. *)
Fixpoint strip_zeros (fuel : nat) (s x : Z) : Z * Z :=
  match fuel with
  | O => (s, x)
  | S f =>
      if (s mod 10 =? 0) && (0 <? s) then strip_zeros f (s / 10) (x + 1) else (s, x)
  end.

(** The digits [Number::toString] writes for the number [target], of
    magnitude [p / 2^a], as the integer [s] they form and the exponent
    [x] of the last one: as few digits as are read back as [target],
    and of those the closest to it.  Seventeen digits are enough for
    every Number; the exact expansion [p * 5^a / 10^a] closes the
    definition. *)
Definition shortest_decimal (negative : bool) (target : number) (p a : Z) : Z * Z :=
  let '(s, x) :=
    match shortest 17 negative target p (2 ^ a) (decimal_exponent p (2 ^ a)) 1 with
    | Some r => r
    | None => (p * 5 ^ a, - a)
    end in
  strip_zeros (length (decimal_digits s)) s x.

(** [e+21], [e-7] *)
Definition exponent_text (e : Z) : jsstring :=
  101 :: (if e <? 0 then 45 else 43) :: decimal_digits (Z.abs e).

(** How [Number::toString] lays out the digits [ds] of a number whose
    decimal point comes after the first [n] of them: the digits and
    zeros, the point among the digits, zeros between the point and the
    digits, or the exponent form. *)
Definition format_number (ds : jsstring) (n : Z) : jsstring :=
  let k := Z.of_nat (length ds) in
  if (k <=? n) && (n <=? 21) then ds ++ repeat 48 (Z.to_nat (n - k))
  else if (0 <? n) && (n <=? 21) then take (Z.to_nat n) ds ++ 46 :: drop (Z.to_nat n) ds
  else if (-6 <? n) && (n <=? 0) then 48 :: 46 :: repeat 48 (Z.to_nat (- n)) ++ ds
  else
    match ds with
    | [] => []
    | [c] => c :: exponent_text (n - 1)
    | c :: r => c :: 46 :: r ++ exponent_text (n - 1)
    end.

(** The text of a number other than zero, after its sign. *)
Definition magnitude_text (negative : bool) (target : number) (p a : Z) : jsstring :=
  let '(s, x) := shortest_decimal negative target p a in
  let ds := decimal_digits s in
  format_number ds (Z.of_nat (length ds) + x).

Definition signed_text (target : number) (m a : Z) : jsstring :=
  if m <? 0 then 45 :: magnitude_text true target (- m) a
  else magnitude_text false target m a.

(** [Number::toString(x)] in radix 10. *)
Definition number_text (x : number) : jsstring :=
  match x with
  | Integer n => if n =? 0 then [48] else signed_text x n 0
  | NonIntegral (Dyadic m e) => signed_text x m (Zpos e)
  | NonIntegral (Infinity negative) => if negative then js "-Infinity" else js "Infinity"
  end.

(** [Number::toString] of the Number an integer stands for. *)
Definition Number_toString (n : Z) : jsstring := number_text (Number_of_integer n).

(** ** Property keys *)

(** An array index is the canonical decimal text of an integer below
    [2^32 - 1]. *)
Definition array_index (k : jsstring) : option N :=
  let n := N.of_uint (fst (read_digits k)) in
  if str_eqb (digits_of_uint (N.to_uint n)) k && (n <? 4294967295)%N
  then Some n
  else None.

Section OwnProperties.
Context {A : Type}.

Fixpoint own_get (k : jsstring) (l : list (jsstring * A)) : option A :=
  match l with
  | [] => None
  | (k', v) :: r => if str_eqb k k' then Some v else own_get k r
  end.

Definition has_own (k : jsstring) (l : list (jsstring * A)) : bool :=
  match own_get k l with
  | Some _ => true
  | None => false
  end.

Fixpoint own_replace (k : jsstring) (v : A) (l : list (jsstring * A))
  : list (jsstring * A) :=
  match l with
  | [] => []
  | (k', v') :: r =>
      if str_eqb k k' then (k', v) :: r else (k', v') :: own_replace k v r
  end.

(** A new integer-indexed property goes before the first property
    with a larger index or a name that is no index. *)
Fixpoint own_insert_index (i : N) (k : jsstring) (v : A)
  (l : list (jsstring * A)) : list (jsstring * A) :=
  match l with
  | [] => [(k, v)]
  | (k', v') :: r =>
      match array_index k' with
      | Some j =>
          if (i <? j)%N then (k, v) :: l
          else (k', v') :: own_insert_index i k v r
      | None => (k, v) :: l
      end
  end.

(** [CreateDataProperty]: an existing property keeps its place, a new
    one is enumerated after the older ones, integer indices first. *)
Definition CreateDataProperty (k : jsstring) (v : A)
  (l : list (jsstring * A)) : list (jsstring * A) :=
  if has_own k l then own_replace k v l
  else match array_index k with
       | Some i => own_insert_index i k v l
       | None => l ++ [(k, v)]
       end.

(** [delete obj[k]] *)
Fixpoint own_delete (k : jsstring) (l : list (jsstring * A))
  : list (jsstring * A) :=
  match l with
  | [] => []
  | (k', v) :: r =>
      if str_eqb k k' then r else (k', v) :: own_delete k r
  end.
End OwnProperties.

(** ** Property lookup on parsed data *)

Definition Object_prototype : list jsstring :=
  map js
    ["constructor"; "__defineGetter__"; "__defineSetter__"; "hasOwnProperty";
     "__lookupGetter__"; "__lookupSetter__"; "isPrototypeOf";
     "propertyIsEnumerable"; "toString"; "valueOf"; "__proto__";
     "toLocaleString"]%string.

Definition Array_prototype : list jsstring :=
  map js
    ["at"; "concat"; "constructor"; "copyWithin"; "entries"; "every"; "fill";
     "filter"; "find"; "findIndex"; "findLast"; "findLastIndex"; "flat";
     "flatMap"; "forEach"; "includes"; "indexOf"; "join"; "keys";
     "lastIndexOf"; "map"; "pop"; "push"; "reduce"; "reduceRight"; "reverse";
     "shift"; "slice"; "some"; "sort"; "splice"; "toLocaleString";
     "toReversed"; "toSorted"; "toSpliced"; "toString"; "unshift"; "values";
     "with"]%string.

Definition named_in (names : list jsstring) (k : jsstring) : bool :=
  existsb (str_eqb k) names.

(** What a plain object finds on [Object.prototype] under [k]: the
    [__proto__] accessor yields the prototype itself, which holds no
    enumerable data; the other names are methods. *)
Definition Object_prototype_get (k : jsstring) : option any :=
  if str_eqb k (js "__proto__") then Some (Data (JObj []))
  else if named_in Object_prototype k then Some (Builtin k)
  else None.

Definition Array_prototype_get (k : jsstring) : option any :=
  if str_eqb k (js "__proto__") then Some (Data (JArr []))
  else if named_in Array_prototype k || named_in Object_prototype k
       then Some (Builtin k)
       else None.

(** The own properties of an array: its elements under their indices,
    and [length]. *)
Definition array_own_get (k : jsstring) (elems : list json) : option json :=
  match array_index k with
  | Some i => nth_error elems (N.to_nat i)
  | None =>
      if str_eqb k (js "length") then Some (JNum (Z.of_nat (length elems)))
      else None
  end.

(** [key in obj] and, when it holds, [obj[key]], for a plain object
    with own properties [props]: the own property or else the
    inherited one. *)
Definition object_property (key : jsstring) (props : list (jsstring * json)) : option any :=
  match own_get key props with
  | Some v => Some (Data v)
  | None => Object_prototype_get key
  end.

Definition array_property (key : jsstring) (elems : list json) : option any :=
  match array_own_get key elems with
  | Some v => Some (Data v)
  | None => Array_prototype_get key
  end.

(** The same for any parsed value; [in] throws a [TypeError] when its
    right operand is not an object. *)
Definition property (key : jsstring) (obj : json) : completion (option any) :=
  match obj with
  | JObj props => Normal (object_property key props)
  | JArr elems => Normal (array_property key elems)
  | JNull | JBool _ | JNum _ | JReal _ | JStr _ => Throw TypeError
  end.

(** [obj[key] = v] on a plain object, [v] a number: an own property is
    overwritten, the inherited [__proto__] setter ignores a number, and
    any other key becomes a new own property. *)
Definition object_set (key : jsstring) (v : json) (props : list (jsstring * json))
  : list (jsstring * json) :=
  if has_own key props then own_replace key v props
  else if str_eqb key (js "__proto__") then props
  else CreateDataProperty key v props.

(** ** JSON.stringify *)

Definition hex_digit (n : Z) : Z := if n <? 10 then 48 + n else 87 + n.

(** [\uXXXX] with lower-case digits. *)
Definition UnicodeEscape (c : Z) : jsstring :=
  [92; 117; hex_digit (c / 4096); hex_digit (c / 256 mod 16);
   hex_digit (c / 16 mod 16); hex_digit (c mod 16)].

Definition is_high_surrogate (c : Z) : bool := (55296 <=? c) && (c <=? 56319).
Definition is_low_surrogate (c : Z) : bool := (56320 <=? c) && (c <=? 57343).

(** One code unit that is not the first half of a surrogate pair. *)
Definition quote_unit (c : Z) : jsstring :=
  if c =? 8 then [92; 98]
  else if c =? 9 then [92; 116]
  else if c =? 10 then [92; 110]
  else if c =? 12 then [92; 102]
  else if c =? 13 then [92; 114]
  else if c =? 34 then [92; 34]
  else if c =? 92 then [92; 92]
  else if (c <? 32) || is_high_surrogate c || is_low_surrogate c
       then UnicodeEscape c
       else [c].

Fixpoint quote_units (s : jsstring) : jsstring :=
  match s with
  | [] => []
  | c :: r =>
      if is_high_surrogate c then
        match r with
        | c' :: r' =>
            if is_low_surrogate c' then c :: c' :: quote_units r'
            else quote_unit c ++ quote_units r
        | [] => quote_unit c
        end
      else quote_unit c ++ quote_units r
  end.

Definition QuoteJSONString (s : jsstring) : jsstring :=
  34 :: quote_units s ++ [34].

Fixpoint join_comma (l : list jsstring) : jsstring :=
  match l with
  | [] => []
  | [x] => x
  | x :: r => x ++ 44 :: join_comma r
  end.

(** A finite number is written by [Number::toString], an infinity as
    [null]. *)
Definition SerializeNumber (x : number) : jsstring :=
  match x with
  | NonIntegral (Infinity _) => js "null"
  | _ => number_text x
  end.

Fixpoint SerializeJSONProperty (v : json) : jsstring :=
  match v with
  | JNull => js "null"
  | JBool true => js "true"
  | JBool false => js "false"
  | JNum n => SerializeNumber (Number_of_integer n)
  | JReal x => SerializeNumber (Number_of_nonintegral x)
  | JStr s => QuoteJSONString s
  | JArr elems => 91 :: join_comma (map SerializeJSONProperty elems) ++ [93]
  | JObj props =>
      123 :: join_comma
               (map (fun p => QuoteJSONString (fst p) ++ 58 :: SerializeJSONProperty (snd p))
                  props) ++ [125]
  end.

(** [JSON.stringify(value)]: [undefined] for [undefined] and for a
    function. *)
Definition JSON_stringify (value : any) : option jsstring :=
  match value with
  | Undefined | Builtin _ => None
  | Data j => Some (SerializeJSONProperty j)
  end.

(** ** JSON.parse *)

Definition is_ws (c : Z) : bool :=
  (c =? 9) || (c =? 10) || (c =? 13) || (c =? 32).

Fixpoint skip_ws (s : jsstring) : jsstring :=
  match s with
  | [] => []
  | c :: r => if is_ws c then skip_ws r else s
  end.

Definition hex_value (c : Z) : option Z :=
  if (48 <=? c) && (c <=? 57) then Some (c - 48)
  else if (97 <=? c) && (c <=? 102) then Some (c - 87)
  else if (65 <=? c) && (c <=? 70) then Some (c - 55)
  else None.

Definition hex4 (h1 h2 h3 h4 : Z) : option Z :=
  match hex_value h1, hex_value h2, hex_value h3, hex_value h4 with
  | Some a, Some b, Some c, Some d => Some (a * 4096 + b * 256 + c * 16 + d)
  | _, _, _, _ => None
  end.

(** The character a single-letter escape stands for. *)
Definition simple_escape (e : Z) : option Z :=
  if e =? 34 then Some 34
  else if e =? 92 then Some 92
  else if e =? 47 then Some 47
  else if e =? 98 then Some 8
  else if e =? 102 then Some 12
  else if e =? 110 then Some 10
  else if e =? 114 then Some 13
  else if e =? 116 then Some 9
  else None.

(** The characters of a string literal after its opening quote, up to
    and including the closing quote. *)
Fixpoint parse_string_chars (s : jsstring) : option (jsstring * jsstring) :=
  match s with
  | [] => None
  | c :: r =>
      if c =? 34 then Some ([], r)
      else if c =? 92 then
        match r with
        | [] => None
        | e :: r1 =>
            if e =? 117 then
              match r1 with
              | h1 :: h2 :: h3 :: h4 :: r2 =>
                  match hex4 h1 h2 h3 h4 with
                  | Some u =>
                      match parse_string_chars r2 with
                      | Some (str, rest) => Some (u :: str, rest)
                      | None => None
                      end
                  | None => None
                  end
              | _ => None
              end
            else
              match simple_escape e with
              | Some u =>
                  match parse_string_chars r1 with
                  | Some (str, rest) => Some (u :: str, rest)
                  | None => None
                  end
              | None => None
              end
        end
      else if c <? 32 then None
      else
        match parse_string_chars r with
        | Some (str, rest) => Some (c :: str, rest)
        | None => None
        end
  end.

(** The longest run of digits at the head of [s], and what follows
    it. *)
Fixpoint span_digits (s : jsstring) : jsstring * jsstring :=
  match s with
  | [] => ([], [])
  | c :: r =>
      if is_digit c then let '(ds, rest) := span_digits r in (c :: ds, rest)
      else ([], s)
  end.

(** An integer part is [0] or starts with another digit. *)
Definition canonical_digits (ds : jsstring) : bool :=
  match ds with
  | [] => false
  | [_] => true
  | c :: _ => negb (c =? 48)
  end.

(** The digits of a fraction, none when there is no point. *)
Definition parse_fraction (s : jsstring) : option (jsstring * jsstring) :=
  match s with
  | [] => Some ([], s)
  | c :: r =>
      if c =? 46 then
        match span_digits r with
        | ([], _) => None
        | (ds, rest) => Some (ds, rest)
        end
      else Some ([], s)
  end.

Definition parse_exponent_digits (negative : bool) (s : jsstring) : option (Z * jsstring) :=
  match span_digits s with
  | ([], _) => None
  | (ds, rest) => Some (signed negative (digits_value ds), rest)
  end.

(** The exponent, 0 when there is none. *)
Definition parse_exponent (s : jsstring) : option (Z * jsstring) :=
  match s with
  | [] => Some (0, s)
  | c :: r =>
      if (c =? 101) || (c =? 69) then
        match r with
        | [] => None
        | c' :: r' =>
            if c' =? 45 then parse_exponent_digits true r'
            else if c' =? 43 then parse_exponent_digits false r'
            else parse_exponent_digits false r
        end
      else Some (0, s)
  end.

(** The digits of a number after its sign: the Number value for the
    decimal they denote. *)
Definition parse_unsigned (negative : bool) (s : jsstring) : option (number * jsstring) :=
  let '(int, s) := span_digits s in
  if canonical_digits int then
    match parse_fraction s with
    | Some (frac, s) =>
        match parse_exponent s with
        | Some (e, rest) =>
            Some (binary64 (decimal (signed negative (digits_value (int ++ frac)))
                              (e - Z.of_nat (length frac))), rest)
        | None => None
        end
    | None => None
    end
  else None.

Definition json_of_number (x : number) : json :=
  match x with
  | Integer n => JNum n
  | NonIntegral x => JReal x
  end.

Definition parse_signed (s : jsstring) : option (number * jsstring) :=
  match s with
  | c :: r => if c =? 45 then parse_unsigned true r else parse_unsigned false s
  | [] => None
  end.

Definition parse_number (s : jsstring) : option (json * jsstring) :=
  match parse_signed s with
  | Some (x, rest) => Some (json_of_number x, rest)
  | None => None
  end.

Fixpoint strip_prefix (p s : jsstring) : option jsstring :=
  match p, s with
  | [], _ => Some s
  | a :: p', b :: s' => if a =? b then strip_prefix p' s' else None
  | _ :: _, [] => None
  end.

Definition parse_literal (s : jsstring) : option (json * jsstring) :=
  match strip_prefix (js "null") s with
  | Some rest => Some (JNull, rest)
  | None =>
      match strip_prefix (js "true") s with
      | Some rest => Some (JBool true, rest)
      | None =>
          match strip_prefix (js "false") s with
          | Some rest => Some (JBool false, rest)
          | None => parse_number s
          end
      end
  end.

(** The object the members of an object literal define, in text
    order; a later duplicate overwrites the value of the earlier one. *)
Definition object_of_members (members : list (jsstring * json)) : list (jsstring * json) :=
  fold_left (fun acc p => CreateDataProperty (fst p) (snd p) acc) members [].

(** Recursive descent; [fuel] bounds the number of nested calls. *)
Fixpoint parse_value (fuel : nat) (s : jsstring) {struct fuel} : option (json * jsstring) :=
  match fuel with
  | O => None
  | S n =>
      match skip_ws s with
      | [] => None
      | c :: r =>
          if c =? 91 then
            match skip_ws r with
            | [] => None
            | c' :: r' =>
                if c' =? 93 then Some (JArr [], r')
                else match parse_elements n r with
                     | Some (elems, rest) => Some (JArr elems, rest)
                     | None => None
                     end
            end
          else if c =? 123 then
            match skip_ws r with
            | [] => None
            | c' :: r' =>
                if c' =? 125 then Some (JObj [], r')
                else match parse_members n r with
                     | Some (members, rest) => Some (JObj (object_of_members members), rest)
                     | None => None
                     end
            end
          else if c =? 34 then
            match parse_string_chars r with
            | Some (str, rest) => Some (JStr str, rest)
            | None => None
            end
          else parse_literal (c :: r)
      end
  end
with parse_elements (fuel : nat) (s : jsstring) {struct fuel} : option (list json * jsstring) :=
  match fuel with
  | O => None
  | S n =>
      match parse_value n s with
      | None => None
      | Some (v, rest) =>
          match skip_ws rest with
          | [] => None
          | c :: r =>
              if c =? 44 then
                match parse_elements n r with
                | Some (vs, rest') => Some (v :: vs, rest')
                | None => None
                end
              else if c =? 93 then Some ([v], r)
              else None
          end
      end
  end
with parse_members (fuel : nat) (s : jsstring) {struct fuel}
  : option (list (jsstring * json) * jsstring) :=
  match fuel with
  | O => None
  | S n =>
      match skip_ws s with
      | [] => None
      | q :: r0 =>
          if q =? 34 then
            match parse_string_chars r0 with
            | None => None
            | Some (k, r1) =>
                match skip_ws r1 with
                | [] => None
                | colon :: r2 =>
                    if colon =? 58 then
                      match parse_value n r2 with
                      | None => None
                      | Some (v, rest) =>
                          match skip_ws rest with
                          | [] => None
                          | c :: r =>
                              if c =? 44 then
                                match parse_members n r with
                                | Some (ms, rest') => Some ((k, v) :: ms, rest')
                                | None => None
                                end
                              else if c =? 125 then Some ([(k, v)], r)
                              else None
                          end
                      end
                    else None
                end
            end
          else None
      end
  end.

(** [JSON.parse(text)]: the whole text is one value between optional
    white space, or a [SyntaxError].  Every nested call of the parser
    is made on a shorter text or after a call that was, so twice the
    length of the text bounds their depth. *)
Definition JSON_parse (text : jsstring) : completion json :=
  match parse_value (2 * length text + 2) text with
  | Some (v, rest) =>
      match skip_ws rest with
      | [] => Normal v
      | _ :: _ => Throw SyntaxError
      end
  | None => Throw SyntaxError
  end.

(** ** btoa and atob *)

Definition b64_char (n : Z) : Z :=
  if n <? 26 then 65 + n
  else if n <? 52 then 71 + n
  else if n <? 62 then n - 4
  else if n =? 62 then 43
  else 47.

Definition b64_value (c : Z) : option Z :=
  if (65 <=? c) && (c <=? 90) then Some (c - 65)
  else if (97 <=? c) && (c <=? 122) then Some (c - 71)
  else if (48 <=? c) && (c <=? 57) then Some (c + 4)
  else if c =? 43 then Some 62
  else if c =? 47 then Some 63
  else None.

Fixpoint b64_encode (s : jsstring) : jsstring :=
  match s with
  | [] => []
  | a :: r1 =>
      match r1 with
      | [] => [b64_char (a / 4); b64_char (a mod 4 * 16); 61; 61]
      | b :: r2 =>
          match r2 with
          | [] =>
              [b64_char (a / 4); b64_char (a mod 4 * 16 + b / 16);
               b64_char (b mod 16 * 4); 61]
          | c :: r3 =>
              b64_char (a / 4) :: b64_char (a mod 4 * 16 + b / 16)
                :: b64_char (b mod 16 * 4 + c / 64) :: b64_char (c mod 64)
                :: b64_encode r3
          end
      end
  end.

Definition is_byte (c : Z) : bool := (0 <=? c) && (c <=? 255).

(** [btoa(s)]: an [InvalidCharacterError] unless every code unit is
    a byte, U+0000 to U+00FF. *)
Definition btoa (s : jsstring) : completion jsstring :=
  if forallb is_byte s then Normal (b64_encode s)
  else Throw InvalidCharacterError.

Definition is_ascii_ws (c : Z) : bool :=
  (c =? 9) || (c =? 10) || (c =? 12) || (c =? 13) || (c =? 32).

(** One or two [=] at the very end are dropped. *)
Fixpoint drop_padding (s : jsstring) : jsstring :=
  match s with
  | [] => []
  | c :: r =>
      match r with
      | [] => if c =? 61 then [] else [c]
      | c' :: r' =>
          match r' with
          | [] => if c' =? 61 then (if c =? 61 then [] else [c]) else [c; c']
          | _ :: _ => c :: drop_padding r
          end
      end
  end.

Fixpoint b64_values (s : jsstring) : option (list Z) :=
  match s with
  | [] => Some []
  | c :: r =>
      match b64_value c, b64_values r with
      | Some n, Some ns => Some (n :: ns)
      | _, _ => None
      end
  end.

(** Four sextets give three bytes; of a final group of two or three,
    the bits that do not fill a byte are discarded. *)
Fixpoint b64_decode (l : list Z) : jsstring :=
  match l with
  | w :: x :: y :: z :: r =>
      (w * 4 + x / 16) :: (x mod 16 * 16 + y / 4) :: (y mod 4 * 64 + z) :: b64_decode r
  | [w; x; y] => [w * 4 + x / 16; x mod 16 * 16 + y / 4]
  | [w; x] => [w * 4 + x / 16]
  | _ => []
  end.

(** [atob(s)], the forgiving base64 decoding: white space is removed;
    padding is dropped when the length is a multiple of four; a length
    of one more than a multiple of four, or a character outside the
    alphabet, is an [InvalidCharacterError]. *)
Definition atob (s : jsstring) : completion jsstring :=
  let s1 := List.filter (fun c => negb (is_ascii_ws c)) s in
  let s2 := if (Z.of_nat (length s1) mod 4 =? 0) then drop_padding s1 else s1 in
  if Z.of_nat (length s2) mod 4 =? 1 then Throw InvalidCharacterError
  else match b64_values s2 with
       | Some l => Normal (b64_decode l)
       | None => Throw InvalidCharacterError
       end.

(** ** The page *)

(** An [<audio>] element. *)
Record audio : Type := {
  src : jsstring;
  paused : bool;
  currentTime : Z
}.

(** The callbacks the module hands to the host. *)
Inductive callback : Type :=
| cb_restore
| cb_setupSound.

(** The state the facade reads and writes: the host's, and the two
    registries of the module, [scrollPositions] and the [urls] of
    [audioPlayer]. *)
Record window : Type := {
  localStorage : gmap jsstring jsstring;
  (** [matchMedia('(prefers-color-scheme: dark)').matches], when the
      host has [matchMedia] *)
  prefers_dark : option bool;
  (** the [data-theme] attribute of [document.body] *)
  data_theme : option jsstring;
  location_search : jsstring;
  location_pathname : jsstring;
  scrollY : Z;
  (** the arguments of the calls of [scrollTo], latest first *)
  scrollTo_calls : list (Z * any);
  (** the offset at which [scrollTo(x, y)] leaves the viewport: the host
      converts [y] to a number and clamps it to the range the layout of
      the page allows *)
  scroll_target : any -> Z;
  (** the callbacks [setTimeout] has queued, oldest first *)
  timers : list callback;
  (** the audio elements created so far; a handle is an index *)
  audios : list audio;
  (** the listeners of the click event of the window *)
  click_listeners : list callback;
  scrollPositions : list (jsstring * json);
  urls : list (jsstring * nat)
}.

Definition with_localStorage (v : gmap jsstring jsstring) (w : window) : window :=
  {| localStorage := v; prefers_dark := prefers_dark w; data_theme := data_theme w;
     location_search := location_search w; location_pathname := location_pathname w;
     scrollY := scrollY w; scrollTo_calls := scrollTo_calls w;
     scroll_target := scroll_target w; timers := timers w;
     audios := audios w; click_listeners := click_listeners w;
     scrollPositions := scrollPositions w; urls := urls w |}.

Definition with_data_theme (v : option jsstring) (w : window) : window :=
  {| localStorage := localStorage w; prefers_dark := prefers_dark w; data_theme := v;
     location_search := location_search w; location_pathname := location_pathname w;
     scrollY := scrollY w; scrollTo_calls := scrollTo_calls w;
     scroll_target := scroll_target w; timers := timers w;
     audios := audios w; click_listeners := click_listeners w;
     scrollPositions := scrollPositions w; urls := urls w |}.

Definition with_location (search pathname : jsstring) (w : window) : window :=
  {| localStorage := localStorage w; prefers_dark := prefers_dark w;
     data_theme := data_theme w;
     location_search := search; location_pathname := pathname;
     scrollY := scrollY w; scrollTo_calls := scrollTo_calls w;
     scroll_target := scroll_target w; timers := timers w;
     audios := audios w; click_listeners := click_listeners w;
     scrollPositions := scrollPositions w; urls := urls w |}.

Definition with_scrollY (v : Z) (w : window) : window :=
  {| localStorage := localStorage w; prefers_dark := prefers_dark w;
     data_theme := data_theme w;
     location_search := location_search w; location_pathname := location_pathname w;
     scrollY := v; scrollTo_calls := scrollTo_calls w;
     scroll_target := scroll_target w; timers := timers w;
     audios := audios w; click_listeners := click_listeners w;
     scrollPositions := scrollPositions w; urls := urls w |}.

Definition with_scrollTo_calls (v : list (Z * any)) (w : window) : window :=
  {| localStorage := localStorage w; prefers_dark := prefers_dark w;
     data_theme := data_theme w;
     location_search := location_search w; location_pathname := location_pathname w;
     scrollY := scrollY w; scrollTo_calls := v;
     scroll_target := scroll_target w; timers := timers w;
     audios := audios w; click_listeners := click_listeners w;
     scrollPositions := scrollPositions w; urls := urls w |}.

Definition with_scroll_target (v : any -> Z) (w : window) : window :=
  {| localStorage := localStorage w; prefers_dark := prefers_dark w;
     data_theme := data_theme w;
     location_search := location_search w; location_pathname := location_pathname w;
     scrollY := scrollY w; scrollTo_calls := scrollTo_calls w;
     scroll_target := v; timers := timers w;
     audios := audios w; click_listeners := click_listeners w;
     scrollPositions := scrollPositions w; urls := urls w |}.

Definition with_timers (v : list callback) (w : window) : window :=
  {| localStorage := localStorage w; prefers_dark := prefers_dark w;
     data_theme := data_theme w;
     location_search := location_search w; location_pathname := location_pathname w;
     scrollY := scrollY w; scrollTo_calls := scrollTo_calls w;
     scroll_target := scroll_target w; timers := v;
     audios := audios w; click_listeners := click_listeners w;
     scrollPositions := scrollPositions w; urls := urls w |}.

Definition with_audios (v : list audio) (w : window) : window :=
  {| localStorage := localStorage w; prefers_dark := prefers_dark w;
     data_theme := data_theme w;
     location_search := location_search w; location_pathname := location_pathname w;
     scrollY := scrollY w; scrollTo_calls := scrollTo_calls w;
     scroll_target := scroll_target w; timers := timers w;
     audios := v; click_listeners := click_listeners w;
     scrollPositions := scrollPositions w; urls := urls w |}.

Definition with_click_listeners (v : list callback) (w : window) : window :=
  {| localStorage := localStorage w; prefers_dark := prefers_dark w;
     data_theme := data_theme w;
     location_search := location_search w; location_pathname := location_pathname w;
     scrollY := scrollY w; scrollTo_calls := scrollTo_calls w;
     scroll_target := scroll_target w; timers := timers w;
     audios := audios w; click_listeners := v;
     scrollPositions := scrollPositions w; urls := urls w |}.

Definition with_scrollPositions (v : list (jsstring * json)) (w : window) : window :=
  {| localStorage := localStorage w; prefers_dark := prefers_dark w;
     data_theme := data_theme w;
     location_search := location_search w; location_pathname := location_pathname w;
     scrollY := scrollY w; scrollTo_calls := scrollTo_calls w;
     scroll_target := scroll_target w; timers := timers w;
     audios := audios w; click_listeners := click_listeners w;
     scrollPositions := v; urls := urls w |}.

Definition with_urls (v : list (jsstring * nat)) (w : window) : window :=
  {| localStorage := localStorage w; prefers_dark := prefers_dark w;
     data_theme := data_theme w;
     location_search := location_search w; location_pathname := location_pathname w;
     scrollY := scrollY w; scrollTo_calls := scrollTo_calls w;
     scroll_target := scroll_target w; timers := timers w;
     audios := audios w; click_listeners := click_listeners w;
     scrollPositions := scrollPositions w; urls := v |}.

(** *** Storage *)

Definition getItem (key : jsstring) (w : window) : option jsstring :=
  localStorage w !! key.

Definition setItem (key value : jsstring) (w : window) : window :=
  with_localStorage (<[key := value]> (localStorage w)) w.

Definition removeItem (key : jsstring) (w : window) : window :=
  with_localStorage (delete key (localStorage w)) w.

Definition Storage_clear (w : window) : window :=
  with_localStorage ∅ w.

(** *** Document, viewport, timers *)

Definition setAttribute_data_theme (value : jsstring) (w : window) : window :=
  with_data_theme (Some value) w.

(** [window.scrollTo(x, y)] moves the viewport. *)
Definition scrollTo (x : Z) (y : any) (w : window) : window :=
  with_scrollY (scroll_target w y) (with_scrollTo_calls ((x, y) :: scrollTo_calls w) w).

Definition setTimeout (f : callback) (w : window) : window :=
  with_timers (timers w ++ [f]) w.

(** *** Audio elements *)

(** [document.createElement('audio')] followed by [audioEl.src = url]:
    the new element and its handle. *)
Definition createElement_audio (url : jsstring) (w : window) : nat * window :=
  (length (audios w),
   with_audios (audios w ++ [{| src := url; paused := true; currentTime := 0 |}]) w).

Definition update_audio (f : audio -> audio) (h : nat) (w : window) : window :=
  with_audios (alter f h (audios w)) w.

Definition audio_play (h : nat) : window -> window :=
  update_audio (fun a => {| src := src a; paused := false; currentTime := currentTime a |}) h.

Definition audio_pause (h : nat) : window -> window :=
  update_audio (fun a => {| src := src a; paused := true; currentTime := currentTime a |}) h.

Definition audio_set_currentTime (t : Z) (h : nat) : window -> window :=
  update_audio (fun a => {| src := src a; paused := paused a; currentTime := t |}) h.

(** ** src/index.ts *)

(** An optional string argument is truthy when it is given and not
    empty. *)
Definition truthy_key (key : option jsstring) : bool :=
  match key with
  | Some k => nonempty k
  | None => false
  end.

(** Lines 3-15. *)
Module storageManager.

Definition get (key : jsstring) (defaultValue : any) (w : window) : completion any :=
  try_catch
    (value <- JSON_parse (ToString_null (getItem key w)) ;;
     if is_nullish (Data value) then Normal defaultValue
     else Normal (Data value))
    (fun _ => Normal defaultValue).

Definition set (key : jsstring) (value : any) (w : window) : window :=
  setItem key (ToString_undefined (JSON_stringify value)) w.

Definition clear (key : option jsstring) (w : window) : window :=
  match key with
  | Some k => if nonempty k then removeItem k w else Storage_clear w
  | None => Storage_clear w
  end.

End storageManager.

(** Lines 17-45. *)
Module themeManager.

Definition key : jsstring := js "APP_THEME".

Definition attribute : jsstring := js "data-theme".

Definition get (w : window) : jsstring :=
  let preferredTheme :=
    match prefers_dark w with
    | Some true => js "dark"
    | _ => js "light"
    end in
  let currentTheme :=
    match getItem key w with
    | Some stored => if nonempty stored then stored else preferredTheme
    | None => preferredTheme
    end in
  if negb (named_in [js "light"; js "dark"] currentTheme) then js "light"
  else currentTheme.

Definition init (w : window) : window :=
  let currentTheme := get w in
  setItem key currentTheme (setAttribute_data_theme currentTheme w).

Definition set (newTheme : jsstring) (w : window) : window :=
  setItem key newTheme (setAttribute_data_theme newTheme w).

Definition toggle (w : window) : window :=
  let currentTheme := get w in
  let altTheme := if str_eqb currentTheme (js "light") then js "dark" else js "light" in
  setAttribute_data_theme altTheme (setItem key altTheme w).

End themeManager.

(** Lines 47-64. *)
Module qsm.

(** [key] is [None] when the argument is omitted.  The test
    [key in obj] and the read [obj[key]] of line 54 are the one
    lookup [property]. *)
Definition read (key : option jsstring) (defaultValue : any) (w : window)
  : completion any :=
  try_catch
    (text <- atob (slice_from 1 (location_search w)) ;;
     obj <- JSON_parse text ;;
     value <-
       (if truthy_key key && ToBoolean (Data obj) then
          found <- property (default [] key) obj ;;
          match found with
          | Some member => Normal member
          | None => Normal (Data obj)
          end
        else Normal (Data obj)) ;;
     if is_nullish value then Normal defaultValue else Normal value)
    (fun _ => Normal defaultValue).

(** An omitted (undefined) [content] defaults to [{}]; an omitted
    [prefix] is [[]]. *)
Definition gen (content : any) (prefix : jsstring) : completion jsstring :=
  let content :=
    match content with
    | Undefined => Data (JObj [])
    | _ => content
    end in
  token <- btoa (ToString_undefined (JSON_stringify content)) ;;
  Normal (prefix ++ 63 :: token).

End qsm.

(** Lines 66-78. *)
Module scrollBack.

(** The function [init] passes to [setTimeout]. *)
Definition restore (w : window) : window :=
  let page := location_pathname w in
  match object_property page (scrollPositions w) with
  | Some offset =>
      with_scrollPositions (own_delete page (scrollPositions w)) (scrollTo 0 offset w)
  | None => w
  end.

Definition init (w : window) : window := setTimeout cb_restore w.

Definition save (w : window) : window :=
  with_scrollPositions
    (object_set (location_pathname w) (JNum (scrollY w)) (scrollPositions w)) w.

End scrollBack.

Inductive status : Type :=
| load
| play
| pause
| stop.

(** Lines 138-169. *)
Module audioPlayer.

Definition silence : jsstring :=
  js "data:audio/wav;base64,UklGRigAAABXQVZFZm10IBIAAAABAAEARKwAAIhYAQACABAAAABkYXRhAgAAAAEA".

Definition setupSound (w : window) : window :=
  let '(audioEl, w1) := createElement_audio silence w in
  let w2 := audio_play audioEl w1 in
  (* removeEventListener('click', setupSound) *)
  with_click_listeners
    (List.filter (fun c => match c with cb_setupSound => false | _ => true end)
       (click_listeners w2)) w2.

(** The body of the closure, run once when the module is loaded: the
    empty registry and the click listener. *)
Definition setup (w : window) : window :=
  with_click_listeners (click_listeners w ++ [cb_setupSound]) (with_urls [] w).

(** [url in urls] *)
Definition in_urls (url : jsstring) (w : window) : bool :=
  has_own url (urls w) || named_in Object_prototype url.

(** [urls[url].method()]: the method runs on the element the
    registry owns under [url]; an inherited member of the registry
    has no such method, and calling it is a [TypeError]. *)
Definition on_audio (url : jsstring) (method : nat -> window -> window) (w : window)
  : window * completion unit :=
  match own_get url (urls w) with
  | Some audioEl => (method audioEl w, Normal tt)
  | None => (w, Throw TypeError)
  end.

(** The function the closure returns; an omitted [url] is [[]].  The
    result is the window the call leaves and how the call completes. *)
Definition call (url : jsstring) (st : option status) (w : window)
  : window * completion unit :=
  if negb (nonempty url) then (w, Normal tt)
  else
    let w :=
      if negb (in_urls url w) then
        let '(audioEl, w1) := createElement_audio url w in
        (* [urls[url] = audioEl], for a key the registry neither owns nor inherits *)
        with_urls (CreateDataProperty url audioEl (urls w1)) w1
      else w in
    let st :=
      match st with
      | Some s => s
      | None => play
      end in
    match st with
    | load => (w, Normal tt)
    | play => on_audio url audio_play w
    | pause => on_audio url audio_pause w
    | stop =>
        let '(w1, paused) := on_audio url audio_pause w in
        match paused with
        | Normal _ => on_audio url (audio_set_currentTime 0) w1
        | Throw e => (w1, Throw e)
        end
    end.

End audioPlayer.

(** ** The event loop *)

Definition run_callback (c : callback) (w : window) : window :=
  match c with
  | cb_restore => scrollBack.restore w
  | cb_setupSound => audioPlayer.setupSound w
  end.

(** The oldest queued timer fires. *)
Definition run_timer (w : window) : window :=
  match timers w with
  | [] => w
  | c :: rest => run_callback c (with_timers rest w)
  end.

(** A click on the page. *)
Definition click (w : window) : window :=
  fold_left (fun w c => run_callback c w) (click_listeners w) w.

(** A page freshly loaded: nothing stored, scrolled, queued or created,
    nothing laid out, so that the viewport cannot leave the top, and
    the module set up. *)
Definition fresh_window (dark : option bool) (search pathname : jsstring) : window :=
  audioPlayer.setup
    {| localStorage := ∅; prefers_dark := dark; data_theme := None;
       location_search := search; location_pathname := pathname;
       scrollY := 0; scrollTo_calls := []; scroll_target := fun _ => 0; timers := [];
       audios := []; click_listeners := [];
       scrollPositions := []; urls := [] |}.

(** What happens on a page: the host's events and the calls of the
    facade that write. *)
Inductive event : Type :=
| ev_navigate (search pathname : jsstring)
| ev_scroll (y : Z)
| ev_layout (target : any -> Z)  (* the page is laid out anew *)
| ev_timer
| ev_click
| ev_setItem (key value : jsstring)
| ev_storage_set (key : jsstring) (value : any)
| ev_storage_clear (key : option jsstring)
| ev_theme_init
| ev_theme_set (newTheme : jsstring)
| ev_theme_toggle
| ev_scroll_init
| ev_scroll_save
| ev_audio (url : jsstring) (st : option status).

Definition step (e : event) (w : window) : window :=
  match e with
  | ev_navigate search pathname => with_location search pathname w
  | ev_scroll y => with_scrollY y w
  | ev_layout target => with_scroll_target target w
  | ev_timer => run_timer w
  | ev_click => click w
  | ev_setItem key value => setItem key value w
  | ev_storage_set key value => storageManager.set key value w
  | ev_storage_clear key => storageManager.clear key w
  | ev_theme_init => themeManager.init w
  | ev_theme_set newTheme => themeManager.set newTheme w
  | ev_theme_toggle => themeManager.toggle w
  | ev_scroll_init => scrollBack.init w
  | ev_scroll_save => scrollBack.save w
  | ev_audio url st => fst (audioPlayer.call url st w)
  end.

Definition run (es : list event) (w : window) : window :=
  fold_left (fun w e => step e w) es w.

Inductive reachable : window -> Prop :=
| reachable_fresh dark search pathname :
    reachable (fresh_window dark search pathname)
| reachable_step e w :
    reachable w -> reachable (step e w).

(** ** Serializable data *)

Definition code_unitb (c : Z) : bool := (0 <=? c) && (c <? 65536).

Definition wf_stringb (s : jsstring) : bool := forallb code_unitb s.

Definition is_index (k : jsstring) : bool :=
  match array_index k with
  | Some _ => true
  | None => false
  end.

(** The order in which an object enumerates its own keys: the array
    indices, ascending from [lo], then the other names. *)
Fixpoint indices_then_names (lo : N) (ks : list jsstring) : bool :=
  match ks with
  | [] => true
  | k :: r =>
      match array_index k with
      | Some i => (lo <=? i)%N && indices_then_names (N.succ i) r
      | None => forallb (fun k' => negb (is_index k')) r
      end
  end.

Fixpoint distinct (ks : list jsstring) : bool :=
  match ks with
  | [] => true
  | k :: r => negb (named_in r k) && distinct r
  end.

Definition own_keys_ok (ks : list jsstring) : bool :=
  distinct ks && indices_then_names 0 ks.

(** A value [JSON.stringify] writes without loss: strings of code
    units, finite Numbers, and objects as the engine holds them, with
    distinct keys in enumeration order. *)
Fixpoint serializable (v : json) : bool :=
  match v with
  | JNull | JBool _ => true
  | JNum n => is_Number (Integer n)
  | JReal (Dyadic m e) => is_Number (NonIntegral (Dyadic m e))
  | JReal (Infinity _) => false
  | JStr s => wf_stringb s
  | JArr elems => forallb serializable elems
  | JObj props =>
      own_keys_ok (map fst props)
      && forallb (fun p => wf_stringb (fst p) && serializable (snd p)) props
  end.

(** The depth of calls [parse_value] makes on the text of [v]. *)
Fixpoint cost (v : json) : nat :=
  match v with
  | JArr elems => S (list_sum (map (fun e => S (cost e)) elems))
  | JObj props => S (list_sum (map (fun p => S (cost (snd p))) props))
  | _ => 1%nat
  end.

(** Structural induction on data, through the lists of an array and of
    an object. *)
Section json_induction.
Variable P : json -> Prop.
Hypothesis Hnull : P JNull.
Hypothesis Hbool : forall b, P (JBool b).
Hypothesis Hnum : forall n, P (JNum n).
Hypothesis Hreal : forall x, P (JReal x).
Hypothesis Hstr : forall s, P (JStr s).
Hypothesis Harr : forall elems, Forall P elems -> P (JArr elems).
Hypothesis Hobj : forall props, Forall (fun p => P (snd p)) props -> P (JObj props).

Fixpoint json_ind (v : json) : P v :=
  match v with
  | JNull => Hnull
  | JBool b => Hbool b
  | JNum n => Hnum n
  | JReal x => Hreal x
  | JStr s => Hstr s
  | JArr elems =>
      Harr elems
        ((fix all (l : list json) : Forall P l :=
            match l with
            | [] => List.Forall_nil P
            | x :: r => List.Forall_cons P x r (json_ind x) (all r)
            end) elems)
  | JObj props =>
      Hobj props
        ((fix all (l : list (jsstring * json)) : Forall (fun p => P (snd p)) l :=
            match l with
            | [] => List.Forall_nil _
            | x :: r => List.Forall_cons _ x r (json_ind (snd x)) (all r)
            end) props)
  end.
End json_induction.

(** ** The stateless helpers of src/index.ts *)

(** [s.endsWith(c)] for a single code unit [c]. *)
Definition endsWith (s : jsstring) (c : Z) : bool :=
  match last s with
  | Some c' => c' =? c
  | None => false
  end.

(** Lines 83-89.  An omitted (undefined) [value] defaults to [0].
    [value === 1] holds of the number 1 alone. *)
Definition addPluralSuffix (value : any) (entity : jsstring) : jsstring :=
  let value :=
    match value with
    | Undefined => Data (JNum 0)
    | _ => value
    end in
  if match value with
     | Data (JNum n) => n =? 1
     | _ => false
     end
  then entity
  else if endsWith entity 121
       then take (length entity - 1) entity ++ js "ies"
       else entity ++ js "s".

(** Line 91, on an integer [n].  The sum [n + 90] is the Number
    nearest to it; [%] is the remainder of the division that
    truncates, [Z.rem], and is exact, as are the two subtractions.  An
    index outside the array reads [undefined], which [||] replaces; an
    infinite sum leaves no index at all. *)
Definition getOrdinalSuffix (n : Z) : jsstring :=
  match binary64 (inject_Z (n + 90)) with
  | Integer sum =>
      let index := Z.rem (Z.rem sum 100 - 10) 10 - 1 in
      let element :=
        if 0 <=? index then nth_error [js "st"; js "nd"; js "rd"] (Z.to_nat index)
        else None in
      match element with
      | Some suffix => if nonempty suffix then suffix else js "th"
      | None => js "th"
      end
  | NonIntegral _ => js "th"
  end.

(** The values [===] compares by value. *)
Inductive primitive : Type :=
| PUndefined
| PNull
| PBool (b : bool)
| PNum (n : Z)
| PReal (x : nonintegral)
| PStr (s : jsstring).

(** [v === id] for a primitive [id]: an object or a function is no
    primitive. *)
Definition strict_equals (v : any) (id : primitive) : bool :=
  match v, id with
  | Undefined, PUndefined => true
  | Data JNull, PNull => true
  | Data (JBool a), PBool b => Bool.eqb a b
  | Data (JNum a), PNum b => a =? b
  | Data (JReal a), PReal b => nonintegral_eqb a b
  | Data (JStr a), PStr b => str_eqb a b
  | _, _ => false
  end.

(** [obj[key]] on a plain object: [undefined] when the object neither
    owns nor inherits [key]. *)
Definition object_get (key : jsstring) (obj : list (jsstring * json)) : any :=
  default Undefined (object_property key obj).

(** Lines 112-113, for an array of plain objects and a sequence of
    primitive ids; an omitted [key] is ['id'].  [find] gives the first
    object whose [key] is the id, [filter] drops the ids that found
    none (an object is truthy). *)
Definition arrangeObjects (idsSequence : list primitive)
  (array : list (list (jsstring * json))) (key : jsstring)
  : list (list (jsstring * json)) :=
  omap (fun id => List.find (fun obj => strict_equals (object_get key obj) id) array)
    idsSequence.

(** [ToString] of data.  An array joins the texts of its elements, [null] giving
    the empty text; a plain object gives
    [[object Object]], unless it owns a [toString] property, which in
    data is no function: then no method yields a primitive and the
    conversion is a [TypeError]. *)
Fixpoint ToString_json (v : json) : completion jsstring :=
  match v with
  | JNull => Normal (js "null")
  | JBool true => Normal (js "true")
  | JBool false => Normal (js "false")
  | JNum n => Normal (Number_toString n)
  | JReal x => Normal (number_text (Number_of_nonintegral x))
  | JStr s => Normal s
  | JArr elems =>
      (fix join (l : list json) : completion jsstring :=
         match l with
         | [] => Normal []
         | e :: r =>
             text <- match e with
                     | JNull => Normal []
                     | _ => ToString_json e
                     end ;;
             match r with
             | [] => Normal text
             | _ :: _ => texts <- join r ;; Normal (text ++ 44 :: texts)
             end
         end) elems
  | JObj props =>
      if has_own (js "toString") props then Throw TypeError
      else Normal (js "[object Object]")
  end.

(** [keyObjectMap] of [removeDuplicates]: its own properties, and its
    prototype, [None] while that is [Object.prototype] and [Some x]
    once the [__proto__] setter has put the object [x] of the array in
    its place. *)
Record object_map : Type := {
  map_prototype : option (list (jsstring * json));
  map_own : list (jsstring * list (jsstring * json))
}.

(** The assignment [keyObjectMap[k] = x] looks [k] up on
    [keyObjectMap] and then along its prototype chain.  It ends at the
    [__proto__] accessor of [Object.prototype] when [k] is [__proto__]
    and neither [keyObjectMap] nor the object made its prototype owns
    a property of that name. *)
Definition reaches_setter (k : jsstring) (keyObjectMap : object_map) : bool :=
  str_eqb k (js "__proto__")
  && negb (has_own k (map_own keyObjectMap))
  && negb (match map_prototype keyObjectMap with
           | Some prototype => has_own k prototype
           | None => false
           end).

(** [keyObjectMap[k] = x], [x] an object: the setter makes [x] the
    prototype and adds no property; in every other case the key is
    found as a writable data property, own or inherited, or not at
    all, and [k] becomes an own property, overwritten in place or
    created. *)
Definition keyObjectMap_set (k : jsstring) (x : list (jsstring * json))
  (keyObjectMap : object_map) : object_map :=
  if reaches_setter k keyObjectMap
  then {| map_prototype := Some x; map_own := map_own keyObjectMap |}
  else {| map_prototype := map_prototype keyObjectMap;
          map_own := CreateDataProperty k x (map_own keyObjectMap) |}.

Section HostText.

(** The source text the host prints for the built-in function a
    prototype holds under a name; its layout differs between
    engines. *)
Variable native_source : jsstring -> jsstring.

(** [ToPropertyKey] of a value used as [obj[value]]. *)
Definition ToPropertyKey (v : any) : completion jsstring :=
  match v with
  | Undefined => Normal (js "undefined")
  | Data j => ToString_json j
  | Builtin name => Normal (native_source name)
  end.

(** The loop of line 117. *)
Fixpoint removeDuplicates_loop (array : list (list (jsstring * json))) (key : jsstring)
  (keyObjectMap : object_map) : completion object_map :=
  match array with
  | [] => Normal keyObjectMap
  | x :: rest =>
      k <- ToPropertyKey (object_get key x) ;;
      removeDuplicates_loop rest key (keyObjectMap_set k x keyObjectMap)
  end.

(** Lines 115-119, for an array of plain objects; an omitted [key]
    is ['id'].  [Object.values] lists the own properties in
    enumeration order. *)
Definition removeDuplicates (array : list (list (jsstring * json))) (key : jsstring)
  : completion (list (list (jsstring * json))) :=
  keyObjectMap <-
    removeDuplicates_loop array key {| map_prototype := None; map_own := [] |} ;;
  Normal (map snd (map_own keyObjectMap)).

End HostText.

(** ** Text that fits [btoa] *)

(** Every code unit of every string and key of [v] is a byte. *)
Fixpoint latin1 (v : json) : bool :=
  match v with
  | JNull | JBool _ | JNum _ | JReal _ => true
  | JStr s => forallb is_byte s
  | JArr elems => forallb latin1 elems
  | JObj props => forallb (fun p => forallb is_byte (fst p) && latin1 (snd p)) props
  end.

(** A code unit above U+00FF that is no surrogate. *)
Definition wide_unit (c : Z) : bool :=
  (255 <? c) && negb (is_high_surrogate c) && negb (is_low_surrogate c).

(** Some string or key of [v] holds a wide code unit. *)
Fixpoint wide (v : json) : bool :=
  match v with
  | JNull | JBool _ | JNum _ | JReal _ => false
  | JStr s => existsb wide_unit s
  | JArr elems => existsb wide elems
  | JObj props => existsb (fun p => existsb wide_unit (fst p) || wide (snd p)) props
  end.

(** The characters of a base64 text. *)
Definition b64_text (c : Z) : Prop :=
  65 <= c <= 90 \/ 97 <= c <= 122 \/ 48 <= c <= 57 \/ c = 43 \/ c = 47 \/ c = 61.

(** ** The click listener of audioPlayer *)

(** ** Notions used in the proofs *)

Definition head_is (ok : Z -> bool) (s : jsstring) : Prop :=
  match s with
  | [] => True
  | c :: _ => ok c = true
  end.

(** A decimal numeral without a leading zero. *)
Definition canonical_int (d : Decimal.uint) : bool :=
  match d with
  | Decimal.Nil => false
  | Decimal.D0 Decimal.Nil => true
  | Decimal.D0 _ => false
  | _ => true
  end.

(** What may follow a number in a text: nothing, or a character that
    neither continues the digits nor opens a fraction or exponent. *)
Definition ends_number (c : Z) : bool :=
  negb (is_digit c) && negb ((c =? 46) || (c =? 101) || (c =? 69)).

(** What may follow a value inside a text. *)
Definition follows (c : Z) : bool := (c =? 44) || (c =? 93) || (c =? 125).

(** The first character of a serialized value opens a value: it is no
    white space and closes nothing. *)
Definition opens_value (c : Z) : bool :=
  negb (is_ws c) && negb (c =? 93) && negb (c =? 125).

Definition reads_back (v : json) : Prop :=
  serializable v = true ->
  forall (fuel : nat) (rest : jsstring),
    (cost v <= fuel)%nat -> head_is follows rest ->
    parse_value fuel (SerializeJSONProperty v ++ rest) = Some (v, rest).

Definition member_text (p : jsstring * json) : jsstring :=
  QuoteJSONString (fst p) ++ 58 :: SerializeJSONProperty (snd p).

Definition byte (c : Z) : Prop := 0 <= c <= 255.

Definition sextet (n : Z) : Prop := 0 <= n < 64.

(** The sextets of the encoding, before padding. *)
Fixpoint b64_sextets (s : jsstring) : list Z :=
  match s with
  | [] => []
  | a :: r1 =>
      match r1 with
      | [] => [a / 4; a mod 4 * 16]
      | b :: r2 =>
          match r2 with
          | [] => [a / 4; a mod 4 * 16 + b / 16; b mod 16 * 4]
          | c :: r3 =>
              a / 4 :: (a mod 4 * 16 + b / 16) :: (b mod 16 * 4 + c / 64) :: c mod 64
                :: b64_sextets r3
          end
      end
  end.

(** ** Notions used in the statements *)

(** The payload [qsm.read] decodes from the location. *)
Definition query_payload (w : window) : completion json :=
  text <- atob (slice_from 1 (location_search w)) ;; JSON_parse text.

(** What a status asks of the audio element [audioEl]. *)
Definition transport (st : option status) (audioEl : nat) (w : window) : window :=
  match default play st with
  | load => w
  | play => audio_play audioEl w
  | pause => audio_pause audioEl w
  | stop => audio_set_currentTime 0 audioEl (audio_pause audioEl w)
  end.

(** The event is a call of [scrollBack.save] on the page [p]. *)
Definition saves_at (p : jsstring) (e : event) (w : window) : bool :=
  match e with
  | ev_scroll_save => str_eqb (location_pathname w) p
  | _ => false
  end.

Definition is_restore (c : callback) : bool :=
  match c with
  | cb_restore => true
  | cb_setupSound => false
  end.

(** The event runs the deferred body of [scrollBack.init] on the
    page [p]. *)
Definition restores_at (p : jsstring) (e : event) (w : window) : bool :=
  match e with
  | ev_timer =>
      match timers w with
      | c :: _ => is_restore c && str_eqb (location_pathname w) p
      | [] => false
      end
  | ev_click => existsb is_restore (click_listeners w) && str_eqb (location_pathname w) p
  | _ => false
  end.

(** No event of the trace is [bad] in the state it happens in. *)
Fixpoint never (bad : event -> window -> bool) (es : list event) (w : window) : bool :=
  match es with
  | [] => true
  | e :: rest => negb (bad e w) && never bad rest (step e w)
  end.

(** The registries hold one entry per key, and the handle an URL is
    cached under is the element created for that URL. *)
Definition registries_ok (w : window) : Prop :=
  distinct (map fst (scrollPositions w)) = true
  /\ distinct (map fst (urls w)) = true
  /\ forall url audioEl,
       own_get url (urls w) = Some audioEl ->
       exists a, audios w !! audioEl = Some a /\ src a = url.

(** The offset the scroll registry owns for the page [p]. *)
Definition entry (p : jsstring) (w : window) : option json :=
  own_get p (scrollPositions w).

(** The path of a page starts with a slash. *)
Definition page_path (p : jsstring) : Prop := exists rest, p = 47 :: rest.

(** * Properties of the host model *)

(** ** Strings and tests *)

Lemma str_eqb_eq (a b : jsstring) : str_eqb a b = true <-> a = b.
Proof. unfold str_eqb. apply bool_decide_eq_true. Qed.

Lemma str_eqb_neq (a b : jsstring) : str_eqb a b = false <-> a <> b.
Proof. unfold str_eqb. apply bool_decide_eq_false. Qed.

Lemma str_eqb_refl (a : jsstring) : str_eqb a a = true.
Proof. by apply str_eqb_eq. Qed.

(** Case analysis on the integer tests of a goal or hypothesis. *)
Ltac ztest :=
  repeat match goal with
    | |- context [(?a =? ?b)%Z] => destruct (Z.eqb_spec a b)
    | |- context [(?a <? ?b)%Z] => destruct (Z.ltb_spec a b)
    | |- context [(?a <=? ?b)%Z] => destruct (Z.leb_spec a b)
    end; simpl; try first [lia | congruence | reflexivity].

Lemma wf_stringb_spec (s : jsstring) : wf_stringb s = true <-> wf_string s.
Proof.
  unfold wf_stringb, wf_string, code_unit, code_unitb.
  rewrite forallb_forall, List.Forall_forall.
  split; intros H c Hc; specialize (H c Hc).
  - apply andb_true_iff in H as [H1 H2]. lia.
  - apply andb_true_iff. split; lia.
Qed.

(** ** Decimal text *)

Lemma read_digits_stop (rest : jsstring) :
  head_is (fun c => negb (is_digit c)) rest -> read_digits rest = (Decimal.Nil, rest).
Proof.
  destruct rest as [|c r]; simpl; [done|].
  intros H. apply negb_true_iff in H. by rewrite H.
Qed.

Lemma read_digits_app (d : Decimal.uint) (rest : jsstring) :
  head_is (fun c => negb (is_digit c)) rest ->
  read_digits (digits_of_uint d ++ rest) = (d, rest).
Proof.
  intros H. induction d; simpl; try (rewrite IHd; reflexivity).
  by apply read_digits_stop.
Qed.

Lemma digits_of_uint_head (d : Decimal.uint) :
  head_is is_digit (digits_of_uint d).
Proof. destruct d; reflexivity. Qed.

Lemma digits_of_uint_nonempty (d : Decimal.uint) :
  d <> Decimal.Nil -> digits_of_uint d <> [].
Proof. destruct d; simpl; congruence. Qed.

Lemma nzhead_no_zero (d : Decimal.uint) :
  match Decimal.nzhead d with
  | Decimal.D0 _ => False
  | _ => True
  end.
Proof. induction d; simpl; auto. Qed.

Lemma canonical_unorm (d : Decimal.uint) : canonical_int (Decimal.unorm d) = true.
Proof.
  unfold Decimal.unorm. pose proof (nzhead_no_zero d) as H.
  destruct (Decimal.nzhead d); simpl; auto.
Qed.

Lemma to_uint_unorm (n : N) : N.to_uint n = Decimal.unorm (N.to_uint n).
Proof.
  rewrite <- DecimalN.Unsigned.to_of. by rewrite DecimalN.Unsigned.of_to.
Qed.

Lemma canonical_to_uint (n : N) : canonical_int (N.to_uint n) = true.
Proof. rewrite to_uint_unorm. apply canonical_unorm. Qed.

Lemma to_uint_not_nil (n : N) : N.to_uint n <> Decimal.Nil.
Proof.
  pose proof (canonical_to_uint n) as H. destruct (N.to_uint n); simpl in H; congruence.
Qed.

Lemma array_index_text (k : jsstring) (i : N) :
  array_index k = Some i -> k = digits_of_uint (N.to_uint i).
Proof.
  unfold array_index. intros H.
  destruct (str_eqb _ k) eqn:E; simpl in H; [|done].
  destruct (_ <? _)%N; [|done]. injection H as <-.
  symmetry. by apply str_eqb_eq.
Qed.

Lemma array_index_inj (k k' : jsstring) (i : N) :
  array_index k = Some i -> array_index k' = Some i -> k = k'.
Proof.
  intros H H'. apply array_index_text in H, H'. congruence.
Qed.

(** ** Numbers *)

Lemma nonintegral_eqb_eq (a b : nonintegral) : nonintegral_eqb a b = true <-> a = b.
Proof.
  destruct a as [m e|s], b as [m' e'|s']; simpl; try (split; discriminate).
  - rewrite andb_true_iff, Z.eqb_eq, Pos.eqb_eq. split; [intros [-> ->]; done|].
    by intros [= -> ->].
  - rewrite Bool.eqb_true_iff. split; [by intros ->|by intros [= ->]].
Qed.

Lemma number_eqb_eq (a b : number) : number_eqb a b = true <-> a = b.
Proof.
  destruct a as [n|x], b as [n'|x']; simpl; try (split; discriminate).
  - rewrite Z.eqb_eq. split; [by intros ->|by intros [= ->]].
  - rewrite nonintegral_eqb_eq. split; [by intros ->|by intros [= ->]].
Qed.

(** [binary64] reads the rational, not the fraction that denotes it. *)
Lemma binary64_Qeq (q q' : Q) : (q == q')%Q -> binary64 q = binary64 q'.
Proof. intros H. unfold binary64. by rewrite (Qred_complete _ _ H). Qed.

Lemma signed_mul (negative : bool) (v k : Z) :
  signed negative (v * k) = signed negative v * k.
Proof. destruct negative; simpl; lia. Qed.

Lemma signed_abs (m : Z) : signed (m <? 0) (Z.abs m) = m.
Proof. unfold signed. destruct (Z.ltb_spec m 0); lia. Qed.

Lemma decimal_scale (s x k : Z) :
  0 <= k -> (decimal (s * 10 ^ k) (x - k) == decimal s x)%Q.
Proof.
  intros Hk. unfold decimal.
  rewrite inject_Z_mult, Zpower_Qpower by done.
  change (inject_Z 10) with 10%Q.
  rewrite <- Qmult_assoc, <- Qpower_plus by done.
  by replace (k + (x - k)) with x by lia.
Qed.

Lemma decimal_zero_exponent (s : Z) : (decimal s 0 == inject_Z s)%Q.
Proof. unfold decimal. simpl. apply Qmult_1_r. Qed.

(** The exact decimal expansion of a dyadic fraction. *)
Lemma decimal_exact (v : Z) (e : positive) :
  (decimal (v * 5 ^ Zpos e) (- Zpos e) == Qmake v (2 ^ e))%Q.
Proof.
  unfold decimal.
  assert (H10 : (10 ^ (- Zpos e) == / inject_Z (10 ^ Zpos e))%Q).
  { rewrite Qpower_opp, Zpower_Qpower by done. reflexivity. }
  rewrite H10.
  assert (Hpos : 0 < 10 ^ Zpos e) by (apply Z.pow_pos_nonneg; lia).
  destruct (10 ^ Zpos e) as [|t|t] eqn:Et; try lia.
  unfold Qeq, Qinv, Qmult, inject_Z. simpl Qnum. simpl Qden.
  rewrite Pos.mul_1_l, Z.mul_1_r.
  rewrite Pos2Z.inj_pow. change (Z.pos 2) with 2.
  rewrite <- Et.
  replace 10 with (5 * 2) at 1 by done. rewrite Z.pow_mul_l. ring.
Qed.

(** *** Digits *)

Lemma fold_digits (ds : jsstring) (acc : Z) :
  fold_left (fun acc c => 10 * acc + (c - 48)) ds acc
  = acc * 10 ^ Z.of_nat (length ds) + digits_value ds.
Proof.
  unfold digits_value. revert acc. induction ds as [|c r IH]; intros acc.
  - simpl. lia.
  - cbn [fold_left length]. rewrite IH, (IH (10 * 0 + (c - 48))).
    rewrite Nat2Z.inj_succ, Z.pow_succ_r by lia. ring.
Qed.

Lemma digits_value_app (a b : jsstring) :
  digits_value (a ++ b) = digits_value a * 10 ^ Z.of_nat (length b) + digits_value b.
Proof. unfold digits_value at 1. rewrite fold_left_app. apply fold_digits. Qed.

Lemma digits_value_cons (c : Z) (r : jsstring) :
  digits_value (c :: r) = (c - 48) * 10 ^ Z.of_nat (length r) + digits_value r.
Proof. apply (digits_value_app [c] r). Qed.

Lemma digits_value_zeros (j : nat) : digits_value (repeat 48 j) = 0.
Proof.
  induction j as [|j IH]; [done|].
  cbn [repeat]. rewrite digits_value_cons, IH. lia.
Qed.

Lemma of_uint_acc_value (d : Decimal.uint) (acc : positive) :
  Zpos (Pos.of_uint_acc d acc)
  = fold_left (fun acc c => 10 * acc + (c - 48)) (digits_of_uint d) (Zpos acc).
Proof.
  revert acc. induction d; intros acc; simpl; [done|..];
    rewrite IHd; f_equal; lia.
Qed.

Lemma of_uint_value (d : Decimal.uint) :
  Z.of_N (N.of_uint d) = digits_value (digits_of_uint d).
Proof.
  unfold digits_value.
  induction d; simpl; [done|done|..];
    unfold N.of_uint; simpl; rewrite of_uint_acc_value; f_equal.
Qed.

Lemma decimal_digits_value (n : Z) : 0 <= n -> digits_value (decimal_digits n) = n.
Proof.
  intros H. unfold decimal_digits.
  rewrite <- of_uint_value, DecimalN.Unsigned.of_to. lia.
Qed.

Lemma digits_of_uint_digits (d : Decimal.uint) :
  Forall (fun c => is_digit c = true) (digits_of_uint d).
Proof. induction d; simpl; by constructor. Qed.

Lemma decimal_digits_digits (n : Z) :
  Forall (fun c => is_digit c = true) (decimal_digits n).
Proof. apply digits_of_uint_digits. Qed.

Lemma decimal_digits_cons (n : Z) :
  exists c r, decimal_digits n = c :: r /\ is_digit c = true.
Proof.
  unfold decimal_digits.
  pose proof (digits_of_uint_head (N.to_uint (Z.to_N n))) as Hd.
  pose proof (digits_of_uint_nonempty _ (to_uint_not_nil (Z.to_N n))) as Hne.
  destruct (digits_of_uint _) as [|c r]; [done|]. by exists c, r.
Qed.

(** The first digit of a positive number is not [0]. *)
Lemma decimal_digits_head (n : Z) :
  0 < n -> exists c r, decimal_digits n = c :: r /\ is_digit c = true /\ c <> 48.
Proof.
  intros H. pose proof (decimal_digits_value n ltac:(lia)) as Hv.
  unfold decimal_digits in *.
  pose proof (canonical_to_uint (Z.to_N n)) as Hc.
  destruct (N.to_uint (Z.to_N n)) as [|d|d|d|d|d|d|d|d|d|d]; simpl in *;
    try done; try (by eexists _, _).
  destruct d; [|done..]. unfold digits_value in Hv. simpl in Hv. lia.
Qed.

Lemma span_digits_stop (rest : jsstring) :
  head_is (fun c => negb (is_digit c)) rest -> span_digits rest = ([], rest).
Proof.
  destruct rest as [|c r]; simpl; [done|].
  intros H. apply negb_true_iff in H. by rewrite H.
Qed.

Lemma span_digits_app (ds rest : jsstring) :
  Forall (fun c => is_digit c = true) ds ->
  head_is (fun c => negb (is_digit c)) rest ->
  span_digits (ds ++ rest) = (ds, rest).
Proof.
  intros Hds Hrest. induction Hds as [|c r Hc _ IH]; simpl.
  - by apply span_digits_stop.
  - by rewrite Hc, IH.
Qed.

Lemma canonical_digits_cons (c : Z) (r : jsstring) :
  c <> 48 -> canonical_digits (c :: r) = true.
Proof.
  intros H. simpl. destruct r; [done|]. apply negb_true_iff. by apply Z.eqb_neq.
Qed.

(** *** The digits of Number::toString read back *)

Lemma digits_at_sound (negative : bool) (target : number) (p d x s x' : Z) :
  digits_at negative target p d x = Some (s, x') ->
  0 < s /\ binary64 (decimal (signed negative s) x') = target.
Proof.
  unfold digits_at. destruct (if 0 <=? x then _ else _) as [num den].
  set (lo := num / den).
  assert (Hreads : forall t,
             (0 <? t) && number_eqb (binary64 (decimal (signed negative t) x)) target = true ->
             0 < t /\ binary64 (decimal (signed negative t) x) = target).
  { intros t [H1 H2]%andb_true_iff. apply number_eqb_eq in H2. apply Z.ltb_lt in H1.
    by split. }
  pose proof (Hreads lo) as Hlo. pose proof (Hreads (lo + 1)) as Hhi.
  destruct ((0 <? lo) && _); destruct ((0 <? lo + 1) && _);
    destruct (_ || _); simpl; intros [= <- <-]; auto.
Qed.

Lemma shortest_sound (fuel : nat) (negative : bool) (target : number) (p d n k s x : Z) :
  shortest fuel negative target p d n k = Some (s, x) ->
  0 < s /\ binary64 (decimal (signed negative s) x) = target.
Proof.
  revert k. induction fuel as [|fuel IH]; intros k; simpl; [done|].
  destruct (digits_at negative target p d (n - k)) as [[s' x']|] eqn:E.
  - intros [= <- <-]. by eapply digits_at_sound.
  - apply IH.
Qed.

Lemma strip_zeros_sound (negative : bool) (fuel : nat) (s x : Z) :
  0 < s ->
  0 < fst (strip_zeros fuel s x)
  /\ (decimal (signed negative (fst (strip_zeros fuel s x))) (snd (strip_zeros fuel s x))
      == decimal (signed negative s) x)%Q.
Proof.
  revert s x. induction fuel as [|fuel IH]; intros s x Hs; simpl; [by split|].
  destruct (Z.eqb_spec (s mod 10) 0) as [Hm|_]; simpl; [|by split].
  destruct (Z.ltb_spec 0 s) as [_|]; [|lia]. simpl.
  assert (Hdiv : s = s / 10 * 10 ^ 1) by (rewrite Z.pow_1_r; Z.div_mod_to_equations; lia).
  destruct (IH (s / 10) (x + 1)) as [H1 H2]; [Z.div_mod_to_equations; lia|].
  split; [done|]. rewrite H2.
  rewrite Hdiv at 2. rewrite signed_mul.
  replace x with (x + 1 - 1) at 2 by lia. symmetry. by apply decimal_scale.
Qed.

(** Whatever digits [shortest_decimal] settles on, they are read as
    the target, when the exact expansion is. *)
Lemma shortest_decimal_sound (negative : bool) (target : number) (p a : Z) :
  0 < p -> 0 <= a ->
  binary64 (decimal (signed negative (p * 5 ^ a)) (- a)) = target ->
  0 < fst (shortest_decimal negative target p a)
  /\ binary64 (decimal (signed negative (fst (shortest_decimal negative target p a)))
                 (snd (shortest_decimal negative target p a)))
     = target.
Proof.
  intros Hp Ha Hexact. unfold shortest_decimal.
  destruct (shortest 17 negative target p (2 ^ a) (decimal_exponent p (2 ^ a)) 1)
    as [[s x]|] eqn:E.
  - apply shortest_sound in E as [Hs Hb].
    destruct (strip_zeros_sound negative (length (decimal_digits s)) s x Hs) as [H1 H2].
    split; [done|]. by rewrite (binary64_Qeq _ _ H2).
  - assert (Hs : 0 < p * 5 ^ a) by (apply Z.mul_pos_pos; [done|apply Z.pow_pos_nonneg; lia]).
    destruct (strip_zeros_sound negative (length (decimal_digits (p * 5 ^ a)))
                (p * 5 ^ a) (- a) Hs) as [H1 H2].
    split; [done|]. by rewrite (binary64_Qeq _ _ H2).
Qed.

(** *** The parser on the text of a number *)

Lemma ends_number_not_digit (rest : jsstring) :
  head_is ends_number rest -> head_is (fun c => negb (is_digit c)) rest.
Proof.
  destruct rest as [|c r]; simpl; [done|].
  unfold ends_number. by intros [H _]%andb_true_iff.
Qed.

Lemma parse_fraction_none (rest : jsstring) :
  head_is ends_number rest -> parse_fraction rest = Some ([], rest).
Proof.
  destruct rest as [|c r]; simpl; [done|].
  unfold ends_number. intros [_ H]%andb_true_iff.
  apply negb_true_iff, orb_false_iff in H as [H _].
  apply orb_false_iff in H as [H _]. by rewrite H.
Qed.

Lemma parse_exponent_none (rest : jsstring) :
  head_is ends_number rest -> parse_exponent rest = Some (0, rest).
Proof.
  destruct rest as [|c r]; simpl; [done|].
  unfold ends_number. intros [_ H]%andb_true_iff.
  apply negb_true_iff, orb_false_iff in H as [H H3].
  apply orb_false_iff in H as [_ H2]. by rewrite H2, H3.
Qed.

Lemma parse_fraction_digits (ds rest : jsstring) :
  ds <> [] ->
  Forall (fun c => is_digit c = true) ds ->
  head_is (fun c => negb (is_digit c)) rest ->
  parse_fraction (46 :: ds ++ rest) = Some (ds, rest).
Proof.
  intros Hne Hds Hrest. simpl. rewrite (span_digits_app ds rest Hds Hrest).
  by destruct ds.
Qed.

Lemma parse_exponent_digits_text (negative : bool) (e : Z) (rest : jsstring) :
  0 <= e ->
  head_is (fun c => negb (is_digit c)) rest ->
  parse_exponent_digits negative (decimal_digits e ++ rest)
  = Some (signed negative e, rest).
Proof.
  intros He Hrest. unfold parse_exponent_digits.
  rewrite (span_digits_app _ rest (decimal_digits_digits e) Hrest).
  destruct (decimal_digits_cons e) as (c & r & E & _).
  rewrite E. rewrite <- E. by rewrite decimal_digits_value.
Qed.

Lemma parse_exponent_text (e : Z) (rest : jsstring) :
  head_is (fun c => negb (is_digit c)) rest ->
  parse_exponent
    (101 :: (if e <? 0 then 45 else 43) :: decimal_digits (Z.abs e) ++ rest)
  = Some (e, rest).
Proof.
  intros Hrest. cbn [parse_exponent]. simpl ((101 =? 101) || _).
  cbv iota.
  destruct (Z.ltb_spec e 0) as [He|He]; simpl.
  - rewrite parse_exponent_digits_text by (done || lia). f_equal. f_equal. simpl. lia.
  - rewrite parse_exponent_digits_text by (done || lia). f_equal. f_equal. simpl. lia.
Qed.

Lemma zeros_digits (j : nat) : Forall (fun c => is_digit c = true) (repeat 48 j).
Proof. induction j; simpl; by constructor. Qed.

Lemma parse_unsigned_parts (negative : bool) (text int s1 frac s2 rest : jsstring)
  (e : Z) :
  span_digits text = (int, s1) ->
  canonical_digits int = true ->
  parse_fraction s1 = Some (frac, s2) ->
  parse_exponent s2 = Some (e, rest) ->
  parse_unsigned negative text
  = Some (binary64 (decimal (signed negative (digits_value (int ++ frac)))
                      (e - Z.of_nat (length frac))), rest).
Proof. intros H1 H2 H3 H4. unfold parse_unsigned. by rewrite H1, H2, H3, H4. Qed.

Lemma decimal_result (v e e' : Z) (rest : jsstring) :
  e = e' ->
  Some (binary64 (decimal v e), rest) = Some (binary64 (decimal v e'), rest).
Proof. by intros ->. Qed.

Lemma exponent_layout (c : Z) (r exponent : jsstring) :
  match c :: r with
  | [] => []
  | [c0] => c0 :: exponent
  | c0 :: r0 => c0 :: 46 :: r0 ++ exponent
  end
  = if bool_decide (r = []) then c :: exponent else c :: 46 :: r ++ exponent.
Proof. by destruct r. Qed.

Section Layouts.

Variable negative : bool.
Variables (c : Z) (r rest : jsstring).
Hypothesis Hc : is_digit c = true.
Hypothesis Hc0 : c <> 48.
Hypothesis Hr : Forall (fun c => is_digit c = true) r.
Hypothesis Hrest : head_is ends_number rest.

Let ds := c :: r.
Let k := Z.of_nat (length ds).

Lemma layout_digits : Forall (fun c => is_digit c = true) ds.
Proof. by constructor. Qed.

(** The digits, then zeros. *)
Lemma parse_unsigned_zeros (x : Z) :
  0 <= x ->
  parse_unsigned negative ((ds ++ repeat 48 (Z.to_nat x)) ++ rest)
  = Some (binary64 (decimal (signed negative (digits_value ds)) x), rest).
Proof.
  intros Hx.
  rewrite (parse_unsigned_parts negative _ (ds ++ repeat 48 (Z.to_nat x)) rest [] rest
             rest 0).
  - f_equal. f_equal. rewrite app_nil_r.
    rewrite digits_value_app, digits_value_zeros, repeat_length.
    rewrite Z2Nat.id, Z.add_0_r by lia. simpl length.
    rewrite signed_mul. replace (0 - Z.of_nat 0) with (x - x) by lia.
    apply binary64_Qeq, decimal_scale. lia.
  - apply span_digits_app; [|by apply ends_number_not_digit].
    apply Forall_app. split; [apply layout_digits|apply zeros_digits].
  - subst ds. rewrite <- app_comm_cons. by apply canonical_digits_cons.
  - by apply parse_fraction_none.
  - by apply parse_exponent_none.
Qed.

(** A point inside the digits. *)
Lemma parse_unsigned_point (n : nat) :
  (0 < n < length ds)%nat ->
  parse_unsigned negative ((take n ds ++ 46 :: drop n ds) ++ rest)
  = Some (binary64 (decimal (signed negative (digits_value ds)) (Z.of_nat n - k)), rest).
Proof.
  intros Hn.
  rewrite (parse_unsigned_parts negative _ (take n ds) (46 :: drop n ds ++ rest)
             (drop n ds) rest rest 0).
  - rewrite take_drop, length_drop. apply decimal_result.
    subst k ds. simpl length in *. lia.
  - rewrite <- app_assoc. apply span_digits_app; [|done].
    apply Forall_take, layout_digits.
  - destruct n as [|n]; [lia|]. subst ds. simpl. by apply canonical_digits_cons.
  - apply parse_fraction_digits.
    + intros H. apply (f_equal length) in H. rewrite length_drop in H.
      subst ds. simpl length in *. lia.
    + apply Forall_drop, layout_digits.
    + by apply ends_number_not_digit.
  - by apply parse_exponent_none.
Qed.

(** Zeros between the point and the digits. *)
Lemma parse_unsigned_small (j : nat) :
  parse_unsigned negative ((48 :: 46 :: repeat 48 j ++ ds) ++ rest)
  = Some (binary64 (decimal (signed negative (digits_value ds)) (- (Z.of_nat j + k))),
          rest).
Proof.
  rewrite (parse_unsigned_parts negative _ [48] (46 :: (repeat 48 j ++ ds) ++ rest)
             (repeat 48 j ++ ds) rest rest 0).
  - rewrite (digits_value_app [48]), (digits_value_app (repeat 48 j)), digits_value_zeros.
    rewrite length_app, repeat_length. change (digits_value [48]) with 0.
    rewrite !Z.mul_0_l, !Z.add_0_l.
    apply decimal_result. subst k. lia.
  - simpl. by rewrite <- app_assoc.
  - done.
  - apply parse_fraction_digits.
    + intros H. apply (f_equal length) in H. rewrite length_app in H.
      subst ds. simpl length in *. lia.
    + apply Forall_app. split; [apply zeros_digits|apply layout_digits].
    + by apply ends_number_not_digit.
  - by apply parse_exponent_none.
Qed.

(** One digit and an exponent. *)
Lemma parse_unsigned_exponent_one (e : Z) :
  r = [] ->
  parse_unsigned negative ((c :: exponent_text e) ++ rest)
  = Some (binary64 (decimal (signed negative (digits_value ds)) e), rest).
Proof.
  intros Hnil.
  rewrite (parse_unsigned_parts negative _ [c] (exponent_text e ++ rest) [] (exponent_text e ++ rest)
             rest e).
  - subst ds. rewrite Hnil. simpl length. by rewrite Z.sub_0_r.
  - simpl. by rewrite Hc.
  - done.
  - done.
  - unfold exponent_text. rewrite <- !app_comm_cons.
    apply parse_exponent_text. by apply ends_number_not_digit.
Qed.

(** A point after the first digit, and an exponent. *)
Lemma parse_unsigned_exponent (e : Z) :
  r <> [] ->
  parse_unsigned negative ((c :: 46 :: r ++ exponent_text e) ++ rest)
  = Some (binary64 (decimal (signed negative (digits_value ds)) (e - (k - 1))), rest).
Proof.
  intros Hne.
  rewrite (parse_unsigned_parts negative _ [c] (46 :: r ++ exponent_text e ++ rest) r
             (exponent_text e ++ rest) rest e).
  - apply decimal_result. subst k ds. simpl length. lia.
  - simpl. rewrite Hc. by rewrite <- app_assoc.
  - done.
  - by apply parse_fraction_digits.
  - unfold exponent_text. rewrite <- !app_comm_cons.
    apply parse_exponent_text. by apply ends_number_not_digit.
Qed.

(** The four layouts of [format_number] read as the decimal they
    show. *)
Lemma parse_unsigned_layout (x : Z) :
  parse_unsigned negative (format_number ds (k + x) ++ rest)
  = Some (binary64 (decimal (signed negative (digits_value ds)) x), rest).
Proof.
  assert (Hk : 0 < k) by (subst k ds; simpl length; lia).
  unfold format_number. fold k.
  destruct ((k <=? k + x) && (k + x <=? 21)) eqn:C1.
  { apply andb_true_iff in C1 as [H1%Z.leb_le H2%Z.leb_le].
    replace (k + x - k) with x by lia. apply parse_unsigned_zeros. lia. }
  apply andb_false_iff in C1. rewrite !Z.leb_gt in C1.
  destruct ((0 <? k + x) && (k + x <=? 21)) eqn:C2.
  { apply andb_true_iff in C2 as [H1%Z.ltb_lt H2%Z.leb_le].
    rewrite parse_unsigned_point by (subst k; lia).
    apply decimal_result. lia. }
  destruct ((-6 <? k + x) && (k + x <=? 0)) eqn:C3.
  { apply andb_true_iff in C3 as [H1%Z.ltb_lt H2%Z.leb_le].
    rewrite parse_unsigned_small. apply decimal_result. lia. }
  unfold ds. cbv iota. rewrite exponent_layout.
  destruct (bool_decide_reflect (r = [])) as [Er|Er].
  - rewrite (parse_unsigned_exponent_one (k + x - 1) Er).
    apply decimal_result. assert (k = 1) by (unfold k, ds; by rewrite Er). lia.
  - rewrite (parse_unsigned_exponent (k + x - 1) Er).
    apply decimal_result. lia.
Qed.

End Layouts.

Lemma parse_unsigned_format (negative : bool) (s x : Z) (rest : jsstring) :
  0 < s ->
  head_is ends_number rest ->
  parse_unsigned negative
    (format_number (decimal_digits s) (Z.of_nat (length (decimal_digits s)) + x) ++ rest)
  = Some (binary64 (decimal (signed negative s) x), rest).
Proof.
  intros Hs Hrest.
  destruct (decimal_digits_head s Hs) as (c & r & E & Hc & Hc0).
  pose proof (decimal_digits_digits s) as Hds.
  pose proof (decimal_digits_value s ltac:(lia)) as Hv.
  rewrite E in *. apply Forall_cons_1 in Hds as [_ Hr].
  rewrite (parse_unsigned_layout negative c r rest Hc Hc0 Hr Hrest x). by rewrite Hv.
Qed.

Lemma format_number_head (c : Z) (r : jsstring) (n : Z) :
  is_digit c = true ->
  exists c' r', format_number (c :: r) n = c' :: r' /\ is_digit c' = true.
Proof.
  intros Hc. unfold format_number.
  destruct ((Z.of_nat (length (c :: r)) <=? n) && _);
    [eexists _, _; split; [reflexivity|done]|].
  destruct ((0 <? n) && _) eqn:C2.
  { apply andb_true_iff in C2 as [H1%Z.ltb_lt _].
    destruct (Z.to_nat n) as [|j] eqn:E; [lia|]. simpl.
    eexists _, _. split; [reflexivity|done]. }
  destruct ((-6 <? n) && _); [exists 48; eexists; split; [reflexivity|done]|].
  destruct r; eexists _, _; split; try reflexivity; done.
Qed.

Lemma magnitude_text_head (negative : bool) (target : number) (p a : Z) :
  exists c r, magnitude_text negative target p a = c :: r /\ is_digit c = true.
Proof.
  unfold magnitude_text. destruct (shortest_decimal negative target p a) as [s x].
  destruct (decimal_digits_cons s) as (c & r & -> & Hc).
  by apply format_number_head.
Qed.

Lemma is_digit_not_minus (c : Z) : is_digit c = true -> (c =? 45) = false.
Proof. unfold is_digit. intros [H1%Z.leb_le H2%Z.leb_le]%andb_true_iff. lia. Qed.

Lemma parse_unsigned_magnitude (negative : bool) (target : number) (p a : Z)
  (rest : jsstring) :
  0 < p -> 0 <= a ->
  binary64 (decimal (signed negative (p * 5 ^ a)) (- a)) = target ->
  head_is ends_number rest ->
  parse_unsigned negative (magnitude_text negative target p a ++ rest)
  = Some (target, rest).
Proof.
  intros Hp Ha Hexact Hrest.
  destruct (shortest_decimal_sound negative target p a Hp Ha Hexact) as [Hs Hb].
  unfold magnitude_text. destruct (shortest_decimal negative target p a) as [s x].
  simpl in Hs, Hb. rewrite parse_unsigned_format by done. by rewrite Hb.
Qed.

(** The sign and the magnitude. *)
Lemma parse_signed_text (target : number) (m a : Z) (rest : jsstring) :
  m <> 0 -> 0 <= a ->
  binary64 (decimal (m * 5 ^ a) (- a)) = target ->
  head_is ends_number rest ->
  parse_signed (signed_text target m a ++ rest) = Some (target, rest).
Proof.
  intros Hm Ha Hexact Hrest. unfold parse_signed, signed_text.
  destruct (Z.ltb_spec m 0) as [Hneg|Hpos].
  - simpl. apply parse_unsigned_magnitude; [lia|done| |done].
    rewrite <- Hexact. do 2 f_equal. simpl. lia.
  - destruct (magnitude_text_head false target m a) as (c & r & E & Hc).
    rewrite E. simpl. rewrite (is_digit_not_minus c Hc).
    change (c :: r ++ rest) with ((c :: r) ++ rest). rewrite <- E.
    apply parse_unsigned_magnitude; [lia|done|done|done].
Qed.

(** [JSON.parse] reads the text of a finite Number as that Number. *)
Lemma parse_number_text (x : number) (rest : jsstring) :
  is_Number x = true ->
  (forall negative, x <> NonIntegral (Infinity negative)) ->
  head_is ends_number rest ->
  parse_number (number_text x ++ rest) = Some (json_of_number x, rest).
Proof.
  intros Hx Hfin Hrest. unfold parse_number.
  destruct x as [n|[m e|negative]]; [| |by destruct (Hfin negative)].
  - simpl in Hx. apply number_eqb_eq in Hx. unfold number_text.
    destruct (Z.eqb_spec n 0) as [->|Hn].
    + unfold parse_signed. simpl.
      rewrite (parse_unsigned_parts false _ [48] rest [] rest rest 0).
      * done.
      * simpl. rewrite span_digits_stop; [done|by apply ends_number_not_digit].
      * done.
      * by apply parse_fraction_none.
      * by apply parse_exponent_none.
    + rewrite (parse_signed_text (Integer n) n 0 rest); [done|done|done| |done].
      rewrite <- Hx. apply binary64_Qeq.
      rewrite Z.pow_0_r, Z.mul_1_r. apply decimal_zero_exponent.
  - simpl in Hx. apply number_eqb_eq in Hx. unfold number_text.
    assert (Hm : m <> 0).
    { intros ->. by vm_compute in Hx. }
    rewrite (parse_signed_text (NonIntegral (Dyadic m e)) m (Zpos e) rest);
      [done|done|done| |done].
    rewrite <- Hx. apply binary64_Qeq, decimal_exact.
Qed.

(** *** The text of a number *)

Lemma number_text_head (x : number) :
  (forall negative, x <> NonIntegral (Infinity negative)) ->
  exists c r, number_text x = c :: r /\ (c = 45 \/ is_digit c = true).
Proof.
  assert (Hs : forall target m a,
             exists c r, signed_text target m a = c :: r /\ (c = 45 \/ is_digit c = true)).
  { intros target m a. unfold signed_text. destruct (m <? 0); [by eauto|].
    destruct (magnitude_text_head false target m a) as (c & r & E & Hc). by eauto. }
  intros Hfin. destruct x as [n|[m e|negative]]; [| |by destruct (Hfin negative)]; simpl.
  - destruct (n =? 0); [by eauto|apply Hs].
  - apply Hs.
Qed.

Lemma SerializeNumber_head (x : number) :
  exists c r, SerializeNumber x = c :: r /\ (c = 45 \/ is_digit c = true \/ c = 110).
Proof.
  destruct x as [n|[m e|negative]].
  - destruct (number_text_head (Integer n)) as (c & r & E & H); [done|].
    exists c, r. split; [done|tauto].
  - destruct (number_text_head (NonIntegral (Dyadic m e))) as (c & r & E & H); [done|].
    exists c, r. split; [done|tauto].
  - exists 110, (js "ull"). split; [done|tauto].
Qed.

(** A serializable number is written as itself. *)
Lemma Number_of_integer_serializable (n : Z) :
  is_Number (Integer n) = true -> Number_of_integer n = Integer n.
Proof. simpl. apply number_eqb_eq. Qed.

Lemma Number_of_nonintegral_serializable (m : Z) (e : positive) :
  is_Number (NonIntegral (Dyadic m e)) = true ->
  Number_of_nonintegral (Dyadic m e) = NonIntegral (Dyadic m e).
Proof. simpl. apply number_eqb_eq. Qed.

(** *** Integers that are Numbers *)

Lemma lowest_terms_shift (q k : positive) : lowest_terms (Pos.iter xO q k) k = (q, 0).
Proof.
  induction k as [|k IH] using Pos.peano_ind; [done|].
  rewrite Pos.iter_succ. cbn [lowest_terms].
  destruct (Pos.succ k) eqn:E.
  - by rewrite <- E, Pos.pred_succ.
  - by rewrite <- E, Pos.pred_succ.
  - by apply Pos.succ_not_1 in E.
Qed.

Lemma iter_xO_pow (q k : positive) : Zpos (Pos.iter xO q k) = Zpos q * 2 ^ Zpos k.
Proof.
  induction k as [|k IH] using Pos.peano_ind; [simpl; lia|].
  rewrite Pos.iter_succ, Pos2Z.inj_succ, Z.pow_succ_r by lia.
  rewrite Pos2Z.inj_xO, IH. ring.
Qed.

Lemma round_half_even_exact (n : Z) : round_half_even n 1 = n.
Proof. unfold round_half_even. by rewrite Z.mod_1_r, Z.div_1_r. Qed.

(** An integer of magnitude up to [2^53] is a Number: [binary64]
    leaves it as it is. *)
Lemma binary64_integer (z : Z) :
  Z.abs z <= 2 ^ 53 -> binary64 (inject_Z z) = Integer z.
Proof.
  intros Hz.
  destruct (Z.eq_dec (Z.abs z) (2 ^ 53)) as [E|Hne].
  { assert (Hc : z = 2 ^ 53 \/ z = - 2 ^ 53) by lia.
    destruct Hc as [-> | ->]; by vm_compute. }
  destruct (Z.eq_dec z 0) as [->|Hz0]; [done|].
  unfold binary64. rewrite Qcanon.Qred_identity by (simpl; apply Z.gcd_1_r).
  cbn [Qnum Qden inject_Z].
  set (p := Z.abs z). assert (Hp : 0 < p < 2 ^ 53) by lia.
  destruct (Z.eqb_spec p 0) as [|_]; [lia|].
  change (Z.log2 1) with 0. rewrite Z.sub_0_r.
  pose proof (Z.log2_nonneg p) as HL0.
  pose proof (Z.log2_spec p ltac:(lia)) as [HL1 HL2].
  assert (HL : Z.log2 p < 53) by (apply Z.log2_lt_pow2; lia).
  set (L := Z.log2 p) in *.
  destruct (Z.leb_spec 0 L) as [_|]; [|lia].
  rewrite Z.mul_1_l. destruct (Z.ltb_spec p (2 ^ L)) as [|_]; [lia|].
  rewrite Z.max_l by lia.
  destruct (Z.leb_spec 0 (L - 52)) as [Hu|Hu].
  - assert (HL52 : L = 52) by lia. rewrite HL52. change (52 - 52) with 0.
    change (1 * 2 ^ 0) with 1. rewrite round_half_even_exact.
    destruct (Z.leb_spec (2 ^ (1024 - 0)) p) as [H|_].
    { assert (2 ^ 53 < 2 ^ (1024 - 0)) by (by vm_compute). lia. }
    unfold dyadic. simpl (0 <=? 0). cbv iota. rewrite Z.pow_0_r, Z.mul_1_r.
    subst p. by rewrite signed_abs.
  - rewrite round_half_even_exact.
    set (k := - (L - 52)). assert (Hk : 0 < k <= 52) by lia.
    destruct (Z.leb_spec (2 ^ (1024 - (L - 52))) (p * 2 ^ k)) as [H|_].
    { exfalso. assert (H0 : p * 2 ^ k < 2 ^ 53 * 2 ^ k).
      { apply Z.mul_lt_mono_pos_r; [apply Z.pow_pos_nonneg; lia|lia]. }
      rewrite <- Z.pow_add_r in H0 by lia.
      assert (2 ^ (53 + k) <= 2 ^ (1024 - (L - 52))) by (apply Z.pow_le_mono_r; lia).
      lia. }
    unfold dyadic. destruct (Z.leb_spec 0 (L - 52)) as [|_]; [lia|].
    destruct p as [|pp|pp] eqn:Ep; [lia| |lia].
    destruct k as [|kk|kk] eqn:Ek; [lia| |lia].
    rewrite <- iter_xO_pow. fold k. rewrite Ek. simpl Z.to_pos.
    rewrite lowest_terms_shift. rewrite <- Ep. subst p. by rewrite signed_abs.
Qed.

(** The safe integers are serializable. *)
Lemma is_Number_integer (z : Z) : Z.abs z <= 2 ^ 53 -> is_Number (Integer z) = true.
Proof. intros H. simpl. apply number_eqb_eq. by apply binary64_integer. Qed.
(** ** String literals *)

Lemma list_ind2 {A : Type} (P : list A -> Prop) :
  P [] -> (forall a, P [a]) ->
  (forall a b l, P l -> P (b :: l) -> P (a :: b :: l)) ->
  forall l, P l.
Proof.
  intros Hnil Hone Hstep l.
  assert (H : P l /\ forall a, P (a :: l)); [|tauto].
  induction l as [|b l [IH1 IH2]]; split; auto.
Qed.

Lemma hex_value_digit (n : Z) : 0 <= n < 16 -> hex_value (hex_digit n) = Some n.
Proof.
  intros H. unfold hex_value, hex_digit.
  destruct (Z.ltb_spec n 10); ztest; f_equal; lia.
Qed.

Lemma hex4_escape (c : Z) :
  code_unit c ->
  hex4 (hex_digit (c / 4096)) (hex_digit (c / 256 mod 16))
    (hex_digit (c / 16 mod 16)) (hex_digit (c mod 16)) = Some c.
Proof.
  unfold code_unit. intros H. unfold hex4.
  rewrite !hex_value_digit by (Z.div_mod_to_equations; lia).
  f_equal. Z.div_mod_to_equations. lia.
Qed.

Lemma parse_UnicodeEscape (c : Z) (tail str rest : jsstring) :
  code_unit c ->
  parse_string_chars tail = Some (str, rest) ->
  parse_string_chars (UnicodeEscape c ++ tail) = Some (c :: str, rest).
Proof.
  intros Hc Ht. unfold UnicodeEscape.
  change (parse_string_chars ([92; 117; hex_digit (c / 4096); hex_digit (c / 256 mod 16);
                                hex_digit (c / 16 mod 16); hex_digit (c mod 16)] ++ tail))
    with (match hex4 (hex_digit (c / 4096)) (hex_digit (c / 256 mod 16))
                  (hex_digit (c / 16 mod 16)) (hex_digit (c mod 16)) with
          | Some u =>
              match parse_string_chars tail with
              | Some (str, rest) => Some (u :: str, rest)
              | None => None
              end
          | None => None
          end).
  by rewrite hex4_escape, Ht.
Qed.

Lemma parse_plain_unit (c : Z) (tail str rest : jsstring) :
  32 <= c -> c <> 34 -> c <> 92 ->
  parse_string_chars tail = Some (str, rest) ->
  parse_string_chars (c :: tail) = Some (c :: str, rest).
Proof.
  intros H1 H2 H3 Ht. simpl.
  destruct (Z.eqb_spec c 34); [done|].
  destruct (Z.eqb_spec c 92); [done|].
  destruct (Z.ltb_spec c 32); [lia|].
  by rewrite Ht.
Qed.

Lemma parse_quote_unit (c : Z) (tail str rest : jsstring) :
  code_unit c ->
  parse_string_chars tail = Some (str, rest) ->
  parse_string_chars (quote_unit c ++ tail) = Some (c :: str, rest).
Proof.
  intros Hc Ht. unfold quote_unit.
  destruct (Z.eqb_spec c 8) as [->|]; [simpl; by rewrite Ht|].
  destruct (Z.eqb_spec c 9) as [->|]; [simpl; by rewrite Ht|].
  destruct (Z.eqb_spec c 10) as [->|]; [simpl; by rewrite Ht|].
  destruct (Z.eqb_spec c 12) as [->|]; [simpl; by rewrite Ht|].
  destruct (Z.eqb_spec c 13) as [->|]; [simpl; by rewrite Ht|].
  destruct (Z.eqb_spec c 34) as [->|]; [simpl; by rewrite Ht|].
  destruct (Z.eqb_spec c 92) as [->|]; [simpl; by rewrite Ht|].
  destruct (_ || _) eqn:E.
  - by apply parse_UnicodeEscape.
  - apply orb_false_iff in E as [E _]. apply orb_false_iff in E as [E _].
    apply Z.ltb_ge in E. by apply parse_plain_unit.
Qed.

Lemma parse_quote_units (s : jsstring) :
  wf_string s ->
  forall rest, parse_string_chars (quote_units s ++ 34 :: rest) = Some (s, rest).
Proof.
  induction s as [|a|a b l IH1 IH2] using list_ind2; intros Hs rest.
  - reflexivity.
  - apply Forall_cons_1 in Hs as [Ha _]. simpl.
    destruct (is_high_surrogate a); rewrite ?app_nil_r; by apply parse_quote_unit.
  - pose proof Hs as Hs'.
    apply Forall_cons_1 in Hs as [Ha Hs]. apply Forall_cons_1 in Hs as [Hb Hl].
    change (quote_units (a :: b :: l))
      with (if is_high_surrogate a
            then if is_low_surrogate b then a :: b :: quote_units l
                 else quote_unit a ++ quote_units (b :: l)
            else quote_unit a ++ quote_units (b :: l)).
    assert (Hrec : parse_string_chars ((quote_unit a ++ quote_units (b :: l)) ++ 34 :: rest)
                   = Some (a :: b :: l, rest)).
    { rewrite <- app_assoc. apply parse_quote_unit; [done|]. apply IH2.
      by apply Forall_cons_1 in Hs' as [_ ?]. }
    destruct (is_high_surrogate a) eqn:Ea; [|done].
    destruct (is_low_surrogate b) eqn:Eb; [|done].
    unfold is_high_surrogate in Ea. unfold is_low_surrogate in Eb.
    apply andb_true_iff in Ea as [Ea1 Ea2]. apply andb_true_iff in Eb as [Eb1 Eb2].
    apply Z.leb_le in Ea1, Ea2, Eb1, Eb2.
    change ((a :: b :: quote_units l) ++ 34 :: rest)
      with (a :: b :: (quote_units l ++ 34 :: rest)).
    apply parse_plain_unit; [lia..|]. apply parse_plain_unit; [lia..|]. by apply IH1.
Qed.

Lemma parse_QuoteJSONString (s rest : jsstring) :
  wf_string s ->
  exists body, QuoteJSONString s ++ rest = 34 :: body
               /\ parse_string_chars body = Some (s, rest).
Proof.
  intros Hs. exists (quote_units s ++ 34 :: rest). split.
  - unfold QuoteJSONString. simpl. by rewrite <- app_assoc.
  - by apply parse_quote_units.
Qed.
(** ** Own properties *)

Section OwnPropertyFacts.
Context {A : Type}.
Implicit Types (l : list (jsstring * A)) (k : jsstring).

Lemma own_get_named_in k l :
  own_get k l = None <-> named_in (map fst l) k = false.
Proof.
  induction l as [|[k' v] r IH]; simpl; [done|].
  destruct (str_eqb k k'); simpl; [split; discriminate|done].
Qed.

Lemma has_own_named_in k l : has_own k l = named_in (map fst l) k.
Proof.
  unfold has_own. pose proof (own_get_named_in k l) as H.
  destruct (own_get k l), (named_in (map fst l) k); try done.
  - by destruct H as [_ H]; specialize (H eq_refl).
  - by destruct H as [H _]; specialize (H eq_refl).
Qed.
End OwnPropertyFacts.

Lemma named_in_app (a b : list jsstring) (k : jsstring) :
  named_in (a ++ b) k = named_in a k || named_in b k.
Proof. unfold named_in. apply existsb_app. Qed.

Lemma named_in_spec (names : list jsstring) (k : jsstring) :
  named_in names k = true <-> In k names.
Proof.
  unfold named_in. rewrite existsb_exists. split.
  - intros (x & Hx & E). apply str_eqb_eq in E. by subst.
  - intros H. exists k. split; [done|apply str_eqb_refl].
Qed.

Lemma distinct_NoDup (ks : list jsstring) : distinct ks = true <-> List.NoDup ks.
Proof.
  induction ks as [|k r IH]; simpl.
  - split; [constructor|done].
  - rewrite andb_true_iff, negb_true_iff, IH. split.
    + intros [H1 H2]. constructor; [|done].
      intros Hin. apply named_in_spec in Hin. congruence.
    + intros H. inversion H as [|? ? Hn Hr]; subst. split; [|done].
      destruct (named_in r k) eqn:E; [|done]. by apply named_in_spec in E.
Qed.

Lemma distinct_app_l (a b : list jsstring) : distinct (a ++ b) = true -> distinct a = true.
Proof.
  induction a as [|k r IH]; simpl; [done|].
  rewrite !andb_true_iff, !negb_true_iff, named_in_app, orb_false_iff.
  intros [[H _] H']. auto.
Qed.

Lemma distinct_snoc (ks : list jsstring) (k : jsstring) :
  distinct (ks ++ [k]) = true -> named_in ks k = false.
Proof.
  induction ks as [|k0 r IH]; simpl; [done|].
  rewrite !andb_true_iff, !negb_true_iff, named_in_app, orb_false_iff.
  intros [[_ H] H']. rewrite (IH H'), orb_false_r.
  simpl in H. rewrite orb_false_r in H.
  apply str_eqb_neq in H. apply str_eqb_neq. congruence.
Qed.

Lemma indices_then_names_app_l (a b : list jsstring) (lo : N) :
  indices_then_names lo (a ++ b) = true -> indices_then_names lo a = true.
Proof.
  revert lo. induction a as [|k r IH]; intros lo; simpl; [done|].
  destruct (array_index k).
  - rewrite !andb_true_iff. intros [? H]. eauto.
  - rewrite forallb_app, andb_true_iff. tauto.
Qed.

Lemma indices_then_names_last (ks : list jsstring) (k : jsstring) (lo i : N) :
  indices_then_names lo (ks ++ [k]) = true -> array_index k = Some i -> (lo <= i)%N.
Proof.
  revert lo. induction ks as [|k0 r IH]; intros lo; simpl.
  - intros H E. rewrite E in H. apply andb_true_iff in H as [H _]. by apply N.leb_le in H.
  - destruct (array_index k0) as [j|].
    + rewrite andb_true_iff. intros [H1 H2] E. apply N.leb_le in H1.
      specialize (IH _ H2 E). lia.
    + rewrite forallb_app, andb_true_iff. simpl. unfold is_index.
      intros [_ H] E. by rewrite E in H.
Qed.

Lemma own_insert_index_last {A : Type} (l : list (jsstring * A)) (k : jsstring) (v : A)
  (lo i : N) :
  indices_then_names lo (map fst l ++ [k]) = true -> array_index k = Some i ->
  own_insert_index i k v l = l ++ [(k, v)].
Proof.
  revert lo. induction l as [|[k0 v0] r IH]; intros lo; simpl; [done|].
  destruct (array_index k0) as [j|] eqn:E0.
  - rewrite andb_true_iff. intros [H1 H2] E.
    pose proof (indices_then_names_last _ _ _ _ H2 E) as Hle.
    destruct (N.ltb_spec i j); [lia|]. f_equal. eauto.
  - rewrite forallb_app, andb_true_iff. simpl. unfold is_index.
    intros [_ H] E. by rewrite E in H.
Qed.

Lemma CreateDataProperty_last {A : Type} (l : list (jsstring * A)) (k : jsstring) (v : A) :
  own_keys_ok (map fst (l ++ [(k, v)])) = true ->
  CreateDataProperty k v l = l ++ [(k, v)].
Proof.
  unfold own_keys_ok. rewrite map_app. simpl.
  rewrite andb_true_iff. intros [Hd Hi].
  unfold CreateDataProperty.
  rewrite has_own_named_in, (distinct_snoc _ _ Hd).
  destruct (array_index k) as [i|] eqn:E; [|done].
  by apply (own_insert_index_last l k v 0%N i).
Qed.

Lemma own_keys_ok_app_l (a b : list jsstring) :
  own_keys_ok (a ++ b) = true -> own_keys_ok a = true.
Proof.
  unfold own_keys_ok. rewrite !andb_true_iff. intros [H1 H2].
  split; [by eapply distinct_app_l|by eapply indices_then_names_app_l].
Qed.

Lemma fold_CreateDataProperty (l acc : list (jsstring * json)) :
  own_keys_ok (map fst (acc ++ l)) = true ->
  fold_left (fun acc p => CreateDataProperty (fst p) (snd p) acc) l acc = acc ++ l.
Proof.
  revert acc. induction l as [|[k v] r IH]; intros acc H; simpl.
  - by rewrite app_nil_r.
  - rewrite CreateDataProperty_last.
    + rewrite IH; rewrite <- app_assoc; done.
    + replace (acc ++ (k, v) :: r) with ((acc ++ [(k, v)]) ++ r) in H
        by (by rewrite <- app_assoc).
      rewrite map_app in H. by apply own_keys_ok_app_l in H.
Qed.

Lemma object_of_members_ok (props : list (jsstring * json)) :
  own_keys_ok (map fst props) = true -> object_of_members props = props.
Proof. intros H. unfold object_of_members. by rewrite fold_CreateDataProperty. Qed.
(** ** JSON.parse reads what JSON.stringify writes *)

Lemma follows_ends_number (rest : jsstring) :
  head_is follows rest -> head_is ends_number rest.
Proof.
  destruct rest as [|c r]; simpl; [done|].
  unfold follows, ends_number, is_digit. intros H.
  apply orb_true_iff in H as [H|H]; [apply orb_true_iff in H as [H|H]|];
    apply Z.eqb_eq in H; by subst.
Qed.

Lemma SerializeJSONProperty_head (v : json) :
  exists c r, SerializeJSONProperty v = c :: r /\ opens_value c = true.
Proof.
  assert (Hnum : forall x, exists c r, SerializeNumber x = c :: r /\ opens_value c = true).
  { intros x. destruct (SerializeNumber_head x) as (c & r & E & H).
    exists c, r. split; [done|]. destruct H as [->|[H| ->]]; [done| |done].
    unfold is_digit in H. unfold opens_value, is_ws.
    apply andb_true_iff in H as [H1 H2]. apply Z.leb_le in H1, H2.
    ztest. }
  destruct v as [|[]|n|x|s|elems|props].
  - by exists 110, (js "ull").
  - by exists 116, (js "rue").
  - by exists 102, (js "alse").
  - apply Hnum.
  - apply Hnum.
  - by exists 34, (quote_units s ++ [34]).
  - simpl. by eauto.
  - simpl. by eauto.
Qed.

Lemma parse_value_array_nil (n : nat) (rest : jsstring) :
  parse_value (S n) (91 :: 93 :: rest) = Some (JArr [], rest).
Proof. reflexivity. Qed.

Lemma parse_value_array (n : nat) (c : Z) (r rest : jsstring) (elems : list json) :
  opens_value c = true ->
  parse_elements n (c :: r) = Some (elems, rest) ->
  parse_value (S n) (91 :: c :: r) = Some (JArr elems, rest).
Proof.
  unfold opens_value. rewrite !andb_true_iff, !negb_true_iff.
  intros [[H1 H2] _] H.
  change (parse_value (S n) (91 :: c :: r))
    with (match skip_ws (c :: r) with
          | [] => None
          | c' :: r' =>
              if c' =? 93 then Some (JArr [], r')
              else match parse_elements n (c :: r) with
                   | Some (elems, rest) => Some (JArr elems, rest)
                   | None => None
                   end
          end).
  simpl skip_ws. rewrite H1, H2. by rewrite H.
Qed.

Lemma parse_value_object_nil (n : nat) (rest : jsstring) :
  parse_value (S n) (123 :: 125 :: rest) = Some (JObj [], rest).
Proof. reflexivity. Qed.

Lemma parse_value_object (n : nat) (r rest : jsstring) (members : list (jsstring * json)) :
  parse_members n (34 :: r) = Some (members, rest) ->
  parse_value (S n) (123 :: 34 :: r) = Some (JObj (object_of_members members), rest).
Proof.
  intros H.
  change (parse_value (S n) (123 :: 34 :: r))
    with (match parse_members n (34 :: r) with
          | Some (members, rest) => Some (JObj (object_of_members members), rest)
          | None => None
          end).
  by rewrite H.
Qed.

Lemma parse_value_string (n : nat) (body str rest : jsstring) :
  parse_string_chars body = Some (str, rest) ->
  parse_value (S n) (34 :: body) = Some (JStr str, rest).
Proof.
  intros H.
  change (parse_value (S n) (34 :: body))
    with (match parse_string_chars body with
          | Some (str, rest) => Some (JStr str, rest)
          | None => None
          end).
  by rewrite H.
Qed.

Lemma js_null : js "null" = [110; 117; 108; 108].
Proof. reflexivity. Qed.

Lemma js_true : js "true" = [116; 114; 117; 101].
Proof. reflexivity. Qed.

Lemma js_false : js "false" = [102; 97; 108; 115; 101].
Proof. reflexivity. Qed.

Lemma parse_literal_number (c : Z) (r : jsstring) :
  c = 45 \/ is_digit c = true ->
  parse_literal (c :: r) = parse_number (c :: r).
Proof.
  intros H.
  assert (Hc : c = 45 \/ 48 <= c <= 57).
  { destruct H as [H|H]; [by left|right]. unfold is_digit in H.
    apply andb_true_iff in H as [H1 H2]. apply Z.leb_le in H1, H2. lia. }
  unfold parse_literal. rewrite js_null, js_true, js_false.
  unfold strip_prefix.
  destruct (Z.eqb_spec 110 c); [lia|]. destruct (Z.eqb_spec 116 c); [lia|].
  destruct (Z.eqb_spec 102 c); [lia|]. reflexivity.
Qed.

Lemma parse_value_literal (n : nat) (c : Z) (r : jsstring) :
  is_ws c = false -> c <> 91 -> c <> 123 -> c <> 34 ->
  parse_value (S n) (c :: r) = parse_literal (c :: r).
Proof.
  intros Hws H1 H2 H3.
  change (parse_value (S n) (c :: r))
    with (match skip_ws (c :: r) with
          | [] => None
          | c :: r =>
              if c =? 91 then
                match skip_ws r with
                | [] => None
                | c' :: r' =>
                    if c' =? 93 then Some (JArr [], r')
                    else match parse_elements n r with
                         | Some (elems, rest) => Some (JArr elems, rest)
                         | None => None
                         end
                end
              else if c =? 123 then
                match skip_ws r with
                | [] => None
                | c' :: r' =>
                    if c' =? 125 then Some (JObj [], r')
                    else match parse_members n r with
                         | Some (members, rest) =>
                             Some (JObj (object_of_members members), rest)
                         | None => None
                         end
                end
              else if c =? 34 then
                match parse_string_chars r with
                | Some (str, rest) => Some (JStr str, rest)
                | None => None
                end
              else parse_literal (c :: r)
          end).
  simpl skip_ws. rewrite Hws.
  destruct (Z.eqb_spec c 91); [done|]. destruct (Z.eqb_spec c 123); [done|].
  by destruct (Z.eqb_spec c 34).
Qed.

Lemma parse_value_number (n : nat) (c : Z) (r : jsstring) :
  c = 45 \/ is_digit c = true ->
  parse_value (S n) (c :: r) = parse_number (c :: r).
Proof.
  intros H. rewrite <- parse_literal_number by done.
  assert (Hc : c = 45 \/ 48 <= c <= 57).
  { destruct H as [H|H]; [by left|right]. unfold is_digit in H.
    apply andb_true_iff in H as [H1 H2]. apply Z.leb_le in H1, H2. lia. }
  apply parse_value_literal; [|lia..].
  unfold is_ws. ztest.
Qed.

Lemma parse_elements_one (n : nat) (s rest : jsstring) (v : json) :
  parse_value n s = Some (v, 93 :: rest) ->
  parse_elements (S n) s = Some ([v], rest).
Proof. intros H. simpl. by rewrite H. Qed.

Lemma parse_elements_more (n : nat) (s r rest : jsstring) (v : json) (vs : list json) :
  parse_value n s = Some (v, 44 :: r) ->
  parse_elements n r = Some (vs, rest) ->
  parse_elements (S n) s = Some (v :: vs, rest).
Proof. intros H1 H2. simpl. rewrite H1. simpl. by rewrite H2. Qed.

Lemma parse_members_step (n : nat) (body k r2 : jsstring) (v : json)
  (after : jsstring) :
  parse_string_chars body = Some (k, 58 :: r2) ->
  parse_value n r2 = Some (v, after) ->
  parse_members (S n) (34 :: body)
  = match after with
    | [] => None
    | c :: r =>
        if is_ws c then
          match skip_ws r with
          | [] => None
          | c :: r =>
              if c =? 44 then
                match parse_members n r with
                | Some (ms, rest') => Some ((k, v) :: ms, rest')
                | None => None
                end
              else if c =? 125 then Some ([(k, v)], r)
              else None
          end
        else if c =? 44 then
          match parse_members n r with
          | Some (ms, rest') => Some ((k, v) :: ms, rest')
          | None => None
          end
        else if c =? 125 then Some ([(k, v)], r)
        else None
    end.
Proof.
  intros H1 H2.
  change (parse_members (S n) (34 :: body))
    with (match parse_string_chars body with
          | None => None
          | Some (k, r1) =>
              match skip_ws r1 with
              | [] => None
              | colon :: r2 =>
                  if colon =? 58 then
                    match parse_value n r2 with
                    | None => None
                    | Some (v, rest) =>
                        match skip_ws rest with
                        | [] => None
                        | c :: r =>
                            if c =? 44 then
                              match parse_members n r with
                              | Some (ms, rest') => Some ((k, v) :: ms, rest')
                              | None => None
                              end
                            else if c =? 125 then Some ([(k, v)], r)
                            else None
                        end
                    end
                  else None
              end
          end).
  rewrite H1. simpl skip_ws at 1. cbn [Z.eqb Pos.eqb]. rewrite H2.
  destruct after as [|c r]; [done|]. simpl skip_ws. by destruct (is_ws c).
Qed.
Lemma join_comma_cons2 (x y : jsstring) (l : list jsstring) :
  join_comma (x :: y :: l) = x ++ 44 :: join_comma (y :: l).
Proof. reflexivity. Qed.

Lemma parse_elements_serialize (elems : list json) :
  elems <> [] ->
  Forall reads_back elems ->
  forallb serializable elems = true ->
  forall (fuel : nat) (rest : jsstring),
    (list_sum (map (fun e => S (cost e)) elems) <= fuel)%nat ->
    parse_elements fuel (join_comma (map SerializeJSONProperty elems) ++ 93 :: rest)
    = Some (elems, rest).
Proof.
  induction elems as [|e es IH]; [done|]. intros _ Hall Hser fuel rest Hfuel.
  apply Forall_cons_1 in Hall as [He Hes].
  simpl in Hser. apply andb_true_iff in Hser as [Hse Hses].
  destruct fuel as [|n]; [simpl in Hfuel; lia|].
  destruct es as [|e2 es'].
  - simpl in *. apply parse_elements_one. apply He; [done|lia|done].
  - change (map SerializeJSONProperty (e :: e2 :: es'))
      with (SerializeJSONProperty e
              :: SerializeJSONProperty e2 :: map SerializeJSONProperty es').
    rewrite join_comma_cons2, <- app_assoc. simpl app at 2.
    eapply parse_elements_more.
    + apply He; [done| |done]. simpl in Hfuel. lia.
    + apply IH; [done..|]. simpl in *. lia.
Qed.

Lemma parse_members_serialize (props : list (jsstring * json)) :
  props <> [] ->
  Forall (fun p => reads_back (snd p)) props ->
  forallb (fun p => wf_stringb (fst p) && serializable (snd p)) props = true ->
  forall (fuel : nat) (rest : jsstring),
    (list_sum (map (fun p => S (cost (snd p))) props) <= fuel)%nat ->
    parse_members fuel (join_comma (map member_text props) ++ 125 :: rest)
    = Some (props, rest).
Proof.
  induction props as [|[k v] ps IH]; [done|]. intros _ Hall Hser fuel rest Hfuel.
  apply Forall_cons_1 in Hall as [Hv Hps]. simpl in Hv.
  simpl in Hser. apply andb_true_iff in Hser as [Hkv Hsps].
  apply andb_true_iff in Hkv as [Hk Hsv]. apply wf_stringb_spec in Hk.
  destruct fuel as [|n]; [simpl in Hfuel; lia|].
  destruct ps as [|p2 ps'].
  - simpl join_comma. unfold member_text. simpl fst. simpl snd.
    rewrite <- !app_assoc, <- !app_comm_cons.
    destruct (parse_QuoteJSONString k (58 :: SerializeJSONProperty v ++ 125 :: rest) Hk)
      as (body & -> & Hbody).
    rewrite (parse_members_step n body k _ v (125 :: rest) Hbody); [done|].
    apply Hv; [done| |done]. simpl in Hfuel. lia.
  - change (map member_text ((k, v) :: p2 :: ps'))
      with (member_text (k, v) :: member_text p2 :: map member_text ps').
    rewrite join_comma_cons2. unfold member_text at 1. simpl fst. simpl snd.
    rewrite <- !app_assoc, <- !app_comm_cons.
    destruct (parse_QuoteJSONString k
                (58 :: SerializeJSONProperty v
                   ++ 44 :: join_comma (member_text p2 :: map member_text ps')
                   ++ 125 :: rest) Hk)
      as (body & -> & Hbody).
    rewrite (parse_members_step n body k _ v
               (44 :: join_comma (member_text p2 :: map member_text ps') ++ 125 :: rest)
               Hbody).
    + change (is_ws 44) with false. cbv iota. change (44 =? 44) with true. cbv iota.
      change (member_text p2 :: map member_text ps') with (map member_text (p2 :: ps')).
      rewrite IH; [done..|]. simpl in *. lia.
    + apply Hv; [done| |done]. simpl in Hfuel. lia.
Qed.

Lemma join_comma_head (x : jsstring) (l : list jsstring) (c : Z) (r : jsstring) :
  x = c :: r -> exists r', join_comma (x :: l) = c :: r'.
Proof. intros ->. destruct l; simpl; eauto. Qed.

Lemma SerializeJSONProperty_array (elems : list json) :
  SerializeJSONProperty (JArr elems)
  = 91 :: join_comma (map SerializeJSONProperty elems) ++ [93].
Proof. reflexivity. Qed.

Lemma SerializeJSONProperty_object (props : list (jsstring * json)) :
  SerializeJSONProperty (JObj props) = 123 :: join_comma (map member_text props) ++ [125].
Proof. reflexivity. Qed.

Lemma parse_value_serialize (v : json) : reads_back v.
Proof.
  induction v as [|b|n|x|s|elems IH|props IH] using json_ind;
    intros Hser fuel rest Hfuel Hrest;
    (destruct fuel as [|m]; [simpl in Hfuel; lia|]).
  - simpl SerializeJSONProperty. rewrite js_null. simpl app.
    rewrite parse_value_literal by done.
    unfold parse_literal. by rewrite js_null.
  - destruct b; simpl SerializeJSONProperty; rewrite ?js_true, ?js_false; simpl app;
      rewrite parse_value_literal by done;
      unfold parse_literal; by rewrite js_null, js_true, ?js_false.
  - simpl in Hser. simpl SerializeJSONProperty.
    rewrite (Number_of_integer_serializable n Hser).
    change (SerializeNumber (Integer n)) with (number_text (Integer n)).
    change (JNum n) with (json_of_number (Integer n)).
    destruct (number_text_head (Integer n)) as (c & r & E & H); [done|].
    rewrite <- (parse_number_text (Integer n) rest Hser);
      [|done|by apply follows_ends_number].
    rewrite E. simpl app. by apply parse_value_number.
  - destruct x as [mantissa e|negative]; [|done].
    simpl in Hser.
    change (SerializeJSONProperty (JReal (Dyadic mantissa e)))
      with (SerializeNumber (Number_of_nonintegral (Dyadic mantissa e))).
    rewrite (Number_of_nonintegral_serializable mantissa e Hser).
    change (SerializeNumber (NonIntegral (Dyadic mantissa e)))
      with (number_text (NonIntegral (Dyadic mantissa e))).
    change (JReal (Dyadic mantissa e))
      with (json_of_number (NonIntegral (Dyadic mantissa e))).
    destruct (number_text_head (NonIntegral (Dyadic mantissa e))) as (c & r & E & H);
      [done|].
    rewrite <- (parse_number_text (NonIntegral (Dyadic mantissa e)) rest Hser);
      [|done|by apply follows_ends_number].
    rewrite E. simpl app. by apply parse_value_number.
  - simpl in Hser. apply wf_stringb_spec in Hser.
    simpl SerializeJSONProperty.
    destruct (parse_QuoteJSONString s rest Hser) as (body & -> & Hbody).
    by apply parse_value_string.
  - simpl in Hser, Hfuel.
    rewrite SerializeJSONProperty_array, <- app_comm_cons, <- app_assoc.
    change ([93] ++ rest) with (93 :: rest).
    destruct elems as [|e es]; [apply parse_value_array_nil|].
    destruct (SerializeJSONProperty_head e) as (c & r & E & Hc).
    destruct (join_comma_head _ (map SerializeJSONProperty es) c r E) as (r' & E').
    assert (Hp := parse_elements_serialize (e :: es)).
    specialize (Hp ltac:(done) IH Hser m rest ltac:(lia)).
    change (map SerializeJSONProperty (e :: es))
      with (SerializeJSONProperty e :: map SerializeJSONProperty es) in Hp |- *.
    rewrite E' in Hp |- *. rewrite <- app_comm_cons in Hp |- *.
    by apply parse_value_array.
  - simpl in Hser, Hfuel. apply andb_true_iff in Hser as [Hkeys Hser].
    rewrite SerializeJSONProperty_object, <- app_comm_cons, <- app_assoc.
    change ([125] ++ rest) with (125 :: rest).
    destruct props as [|[k v] ps]; [apply parse_value_object_nil|].
    assert (Hp := parse_members_serialize ((k, v) :: ps)).
    specialize (Hp ltac:(done) IH Hser m rest ltac:(lia)).
    assert (E : exists r', join_comma (map member_text ((k, v) :: ps)) = 34 :: r').
    { eapply join_comma_head. reflexivity. }
    destruct E as (r' & E). rewrite E in Hp |- *. rewrite <- app_comm_cons in Hp |- *.
    rewrite (parse_value_object _ _ _ _ Hp). by rewrite object_of_members_ok.
Qed.

Lemma length_join_comma (texts : list jsstring) :
  (list_sum (map (fun t => S (length t)) texts) <= S (length (join_comma texts)))%nat.
Proof.
  induction texts as [|x [|y l] IH]; simpl in *; [lia..|].
  rewrite length_app. simpl. lia.
Qed.

Lemma list_sum_map_le {A : Type} (f g : A -> nat) (l : list A) :
  Forall (fun x => (f x <= g x)%nat) l ->
  (list_sum (map f l) <= list_sum (map g l))%nat.
Proof. induction 1; simpl; lia. Qed.

Lemma cost_le_length (v : json) : (cost v <= length (SerializeJSONProperty v))%nat.
Proof.
  induction v as [|b|n|x|s|elems IH|props IH] using json_ind.
  - simpl. lia.
  - destruct b; simpl; lia.
  - simpl SerializeJSONProperty.
    destruct (SerializeNumber_head (Number_of_integer n)) as (c & r & E & _).
    rewrite E. simpl. lia.
  - change (SerializeJSONProperty (JReal x)) with (SerializeNumber (Number_of_nonintegral x)).
    destruct (SerializeNumber_head (Number_of_nonintegral x)) as (c & r & E & _).
    rewrite E. simpl. lia.
  - simpl. lia.
  - rewrite SerializeJSONProperty_array. simpl. rewrite length_app. simpl.
    pose proof (length_join_comma (map SerializeJSONProperty elems)) as H.
    rewrite map_map in H.
    pose proof (list_sum_map_le (fun e => S (cost e))
                  (fun e => S (length (SerializeJSONProperty e))) elems) as H'.
    cut (list_sum (map (fun e => S (cost e)) elems)
         <= list_sum (map (fun e => S (length (SerializeJSONProperty e))) elems))%nat;
      [lia|].
    apply H'. eapply Forall_impl; [exact IH|]. simpl. intros. lia.
  - rewrite SerializeJSONProperty_object.
    cbn [length cost]. rewrite length_app. cbn [length].
    pose proof (length_join_comma (map member_text props)) as H.
    rewrite map_map in H.
    pose proof (list_sum_map_le (fun p => S (cost (snd p)))
                  (fun p => S (length (member_text p))) props) as H'.
    cut (list_sum (map (fun p => S (cost (snd p))) props)
         <= list_sum (map (fun p => S (length (member_text p))) props))%nat; [lia|].
    apply H'. eapply Forall_impl; [exact IH|]. cbn beta.
    intros p Hp. unfold member_text. rewrite length_app. cbn [length]. lia.
Qed.

(** The round trip of [JSON.stringify] and [JSON.parse]. *)
Lemma JSON_parse_serialize (v : json) :
  serializable v = true -> JSON_parse (SerializeJSONProperty v) = Normal v.
Proof.
  intros Hser. unfold JSON_parse.
  pose proof (parse_value_serialize v Hser
                (2 * length (SerializeJSONProperty v) + 2)%nat []) as H.
  rewrite app_nil_r in H. rewrite H; [done| |done].
  pose proof (cost_le_length v). lia.
Qed.

(** ** The fuel of the parser is enough *)

Lemma skip_ws_length (s : jsstring) : (length (skip_ws s) <= length s)%nat.
Proof.
  induction s as [|c r IH]; simpl; [done|]. destruct (is_ws c); simpl; lia.
Qed.

Lemma parse_string_chars_length (n : nat) (s str rest : jsstring) :
  (length s <= n)%nat ->
  parse_string_chars s = Some (str, rest) -> (length rest < length s)%nat.
Proof.
  revert s str rest. induction n as [|n IH]; intros s str rest Hn H.
  - destruct s; [done|simpl in Hn; lia].
  - destruct s as [|c r]; [done|]. simpl in Hn. cbn [parse_string_chars] in H.
    destruct (c =? 34); [injection H as _ <-; simpl; lia|].
    destruct (c =? 92).
    + destruct r as [|e r1]; [done|]. simpl in Hn.
      destruct (e =? 117).
      * destruct r1 as [|h1 [|h2 [|h3 [|h4 r2]]]]; try done.
        destruct (hex4 h1 h2 h3 h4); [|done].
        destruct (parse_string_chars r2) as [[str' rest']|] eqn:E; [|done].
        injection H as _ <-. apply IH in E; simpl in *; lia.
      * destruct (simple_escape e); [|done].
        destruct (parse_string_chars r1) as [[str' rest']|] eqn:E; [|done].
        injection H as _ <-. apply IH in E; simpl in *; lia.
    + destruct (c <? 32); [done|].
      destruct (parse_string_chars r) as [[str' rest']|] eqn:E; [|done].
      injection H as _ <-. apply IH in E; simpl in *; lia.
Qed.

Lemma read_digits_length (s : jsstring) :
  (length (snd (read_digits s)) <= length s)%nat.
Proof.
  induction s as [|c r IH]; simpl; [done|].
  destruct (is_digit c); [|simpl; lia].
  destruct (read_digits r) as [d rest]. simpl in *. lia.
Qed.

Lemma span_digits_length (s : jsstring) :
  (length (snd (span_digits s)) <= length s)%nat.
Proof.
  induction s as [|c r IH]; simpl; [done|].
  destruct (is_digit c); [|simpl; lia].
  destruct (span_digits r) as [ds rest]. simpl in *. lia.
Qed.

Lemma parse_fraction_length (s frac rest : jsstring) :
  parse_fraction s = Some (frac, rest) -> (length rest <= length s)%nat.
Proof.
  destruct s as [|c r]; simpl; [by intros [= _ <-]|].
  destruct (c =? 46); [|by intros [= _ <-]].
  pose proof (span_digits_length r) as Hl.
  destruct (span_digits r) as [[|d ds] rest']; [done|].
  intros [= _ <-]. simpl in *. lia.
Qed.

Lemma parse_exponent_digits_length (negative : bool) (s rest : jsstring) (e : Z) :
  parse_exponent_digits negative s = Some (e, rest) -> (length rest <= length s)%nat.
Proof.
  unfold parse_exponent_digits. pose proof (span_digits_length s) as Hl.
  destruct (span_digits s) as [[|d ds] rest']; [done|].
  by intros [= _ <-].
Qed.

Lemma parse_exponent_length (s rest : jsstring) (e : Z) :
  parse_exponent s = Some (e, rest) -> (length rest <= length s)%nat.
Proof.
  destruct s as [|c r]; simpl; [by intros [= _ <-]|].
  destruct (_ || _); [|by intros [= _ <-]].
  destruct r as [|c' r']; [done|].
  destruct (c' =? 45); [|destruct (c' =? 43)]; intros H;
    apply parse_exponent_digits_length in H; simpl in *; lia.
Qed.

Lemma parse_unsigned_length (negative : bool) (s rest : jsstring) (x : number) :
  parse_unsigned negative s = Some (x, rest) -> (length rest <= length s)%nat.
Proof.
  unfold parse_unsigned. pose proof (span_digits_length s) as Hl.
  destruct (span_digits s) as [int s1]. destruct (canonical_digits int); [|done].
  destruct (parse_fraction s1) as [[frac s2]|] eqn:Ef; [|done].
  destruct (parse_exponent s2) as [[e rest']|] eqn:Ee; [|done].
  intros [= _ <-]. apply parse_fraction_length in Ef. apply parse_exponent_length in Ee.
  simpl in *. lia.
Qed.

Lemma parse_number_length (s : jsstring) (v : json) (rest : jsstring) :
  parse_number s = Some (v, rest) -> (length rest <= length s)%nat.
Proof.
  unfold parse_number, parse_signed. destruct s as [|c r]; [done|].
  destruct (c =? 45).
  - destruct (parse_unsigned true r) as [[x rest']|] eqn:E; [|done].
    intros [= _ <-]. apply parse_unsigned_length in E. simpl. lia.
  - destruct (parse_unsigned false (c :: r)) as [[x rest']|] eqn:E; [|done].
    intros [= _ <-]. by apply parse_unsigned_length in E.
Qed.

Lemma strip_prefix_length (p s rest : jsstring) :
  strip_prefix p s = Some rest -> (length rest <= length s)%nat.
Proof.
  revert s. induction p as [|a p IH]; intros s; simpl.
  - by intros [= ->].
  - destruct s as [|b s']; [done|]. destruct (a =? b); [|done].
    intros H. apply IH in H. simpl. lia.
Qed.

Lemma parse_literal_length (s : jsstring) (v : json) (rest : jsstring) :
  parse_literal s = Some (v, rest) -> (length rest <= length s)%nat.
Proof.
  unfold parse_literal.
  destruct (strip_prefix (js "null") s) eqn:E1;
    [intros [= _ <-]; by apply strip_prefix_length in E1|].
  destruct (strip_prefix (js "true") s) eqn:E2;
    [intros [= _ <-]; by apply strip_prefix_length in E2|].
  destruct (strip_prefix (js "false") s) eqn:E3;
    [intros [= _ <-]; by apply strip_prefix_length in E3|].
  apply parse_number_length.
Qed.

(** The parser hands back no more text than it was given. *)
Lemma parse_length (fuel : nat) :
  (forall s v rest, parse_value fuel s = Some (v, rest) -> (length rest <= length s)%nat)
  /\ (forall s vs rest,
        parse_elements fuel s = Some (vs, rest) -> (length rest <= length s)%nat)
  /\ (forall s ms rest,
        parse_members fuel s = Some (ms, rest) -> (length rest <= length s)%nat).
Proof.
  induction fuel as [|n (IHv & IHe & IHm)]; [by repeat split|].
  repeat split.
  - intros s v rest. cbn [parse_value].
    pose proof (skip_ws_length s) as Hs.
    destruct (skip_ws s) as [|c r]; [done|]. simpl in Hs.
    destruct (c =? 91).
    { pose proof (skip_ws_length r) as Hr.
      destruct (skip_ws r) as [|c' r']; [done|]. simpl in Hr.
      destruct (c' =? 93); [intros [= _ <-]; lia|].
      destruct (parse_elements n r) as [[elems rest']|] eqn:E; [|done].
      intros [= _ <-]. apply IHe in E. lia. }
    destruct (c =? 123).
    { pose proof (skip_ws_length r) as Hr.
      destruct (skip_ws r) as [|c' r']; [done|]. simpl in Hr.
      destruct (c' =? 125); [intros [= _ <-]; lia|].
      destruct (parse_members n r) as [[members rest']|] eqn:E; [|done].
      intros [= _ <-]. apply IHm in E. lia. }
    destruct (c =? 34).
    { destruct (parse_string_chars r) as [[str rest']|] eqn:E; [|done].
      intros [= _ <-]. apply (parse_string_chars_length (length r)) in E; lia. }
    intros H. apply parse_literal_length in H. simpl in H. lia.
  - intros s vs rest. cbn [parse_elements].
    destruct (parse_value n s) as [[v rest1]|] eqn:Ev; [|done]. apply IHv in Ev.
    pose proof (skip_ws_length rest1) as Hs.
    destruct (skip_ws rest1) as [|c r]; [done|]. simpl in Hs.
    destruct (c =? 44).
    { destruct (parse_elements n r) as [[vs' rest']|] eqn:E; [|done].
      intros [= _ <-]. apply IHe in E. lia. }
    destruct (c =? 93); [|done]. intros [= _ <-]. lia.
  - intros s ms rest. cbn [parse_members].
    pose proof (skip_ws_length s) as Hs.
    destruct (skip_ws s) as [|q r0]; [done|]. simpl in Hs.
    destruct (q =? 34); [|done].
    destruct (parse_string_chars r0) as [[k r1]|] eqn:Ek; [|done].
    apply (parse_string_chars_length (length r0)) in Ek; [|lia].
    pose proof (skip_ws_length r1) as Hs1.
    destruct (skip_ws r1) as [|colon r2]; [done|]. simpl in Hs1.
    destruct (colon =? 58); [|done].
    destruct (parse_value n r2) as [[v rest1]|] eqn:Ev; [|done]. apply IHv in Ev.
    pose proof (skip_ws_length rest1) as Hs2.
    destruct (skip_ws rest1) as [|c r]; [done|]. simpl in Hs2.
    destruct (c =? 44).
    { destruct (parse_members n r) as [[ms' rest']|] eqn:E; [|done].
      intros [= _ <-]. apply IHm in E. lia. }
    destruct (c =? 125); [|done]. intros [= _ <-]. lia.
Qed.

(** Above twice the length of the text, more fuel changes nothing. *)
Lemma parse_fuel (f1 : nat) :
  forall f2 : nat,
    (forall s, (2 * length s + 1 <= f1)%nat -> (2 * length s + 1 <= f2)%nat ->
               parse_value f1 s = parse_value f2 s)
    /\ (forall s, (2 * length s + 2 <= f1)%nat -> (2 * length s + 2 <= f2)%nat ->
                  parse_elements f1 s = parse_elements f2 s)
    /\ (forall s, (2 * length s + 2 <= f1)%nat -> (2 * length s + 2 <= f2)%nat ->
                  parse_members f1 s = parse_members f2 s).
Proof.
  induction f1 as [|n1 IH]; intros f2; [repeat split; intros; lia|].
  destruct f2 as [|n2]; [repeat split; intros; lia|].
  destruct (IH n2) as (IHv & IHe & IHm). clear IH.
  destruct (parse_length n1) as (Lv & _ & _).
  repeat split.
  - intros s H1 H2. cbn [parse_value].
    pose proof (skip_ws_length s) as Hs.
    destruct (skip_ws s) as [|c r]; [done|]. simpl in Hs.
    rewrite (IHe r), (IHm r) by lia. reflexivity.
  - intros s H1 H2. cbn [parse_elements].
    rewrite <- (IHv s) by lia.
    destruct (parse_value n1 s) as [[v rest1]|] eqn:Ev; [|done]. apply Lv in Ev.
    pose proof (skip_ws_length rest1) as Hs.
    destruct (skip_ws rest1) as [|c r]; [done|]. simpl in Hs.
    rewrite (IHe r) by lia. reflexivity.
  - intros s H1 H2. cbn [parse_members].
    pose proof (skip_ws_length s) as Hs.
    destruct (skip_ws s) as [|q r0]; [done|]. simpl in Hs.
    destruct (q =? 34); [|done].
    destruct (parse_string_chars r0) as [[k r1]|] eqn:Ek; [|done].
    apply (parse_string_chars_length (length r0)) in Ek; [|lia].
    pose proof (skip_ws_length r1) as Hs1.
    destruct (skip_ws r1) as [|colon r2]; [done|]. simpl in Hs1.
    destruct (colon =? 58); [|done].
    rewrite <- (IHv r2) by lia.
    destruct (parse_value n1 r2) as [[v rest1]|] eqn:Ev; [|done]. apply Lv in Ev.
    pose proof (skip_ws_length rest1) as Hs2.
    destruct (skip_ws rest1) as [|c r]; [done|]. simpl in Hs2.
    rewrite (IHm r) by lia. reflexivity.
Qed.

(** [JSON_parse] gives the parser all the fuel it can use: with any
    more, the result is the same. *)
Lemma JSON_parse_fuel (text : jsstring) (fuel : nat) :
  (2 * length text + 2 <= fuel)%nat ->
  parse_value fuel text = parse_value (2 * length text + 2) text.
Proof.
  intros H. destruct (parse_fuel fuel (2 * length text + 2)) as (Hv & _ & _).
  apply Hv; lia.
Qed.
(** ** atob reads what btoa writes *)

Lemma list_ind3 {A : Type} (P : list A -> Prop) :
  P [] -> (forall a, P [a]) -> (forall a b, P [a; b]) ->
  (forall a b c l, P l -> P (a :: b :: c :: l)) ->
  forall l, P l.
Proof.
  intros H0 H1 H2 H3 l.
  assert (H : P l /\ (forall a, P (a :: l)) /\ (forall a b, P (a :: b :: l)));
    [|tauto].
  induction l as [|c l (IH0 & IH1 & IH2)]; auto.
Qed.

Lemma b64_char_alphabet (n : Z) :
  sextet n ->
  65 <= b64_char n <= 90 \/ 97 <= b64_char n <= 122 \/ 48 <= b64_char n <= 57
  \/ b64_char n = 43 \/ b64_char n = 47.
Proof. unfold sextet, b64_char. intros H. ztest. Qed.

Lemma b64_value_char (n : Z) : sextet n -> b64_value (b64_char n) = Some n.
Proof.
  unfold sextet, b64_char, b64_value. intros H.
  destruct (Z.ltb_spec n 26); [ztest; f_equal; lia|].
  destruct (Z.ltb_spec n 52); [ztest; f_equal; lia|].
  destruct (Z.ltb_spec n 62); [ztest; f_equal; lia|].
  destruct (Z.eqb_spec n 62); [subst; reflexivity|].
  assert (n = 63) as -> by lia. reflexivity.
Qed.

Lemma b64_char_not_ws (n : Z) : sextet n -> is_ascii_ws (b64_char n) = false.
Proof.
  intros H. apply b64_char_alphabet in H. unfold is_ascii_ws. ztest.
Qed.

Lemma b64_char_not_pad (n : Z) : sextet n -> (b64_char n =? 61) = false.
Proof. intros H. apply b64_char_alphabet in H. ztest. Qed.

Lemma b64_values_chars (l : list Z) :
  Forall sextet l -> b64_values (map b64_char l) = Some l.
Proof.
  induction 1 as [|n l Hn _ IH]; simpl; [done|].
  by rewrite (b64_value_char n Hn), IH.
Qed.

Ltac bytes_arith := unfold byte, sextet in *; Z.div_mod_to_equations; lia.

Lemma b64_sextets_range (s : jsstring) : Forall byte s -> Forall sextet (b64_sextets s).
Proof.
  induction s as [|a|a b|a b c l IH] using list_ind3; intros H.
  - constructor.
  - apply Forall_cons_1 in H as [Ha _]. simpl.
    repeat constructor; bytes_arith.
  - apply Forall_cons_1 in H as [Ha H]. apply Forall_cons_1 in H as [Hb _]. simpl.
    repeat constructor; bytes_arith.
  - apply Forall_cons_1 in H as [Ha H]. apply Forall_cons_1 in H as [Hb H].
    apply Forall_cons_1 in H as [Hc H].
    change (b64_sextets (a :: b :: c :: l))
      with (a / 4 :: (a mod 4 * 16 + b / 16) :: (b mod 16 * 4 + c / 64) :: c mod 64
              :: b64_sextets l).
    repeat (constructor; [bytes_arith|]). auto.
Qed.

Lemma b64_decode_sextets (s : jsstring) : Forall byte s -> b64_decode (b64_sextets s) = s.
Proof.
  induction s as [|a|a b|a b c l IH] using list_ind3; intros H.
  - reflexivity.
  - apply Forall_cons_1 in H as [Ha _]. simpl. f_equal. bytes_arith.
  - apply Forall_cons_1 in H as [Ha H]. apply Forall_cons_1 in H as [Hb _]. simpl.
    f_equal; [bytes_arith|]. f_equal. bytes_arith.
  - apply Forall_cons_1 in H as [Ha H]. apply Forall_cons_1 in H as [Hb H].
    apply Forall_cons_1 in H as [Hc H].
    change (b64_sextets (a :: b :: c :: l))
      with (a / 4 :: (a mod 4 * 16 + b / 16) :: (b mod 16 * 4 + c / 64) :: c mod 64
              :: b64_sextets l).
    change (b64_decode (a / 4 :: (a mod 4 * 16 + b / 16) :: (b mod 16 * 4 + c / 64)
                          :: c mod 64 :: b64_sextets l))
      with ((a / 4 * 4 + (a mod 4 * 16 + b / 16) / 16)
              :: ((a mod 4 * 16 + b / 16) mod 16 * 16 + (b mod 16 * 4 + c / 64) / 4)
              :: ((b mod 16 * 4 + c / 64) mod 4 * 64 + c mod 64)
              :: b64_decode (b64_sextets l)).
    rewrite (IH H). f_equal; [bytes_arith|]. f_equal; [bytes_arith|]. f_equal. bytes_arith.
Qed.

Lemma b64_sextets_length (s : jsstring) :
  Z.of_nat (length (b64_sextets s)) mod 4 <> 1.
Proof.
  induction s as [|a|a b|a b c l IH] using list_ind3; try done.
  change (b64_sextets (a :: b :: c :: l))
    with (a / 4 :: (a mod 4 * 16 + b / 16) :: (b mod 16 * 4 + c / 64) :: c mod 64
            :: b64_sextets l).
  cbn [length]. revert IH. generalize (length (b64_sextets l)). intros n.
  rewrite !Nat2Z.inj_succ. Z.div_mod_to_equations. lia.
Qed.

Lemma b64_encode_length (s : jsstring) : Z.of_nat (length (b64_encode s)) mod 4 = 0.
Proof.
  induction s as [|a|a b|a b c l IH] using list_ind3; try done.
  change (b64_encode (a :: b :: c :: l))
    with (b64_char (a / 4) :: b64_char (a mod 4 * 16 + b / 16)
            :: b64_char (b mod 16 * 4 + c / 64) :: b64_char (c mod 64) :: b64_encode l).
  cbn [length]. revert IH. generalize (length (b64_encode l)). intros n.
  rewrite !Nat2Z.inj_succ. Z.div_mod_to_equations. lia.
Qed.

Lemma b64_encode_not_ws (s : jsstring) :
  Forall byte s ->
  List.filter (fun c => negb (is_ascii_ws c)) (b64_encode s) = b64_encode s.
Proof.
  induction s as [|a|a b|a b c l IH] using list_ind3; intros H.
  - reflexivity.
  - apply Forall_cons_1 in H as [Ha _]. simpl.
    rewrite !b64_char_not_ws by bytes_arith. reflexivity.
  - apply Forall_cons_1 in H as [Ha H]. apply Forall_cons_1 in H as [Hb _]. simpl.
    rewrite !b64_char_not_ws by bytes_arith. reflexivity.
  - apply Forall_cons_1 in H as [Ha H]. apply Forall_cons_1 in H as [Hb H].
    apply Forall_cons_1 in H as [Hc H].
    change (b64_encode (a :: b :: c :: l))
      with (b64_char (a / 4) :: b64_char (a mod 4 * 16 + b / 16)
              :: b64_char (b mod 16 * 4 + c / 64) :: b64_char (c mod 64) :: b64_encode l).
    cbn [List.filter]. rewrite !b64_char_not_ws by bytes_arith. cbn [negb].
    by rewrite (IH H).
Qed.

Lemma drop_padding_group (c1 c2 c3 c4 : Z) (l : jsstring) :
  (c4 =? 61) = false -> l = [] \/ (2 <= length l)%nat ->
  drop_padding (c1 :: c2 :: c3 :: c4 :: l) = c1 :: c2 :: c3 :: c4 :: drop_padding l.
Proof.
  intros H4 [->|Hl].
  - simpl. by rewrite H4.
  - destruct l as [|x [|y l']]; simpl in Hl; try lia. reflexivity.
Qed.

Lemma b64_encode_groups (s : jsstring) :
  b64_encode s = [] \/ (2 <= length (b64_encode s))%nat.
Proof.
  induction s as [|a|a b|a b c l IH] using list_ind3; simpl; auto; right; lia.
Qed.

Lemma drop_padding_encode (s : jsstring) :
  Forall byte s -> drop_padding (b64_encode s) = map b64_char (b64_sextets s).
Proof.
  induction s as [|a|a b|a b c l IH] using list_ind3; intros H.
  - reflexivity.
  - reflexivity.
  - apply Forall_cons_1 in H as [Ha H]. apply Forall_cons_1 in H as [Hb _]. simpl.
    by rewrite b64_char_not_pad by bytes_arith.
  - apply Forall_cons_1 in H as [Ha H]. apply Forall_cons_1 in H as [Hb H].
    apply Forall_cons_1 in H as [Hc H].
    change (b64_encode (a :: b :: c :: l))
      with (b64_char (a / 4) :: b64_char (a mod 4 * 16 + b / 16)
              :: b64_char (b mod 16 * 4 + c / 64) :: b64_char (c mod 64) :: b64_encode l).
    change (b64_sextets (a :: b :: c :: l))
      with (a / 4 :: (a mod 4 * 16 + b / 16) :: (b mod 16 * 4 + c / 64) :: c mod 64
              :: b64_sextets l).
    rewrite drop_padding_group.
    + cbn [map]. by rewrite (IH H).
    + apply b64_char_not_pad. bytes_arith.
    + apply b64_encode_groups.
Qed.

(** The round trip of [btoa] and [atob]. *)
Lemma atob_b64_encode (s : jsstring) : Forall byte s -> atob (b64_encode s) = Normal s.
Proof.
  intros H. unfold atob.
  rewrite (b64_encode_not_ws s H), b64_encode_length. cbn [Z.eqb].
  rewrite (drop_padding_encode s H), length_map.
  destruct (Z.eqb_spec (Z.of_nat (length (b64_sextets s)) mod 4) 1) as [E|_].
  - by apply b64_sextets_length in E.
  - by rewrite (b64_values_chars _ (b64_sextets_range s H)), (b64_decode_sextets s H).
Qed.

Lemma btoa_Normal (s token : jsstring) :
  btoa s = Normal token -> Forall byte s /\ token = b64_encode s.
Proof.
  unfold btoa. intros H.
  destruct (forallb _ s) eqn:E; [|done]. injection H as <-. split; [|done].
  rewrite forallb_forall in E. apply List.Forall_forall. intros c Hc.
  specialize (E c Hc). unfold is_byte in E. apply andb_true_iff in E as [E1 E2].
  apply Z.leb_le in E1, E2. unfold byte. lia.
Qed.

(** * Properties of the facade *)

(** ** storageManager *)

Lemma getItem_setItem (k v : jsstring) (w : window) :
  getItem k (setItem k v w) = Some v.
Proof. unfold getItem, setItem. simpl. apply lookup_insert_eq. Qed.

Lemma getItem_setItem_ne (k k' v : jsstring) (w : window) :
  k <> k' -> getItem k' (setItem k v w) = getItem k' w.
Proof. intros H. unfold getItem, setItem. simpl. by apply lookup_insert_ne. Qed.

Lemma JSON_parse_undefined : JSON_parse (js "undefined") = Throw SyntaxError.
Proof. reflexivity. Qed.

(** The read path of the store is total. *)
Lemma storageManager_get_total (k : jsstring) (d : any) (w : window) :
  exists v, storageManager.get k d w = Normal v.
Proof.
  unfold storageManager.get, try_catch, bind.
  destruct (JSON_parse _) as [value|e]; [|by eauto].
  destruct (is_nullish (Data value)); by eauto.
Qed.

(** An absent key, a text that is no JSON, and a stored [null] all
    read as the default. *)
Lemma storageManager_get_default (k : jsstring) (d : any) (w : window) :
  getItem k w = None
  \/ (exists text, getItem k w = Some text
                   /\ (JSON_parse text = Throw SyntaxError \/ JSON_parse text = Normal JNull)) ->
  storageManager.get k d w = Normal d.
Proof.
  unfold storageManager.get, try_catch, bind.
  intros [->|(text & -> & [H|H])]; [reflexivity|..]; simpl ToString_null; by rewrite H.
Qed.

(** C2, as amended: for every serializable value [v] other than
    [null] and every key [k], [storageManager.set(k, v)] followed by
    [storageManager.get(k, d)] returns [v]; for [null] it returns the
    default [d]. *)
Theorem storageManager_set_get (k : jsstring) (v : json) (d : any) (w : window) :
  serializable v = true ->
  storageManager.get k d (storageManager.set k (Data v) w)
  = Normal (match v with JNull => d | _ => Data v end).
Proof.
  intros Hv. unfold storageManager.get, storageManager.set.
  rewrite getItem_setItem. simpl ToString_null. simpl ToString_undefined.
  rewrite (JSON_parse_serialize v Hv). by destruct v.
Qed.

Lemma storageManager_set_get_witness :
  storageManager.get (js "my-data") Undefined
    (storageManager.set (js "my-data") (Data (JObj [(js "name", JStr (js "neilveil"))]))
       (fresh_window None [] []))
  = Normal (Data (JObj [(js "name", JStr (js "neilveil"))])).
Proof.
  apply (storageManager_set_get (js "my-data") (JObj [(js "name", JStr (js "neilveil"))])).
  vm_compute. reflexivity.
Defined.

(** C2 as stated fails on [null]: [set(k, null); get(k)] returns
    [undefined]. *)
Lemma storageManager_set_get_null :
  serializable JNull = true
  /\ storageManager.get (js "k") Undefined
       (storageManager.set (js "k") (Data JNull) (fresh_window None [] []))
     = Normal Undefined
  /\ Normal Undefined <> Normal (Data JNull).
Proof. split; [reflexivity|]. split; [reflexivity|discriminate]. Qed.

(** Numbers in the store: [1e21], [0.5], [2 ** 53], [0.1] and [-25]
    are written as the engine writes them and read back as they
    were. *)
Lemma storageManager_set_get_numbers :
  let v := JArr [JNum (10 ^ 21); JReal (Dyadic 1 1); JNum (2 ^ 53);
                 JReal (Dyadic 3602879701896397 55); JNum (-25)] in
  let w := storageManager.set (js "k") (Data v) (fresh_window None [] []) in
  serializable v = true
  /\ getItem (js "k") w = Some (js "[1e+21,0.5,9007199254740992,0.1,-25]")
  /\ storageManager.get (js "k") Undefined w = Normal (Data v).
Proof. by vm_compute. Qed.

(** C3, as amended: for every non-empty key [k], [clear(k)] removes
    the entry of [k] and leaves the value of every other key as it
    was; [clear()] without argument leaves the store empty. *)
Theorem storageManager_clear_frame (k : jsstring) (w : window) :
  nonempty k = true ->
  getItem k (storageManager.clear (Some k) w) = None
  /\ (forall k', k' <> k ->
        getItem k' (storageManager.clear (Some k) w) = getItem k' w)
  /\ localStorage (storageManager.clear None w) = ∅.
Proof.
  intros Hk. unfold storageManager.clear. rewrite Hk.
  unfold getItem, removeItem. simpl. split; [apply lookup_delete_eq|].
  split; [|done]. intros k' Hne. by apply lookup_delete_ne.
Qed.

Lemma storageManager_clear_frame_witness :
  let w := setItem (js "other") (js "1") (setItem (js "my-data") (js "2")
                                            (fresh_window None [] [])) in
  getItem (js "my-data") (storageManager.clear (Some (js "my-data")) w) = None
  /\ (forall k', k' <> js "my-data" ->
        getItem k' (storageManager.clear (Some (js "my-data")) w) = getItem k' w)
  /\ localStorage (storageManager.clear None w) = ∅.
Proof. intros w. apply (storageManager_clear_frame (js "my-data") w). reflexivity. Defined.

(** C3 as stated fails on the empty key: [clear('')] removes the
    entries of the other keys too. *)
Lemma storageManager_clear_empty_key :
  let w := setItem (js "a") (js "1") (fresh_window None [] []) in
  js "a" <> js ""
  /\ getItem (js "a") w = Some (js "1")
  /\ getItem (js "a") (storageManager.clear (Some (js "")) w) = None.
Proof. split; [discriminate|]. split; reflexivity. Qed.

(** C10: [set(k, undefined)] does not throw: [JSON.stringify] gives
    [undefined], and the store writes the text [undefined] under [k];
    that text is no JSON, and [get(k, d)] then returns [d]. *)
Theorem storageManager_set_undefined (k : jsstring) (d : any) (w : window) :
  JSON_stringify Undefined = None
  /\ storageManager.set k Undefined w = setItem k (js "undefined") w
  /\ getItem k (storageManager.set k Undefined w) = Some (js "undefined")
  /\ JSON_parse (js "undefined") = Throw SyntaxError
  /\ storageManager.get k d (storageManager.set k Undefined w) = Normal d.
Proof.
  split; [reflexivity|].
  split; [reflexivity|]. split; [apply getItem_setItem|]. split; [reflexivity|].
  unfold storageManager.get, storageManager.set. rewrite getItem_setItem.
  simpl ToString_null. simpl JSON_stringify. simpl ToString_undefined.
  by rewrite JSON_parse_undefined.
Qed.

(** ** themeManager *)

Lemma themeManager_get_two_valued (w : window) :
  themeManager.get w = js "light" \/ themeManager.get w = js "dark".
Proof.
  unfold themeManager.get.
  set (preferred := match prefers_dark w with Some true => js "dark" | _ => js "light" end).
  set (current := match getItem themeManager.key w with
                  | Some stored => if nonempty stored then stored else preferred
                  | None => preferred
                  end).
  destruct (named_in [js "light"; js "dark"] current) eqn:E; simpl; [|by left].
  apply named_in_spec in E. simpl in E. destruct E as [<-|[<-|[]]]; auto.
Qed.

Lemma themeManager_get_stored (t : jsstring) (w : window) :
  getItem themeManager.key w = Some t ->
  t = js "light" \/ t = js "dark" ->
  themeManager.get w = t.
Proof.
  intros Hs Ht. unfold themeManager.get. rewrite Hs.
  destruct Ht as [-> | ->]; reflexivity.
Qed.

Lemma themeManager_get_toggle (w : window) :
  themeManager.get (themeManager.toggle w)
  = if str_eqb (themeManager.get w) (js "light") then js "dark" else js "light".
Proof.
  apply themeManager_get_stored.
  - unfold themeManager.toggle, setAttribute_data_theme, getItem. simpl.
    apply lookup_insert_eq.
  - destruct (str_eqb _ _); auto.
Qed.

(** C6: two calls of [toggle()] leave [get()] as it was. *)
Theorem themeManager_toggle_twice (w : window) :
  themeManager.get (themeManager.toggle (themeManager.toggle w)) = themeManager.get w.
Proof.
  rewrite !themeManager_get_toggle.
  destruct (themeManager_get_two_valued w) as [-> | ->]; reflexivity.
Qed.

(** C4, as amended: for every non-empty stored value under
    [APP_THEME] that is neither [light] nor [dark], [get()] returns
    [light]. *)
Theorem themeManager_get_heals (stored : jsstring) (w : window) :
  getItem themeManager.key w = Some stored ->
  nonempty stored = true ->
  stored <> js "light" -> stored <> js "dark" ->
  themeManager.get w = js "light".
Proof.
  intros Hs Hne Hl Hd. unfold themeManager.get. rewrite Hs, Hne.
  destruct (named_in [js "light"; js "dark"] stored) eqn:E; [|reflexivity].
  apply named_in_spec in E. simpl in E. destruct E as [E|[E|[]]]; congruence.
Qed.

Lemma themeManager_get_heals_witness :
  themeManager.get (setItem themeManager.key (js "blue") (fresh_window (Some true) [] []))
  = js "light".
Proof.
  apply (themeManager_get_heals (js "blue")); [reflexivity|reflexivity|discriminate..].
Defined.

(** C4 as stated fails on the empty string: it is read as no stored
    value, and [get()] returns the preference of the OS. *)
Lemma themeManager_get_empty_stored :
  let w := setItem themeManager.key (js "") (fresh_window (Some true) [] []) in
  getItem themeManager.key w = Some (js "")
  /\ js "" <> js "light" /\ js "" <> js "dark"
  /\ themeManager.get w = js "dark"
  /\ js "dark" <> js "light".
Proof. repeat split; try reflexivity; discriminate. Qed.

(** ** qsm *)

Lemma qsm_read_payload (key : option jsstring) (d : any) (w : window) :
  qsm.read key d w
  = match query_payload w with
    | Throw _ => Normal d
    | Normal obj =>
        if truthy_key key && ToBoolean (Data obj) then
          match property (default [] key) obj with
          | Throw _ => Normal d
          | Normal (Some member) => Normal (if is_nullish member then d else member)
          | Normal None => Normal (if is_nullish (Data obj) then d else Data obj)
          end
        else Normal (if is_nullish (Data obj) then d else Data obj)
    end.
Proof.
  unfold qsm.read, query_payload, try_catch, bind.
  destruct (atob _) as [text|e]; [|done].
  destruct (JSON_parse text) as [obj|e]; [|done].
  destruct (truthy_key key && ToBoolean (Data obj)).
  - destruct (property _ obj) as [[member|]|e]; [| |done].
    + by destruct (is_nullish member).
    + by destruct (is_nullish (Data obj)).
  - by destruct (is_nullish (Data obj)).
Qed.

(** The read path of the codec is total. *)
Lemma qsm_read_total (key : option jsstring) (d : any) (w : window) :
  exists v, qsm.read key d w = Normal v.
Proof.
  rewrite qsm_read_payload.
  destruct (query_payload w) as [obj|e]; [|by eauto].
  destruct (truthy_key key && ToBoolean (Data obj)); [|by eauto].
  destruct (property _ obj) as [[member|]|e]; by eauto.
Qed.

(** A token that is no base64, a decoded text that is no JSON, and a
    [null] payload all read as the default. *)
Lemma qsm_read_default (key : option jsstring) (d : any) (w : window) :
  (exists e, query_payload w = Throw e) \/ query_payload w = Normal JNull ->
  qsm.read key d w = Normal d.
Proof.
  rewrite qsm_read_payload. intros [[e ->]| ->]; [done|].
  by rewrite andb_false_r.
Qed.

(** Decoding the location reproduces the content [gen] encoded. *)
Lemma query_payload_gen (content : json) (prefix : jsstring) (w : window) :
  serializable content = true ->
  qsm.gen (Data content) prefix = Normal (prefix ++ location_search w) ->
  query_payload w = Normal content.
Proof.
  intros Hc Hgen. unfold qsm.gen, bind in Hgen. simpl in Hgen.
  destruct (btoa (SerializeJSONProperty content)) as [token|e] eqn:Eb; [|done].
  injection Hgen as Hgen. apply app_inv_head in Hgen.
  apply btoa_Normal in Eb as [Hbytes ->].
  unfold query_payload, bind. rewrite <- Hgen. simpl slice_from.
  unfold slice_from. simpl drop.
  by rewrite (atob_b64_encode _ Hbytes), (JSON_parse_serialize _ Hc).
Qed.

(** C1, as amended: for every serializable [content] and non-empty
    key [k], when the query of the location is the token
    [qsm.gen(content)] produced, [qsm.read(k, d)] returns [content[k]]
    if [k] is present in the decoded structure with a value that is
    not [null], and [d] if it is present with the value [null]. *)
Theorem qsm_gen_read (content : json) (prefix k : jsstring) (d member : any) (w : window) :
  serializable content = true ->
  qsm.gen (Data content) prefix = Normal (prefix ++ location_search w) ->
  nonempty k = true ->
  property k content = Normal (Some member) ->
  query_payload w = Normal content
  /\ qsm.read (Some k) d w = Normal (if is_nullish member then d else member).
Proof.
  intros Hc Hgen Hk Hm.
  pose proof (query_payload_gen content prefix w Hc Hgen) as Hp.
  split; [done|].
  rewrite qsm_read_payload, Hp. simpl truthy_key. rewrite Hk. simpl default.
  rewrite Hm. by destruct content.
Qed.

Lemma qsm_gen_read_witness :
  let content := JObj [(js "a", JNum 1); (js "b", JStr (js "x"))] in
  let w := with_location (js "?eyJhIjoxLCJiIjoieCJ9") (js "/my-page") (fresh_window None [] []) in
  query_payload w = Normal content
  /\ qsm.read (Some (js "a")) (Data (JNum 0)) w = Normal (Data (JNum 1)).
Proof.
  intros content w.
  apply (qsm_gen_read content (js "/my-page") (js "a") (Data (JNum 0)) (Data (JNum 1)) w);
    reflexivity.
Defined.

(** C1 as stated fails on a key whose value is [null]: the key is
    present, and [read] returns the default instead of [content[k]]. *)
Lemma qsm_gen_read_null_member :
  let content := JObj [(js "a", JNull)] in
  let w := with_location (js "?eyJhIjpudWxsfQ==") (js "/my-page") (fresh_window None [] []) in
  serializable content = true
  /\ qsm.gen (Data content) [] = Normal (location_search w)
  /\ property (js "a") content = Normal (Some (Data JNull))
  /\ qsm.read (Some (js "a")) (Data (JNum 7)) w = Normal (Data (JNum 7))
  /\ Normal (Data (JNum 7)) <> Normal (Data JNull).
Proof. repeat split; try reflexivity; discriminate. Qed.

(** A fraction in the payload: the token of [qsm.gen({a: 0.5})] is
    [eyJhIjowLjV9], and [qsm.read('a', 7)] reads [0.5] from it. *)
Lemma qsm_read_fraction :
  let content := JObj [(js "a", JReal (Dyadic 1 1))] in
  let w := with_location (js "?eyJhIjowLjV9") (js "/my-page") (fresh_window None [] []) in
  serializable content = true
  /\ qsm.gen (Data content) [] = Normal (location_search w)
  /\ qsm.read (Some (js "a")) (Data (JNum 7)) w = Normal (Data (JReal (Dyadic 1 1))).
Proof. by vm_compute. Qed.

(** C5 at a key the payload does not hold: [read] returns the whole
    payload, not the default. *)
Lemma qsm_read_absent_key :
  let content := JObj [(js "a", JNum 1)] in
  let w := with_location (js "?eyJhIjoxfQ==") (js "/my-page") (fresh_window None [] []) in
  qsm.gen (Data content) [] = Normal (location_search w)
  /\ property (js "b") content = Normal None
  /\ qsm.read (Some (js "b")) (Data (JNum 2)) w = Normal (Data content)
  /\ Normal (Data content) <> Normal (Data (JNum 2)).
Proof. repeat split; try reflexivity; discriminate. Qed.

(** C9: [qsm.read('', d)] is [qsm.read(undefined, d)]: the whole
    decoded payload, or [d] when decoding fails or gives [null];
    never a field of the payload. *)
Theorem qsm_read_empty_key (d : any) (w : window) :
  qsm.read (Some []) d w = qsm.read None d w
  /\ qsm.read (Some []) d w
     = match query_payload w with
       | Normal obj => Normal (if is_nullish (Data obj) then d else Data obj)
       | Throw _ => Normal d
       end.
Proof.
  rewrite !qsm_read_payload. split; [reflexivity|].
  by destruct (query_payload w).
Qed.

(** ** Registries *)

Section RegistryFacts.
Context {A : Type}.
Implicit Types (l : list (jsstring * A)) (p q : jsstring) (v : A).

Lemma own_get_replace_ne p q v l :
  p <> q -> own_get p (own_replace q v l) = own_get p l.
Proof.
  intros Hne. apply str_eqb_neq in Hne.
  induction l as [|[k0 v0] r IH]; simpl; [done|].
  destruct (str_eqb q k0) eqn:E; simpl; [|by rewrite IH].
  apply str_eqb_eq in E. subst k0. by rewrite Hne.
Qed.

Lemma own_get_replace p v l :
  has_own p l = true -> own_get p (own_replace p v l) = Some v.
Proof.
  unfold has_own. induction l as [|[k0 v0] r IH]; simpl; [done|].
  destruct (str_eqb p k0) eqn:E; simpl; rewrite E; auto.
Qed.

Lemma keys_own_replace q v l : map fst (own_replace q v l) = map fst l.
Proof.
  induction l as [|[k0 v0] r IH]; simpl; [done|].
  destruct (str_eqb q k0); simpl; by rewrite ?IH.
Qed.

Lemma own_get_insert_index_ne p q v l i :
  p <> q -> own_get p (own_insert_index i q v l) = own_get p l.
Proof.
  intros Hne. apply str_eqb_neq in Hne.
  induction l as [|[k0 v0] r IH]; simpl; [by rewrite Hne|].
  destruct (array_index k0) as [j|]; [destruct (i <? j)%N|]; simpl;
    rewrite ?Hne, ?IH; done.
Qed.

Lemma own_get_insert_index p v l i :
  has_own p l = false -> own_get p (own_insert_index i p v l) = Some v.
Proof.
  unfold has_own. induction l as [|[k0 v0] r IH]; simpl.
  - by rewrite str_eqb_refl.
  - destruct (str_eqb p k0) eqn:E; [done|]. intros H.
    destruct (array_index k0) as [j|]; [destruct (i <? j)%N|]; simpl;
      rewrite ?str_eqb_refl, ?E; auto.
Qed.

Lemma named_in_insert_index k q v l i :
  named_in (map fst (own_insert_index i q v l)) k
  = str_eqb k q || named_in (map fst l) k.
Proof.
  induction l as [|[k0 v0] r IH]; simpl; [done|].
  destruct (array_index k0) as [j|]; [destruct (i <? j)%N|]; simpl; try done.
  rewrite IH. by destruct (str_eqb k k0), (str_eqb k q).
Qed.

Lemma distinct_insert_index q v l i :
  distinct (map fst l) = true -> named_in (map fst l) q = false ->
  distinct (map fst (own_insert_index i q v l)) = true.
Proof.
  induction l as [|[k0 v0] r IH]; simpl; [done|].
  rewrite andb_true_iff, negb_true_iff, orb_false_iff.
  intros [Hk0 Hr] [Hq0 Hqr].
  destruct (array_index k0) as [j|]; [destruct (i <? j)%N|]; simpl;
    rewrite ?Hk0, ?Hr, ?Hq0, ?Hqr; simpl; try done.
  rewrite named_in_insert_index, Hk0, (IH Hr Hqr).
  apply str_eqb_neq in Hq0. assert (E : str_eqb k0 q = false).
  { apply str_eqb_neq. congruence. }
  by rewrite E.
Qed.

Lemma own_get_app_ne p q v l : p <> q -> own_get p (l ++ [(q, v)]) = own_get p l.
Proof.
  intros Hne. apply str_eqb_neq in Hne.
  induction l as [|[k0 v0] r IH]; simpl; [by rewrite Hne|].
  by rewrite IH.
Qed.

Lemma own_get_app p v l : has_own p l = false -> own_get p (l ++ [(p, v)]) = Some v.
Proof.
  unfold has_own. induction l as [|[k0 v0] r IH]; simpl; [by rewrite str_eqb_refl|].
  destruct (str_eqb p k0); [done|auto].
Qed.

Lemma distinct_snoc_intro (ks : list jsstring) (q : jsstring) :
  distinct ks = true -> named_in ks q = false -> distinct (ks ++ [q]) = true.
Proof.
  induction ks as [|k0 r IH]; simpl; [done|].
  rewrite !andb_true_iff, !negb_true_iff, orb_false_iff, named_in_app.
  intros [Hk0 Hr] [Hq0 Hqr]. rewrite Hk0. simpl. rewrite orb_false_r.
  split; [|auto]. apply str_eqb_neq in Hq0. apply str_eqb_neq. congruence.
Qed.

Lemma own_get_CreateDataProperty_ne p q v l :
  p <> q -> own_get p (CreateDataProperty q v l) = own_get p l.
Proof.
  intros Hne. unfold CreateDataProperty.
  destruct (has_own q l); [by apply own_get_replace_ne|].
  destruct (array_index q); [by apply own_get_insert_index_ne|by apply own_get_app_ne].
Qed.

Lemma own_get_CreateDataProperty p v l :
  own_get p (CreateDataProperty p v l) = Some v.
Proof.
  unfold CreateDataProperty.
  destruct (has_own p l) eqn:E; [by apply own_get_replace|].
  destruct (array_index p); [by apply own_get_insert_index|by apply own_get_app].
Qed.

Lemma distinct_CreateDataProperty q v l :
  distinct (map fst l) = true -> distinct (map fst (CreateDataProperty q v l)) = true.
Proof.
  intros H. unfold CreateDataProperty.
  destruct (has_own q l) eqn:E; [by rewrite keys_own_replace|].
  rewrite has_own_named_in in E.
  destruct (array_index q); [by apply distinct_insert_index|].
  rewrite map_app. by apply distinct_snoc_intro.
Qed.

Lemma own_get_delete_ne p q l : p <> q -> own_get p (own_delete q l) = own_get p l.
Proof.
  intros Hne. induction l as [|[k0 v0] r IH]; simpl; [done|].
  destruct (str_eqb q k0) eqn:E; simpl; [|by rewrite IH].
  apply str_eqb_eq in E. subst k0. apply str_eqb_neq in Hne. by rewrite Hne.
Qed.

Lemma own_get_delete_None p q l : own_get p l = None -> own_get p (own_delete q l) = None.
Proof.
  induction l as [|[k0 v0] r IH]; simpl; [done|].
  destruct (str_eqb p k0) eqn:E; [done|]. intros H.
  destruct (str_eqb q k0); simpl; rewrite ?E; auto.
Qed.

Lemma named_in_delete k q l :
  named_in (map fst l) k = false -> named_in (map fst (own_delete q l)) k = false.
Proof.
  induction l as [|[k0 v0] r IH]; simpl; [done|].
  rewrite orb_false_iff. intros [H0 Hr].
  destruct (str_eqb q k0); simpl; rewrite ?H0; auto.
Qed.

Lemma distinct_delete q l :
  distinct (map fst l) = true -> distinct (map fst (own_delete q l)) = true.
Proof.
  induction l as [|[k0 v0] r IH]; simpl; [done|].
  rewrite andb_true_iff, negb_true_iff. intros [H0 Hr].
  destruct (str_eqb q k0); simpl; [done|].
  by rewrite (named_in_delete _ _ _ H0), (IH Hr).
Qed.

Lemma own_get_delete p l :
  distinct (map fst l) = true -> own_get p (own_delete p l) = None.
Proof.
  induction l as [|[k0 v0] r IH]; simpl; [done|].
  rewrite andb_true_iff, negb_true_iff. intros [H0 Hr].
  destruct (str_eqb p k0) eqn:E; simpl.
  - apply str_eqb_eq in E. subst k0. by apply own_get_named_in.
  - rewrite E. auto.
Qed.
End RegistryFacts.

Lemma named_in_proto_not_proto (p : jsstring) :
  named_in Object_prototype p = false -> str_eqb p (js "__proto__") = false.
Proof.
  intros H. destruct (str_eqb p (js "__proto__")) eqn:E; [|done].
  apply str_eqb_eq in E. subst p. discriminate.
Qed.

Lemma Object_prototype_get_None (p : jsstring) :
  named_in Object_prototype p = false -> Object_prototype_get p = None.
Proof.
  intros H. unfold Object_prototype_get.
  by rewrite (named_in_proto_not_proto p H), H.
Qed.

Lemma own_get_object_set_ne (p q : jsstring) (v : json) (l : list (jsstring * json)) :
  p <> q -> own_get p (object_set q v l) = own_get p l.
Proof.
  intros Hne. unfold object_set.
  destruct (has_own q l); [by apply own_get_replace_ne|].
  destruct (str_eqb q (js "__proto__")); [done|].
  by apply own_get_CreateDataProperty_ne.
Qed.

Lemma own_get_object_set (p : jsstring) (v : json) (l : list (jsstring * json)) :
  named_in Object_prototype p = false -> own_get p (object_set p v l) = Some v.
Proof.
  intros Hp. unfold object_set.
  destruct (has_own p l) eqn:E; [by apply own_get_replace|].
  rewrite (named_in_proto_not_proto p Hp). unfold CreateDataProperty. rewrite E.
  destruct (array_index p); [by apply own_get_insert_index|by apply own_get_app].
Qed.

Lemma distinct_object_set (q : jsstring) (v : json) (l : list (jsstring * json)) :
  distinct (map fst l) = true -> distinct (map fst (object_set q v l)) = true.
Proof.
  intros H. unfold object_set.
  destruct (has_own q l); [by rewrite keys_own_replace|].
  destruct (str_eqb q (js "__proto__")); [done|].
  by apply distinct_CreateDataProperty.
Qed.

(** ** Reachable states *)

Lemma fold_callbacks (P : window -> Prop) (cs : list callback) (w : window) :
  (forall c w, P w -> P (run_callback c w)) ->
  P w -> P (fold_left (fun w c => run_callback c w) cs w).
Proof.
  intros Hstep. revert w. induction cs as [|c cs IH]; simpl; auto.
Qed.

Lemma lookup_alter_src (f : audio -> audio) (i h : nat) (l : list audio) (a : audio) :
  (forall a, src (f a) = src a) ->
  l !! h = Some a ->
  exists a', alter f i l !! h = Some a' /\ src a' = src a.
Proof.
  intros Hf Hl. destruct (decide (i = h)) as [->|Hne].
  - exists (f a). by rewrite list_lookup_alter_eq, Hl.
  - exists a. by rewrite list_lookup_alter_ne.
Qed.

Lemma update_audio_ok (f : audio -> audio) (h : nat) (w : window) :
  (forall a, src (f a) = src a) ->
  registries_ok w -> registries_ok (update_audio f h w).
Proof.
  intros Hf (H1 & H2 & H3). unfold registries_ok, update_audio. simpl.
  split; [done|]. split; [done|]. intros url audioEl Hg.
  destruct (H3 url audioEl Hg) as (a & Ha & Hsrc).
  destruct (lookup_alter_src f h audioEl (audios w) a Hf Ha) as (a' & Ha' & Hsrc').
  exists a'. split; [done|congruence].
Qed.

Lemma audio_play_ok (h : nat) (w : window) :
  registries_ok w -> registries_ok (audio_play h w).
Proof. by apply update_audio_ok. Qed.

Lemma audio_pause_ok (h : nat) (w : window) :
  registries_ok w -> registries_ok (audio_pause h w).
Proof. by apply update_audio_ok. Qed.

Lemma audio_set_currentTime_ok (t : Z) (h : nat) (w : window) :
  registries_ok w -> registries_ok (audio_set_currentTime t h w).
Proof. by apply update_audio_ok. Qed.

Lemma createElement_audio_ok (url : jsstring) (w : window) :
  registries_ok w -> registries_ok (snd (createElement_audio url w)).
Proof.
  intros (H1 & H2 & H3). unfold registries_ok. simpl.
  split; [done|]. split; [done|]. intros url' audioEl Hg.
  destruct (H3 url' audioEl Hg) as (a & Ha & Hsrc).
  exists a. split; [|done]. rewrite lookup_app_l; [done|].
  by eapply lookup_lt_Some.
Qed.

(** Caching the element just created for [url]. *)
Lemma cache_audio_ok (url : jsstring) (w : window) :
  registries_ok w ->
  registries_ok
    (with_urls (CreateDataProperty url (fst (createElement_audio url w)) (urls w))
       (snd (createElement_audio url w))).
Proof.
  intros (H1 & H2 & H3). unfold registries_ok. simpl.
  split; [done|]. split; [by apply distinct_CreateDataProperty|].
  intros url' audioEl Hg. destruct (decide (url' = url)) as [->|Hne].
  - rewrite own_get_CreateDataProperty in Hg. injection Hg as <-.
    exists {| src := url; paused := true; currentTime := 0 |}. split; [|done].
    rewrite lookup_app_r by lia. by rewrite Nat.sub_diag.
  - rewrite own_get_CreateDataProperty_ne in Hg by done.
    destruct (H3 url' audioEl Hg) as (a & Ha & Hsrc).
    exists a. split; [|done]. rewrite lookup_app_l; [done|].
    by eapply lookup_lt_Some.
Qed.

Lemma on_audio_ok (url : jsstring) (method : nat -> window -> window) (w : window) :
  (forall h w, registries_ok w -> registries_ok (method h w)) ->
  registries_ok w -> registries_ok (fst (audioPlayer.on_audio url method w)).
Proof.
  intros Hm Hw. unfold audioPlayer.on_audio.
  destruct (own_get url (urls w)); simpl; auto.
Qed.

Lemma on_audio_urls (url : jsstring) (f : audio -> audio) (w : window) :
  urls (fst (audioPlayer.on_audio url (update_audio f) w)) = urls w.
Proof. unfold audioPlayer.on_audio. by destruct (own_get url (urls w)). Qed.

Lemma audioPlayer_call_ok (url : jsstring) (st : option status) (w : window) :
  registries_ok w -> registries_ok (fst (audioPlayer.call url st w)).
Proof.
  intros Hw. unfold audioPlayer.call.
  destruct (nonempty url); simpl; [|done].
  set (w1 := if negb (audioPlayer.in_urls url w) then _ else w).
  assert (Hw1 : registries_ok w1).
  { subst w1. destruct (negb _); [|done]. by apply cache_audio_ok. }
  clearbody w1.
  destruct (default play st) eqn:Est;
    replace (match st with Some s => s | None => play end) with (default play st)
      by (by destruct st); rewrite Est.
  - done.
  - apply on_audio_ok; [apply audio_play_ok|done].
  - apply on_audio_ok; [apply audio_pause_ok|done].
  - pose proof (on_audio_ok url audio_pause w1 audio_pause_ok Hw1) as Hp.
    destruct (audioPlayer.on_audio url audio_pause w1) as [w2 [[]|e]]; simpl in *; [|done].
    apply on_audio_ok; [apply audio_set_currentTime_ok|done].
Qed.

Lemma run_callback_ok (c : callback) (w : window) :
  registries_ok w -> registries_ok (run_callback c w).
Proof.
  intros Hw. destruct c; simpl.
  - unfold scrollBack.restore.
    destruct (object_property _ _); [|done].
    destruct Hw as (H1 & H2 & H3). unfold registries_ok. simpl.
    split; [by apply distinct_delete|done].
  - unfold audioPlayer.setupSound.
    pose proof (createElement_audio_ok audioPlayer.silence w Hw) as H1.
    apply (audio_play_ok (length (audios w))) in H1.
    destruct H1 as (? & ? & ?). by unfold registries_ok.
Qed.

Lemma step_ok (e : event) (w : window) : registries_ok w -> registries_ok (step e w).
Proof.
  intros Hw. destruct e; simpl; try done.
  - unfold run_timer. destruct (timers w) as [|c rest]; [done|].
    by apply run_callback_ok.
  - unfold click. apply fold_callbacks; [apply run_callback_ok|done].
  - unfold storageManager.clear. destruct key as [k|]; [destruct (nonempty k)|]; done.
  - destruct Hw as (H1 & H2 & H3). unfold registries_ok. simpl.
    split; [by apply distinct_object_set|done].
  - by apply audioPlayer_call_ok.
Qed.

Lemma reachable_ok (w : window) : reachable w -> registries_ok w.
Proof.
  induction 1 as [dark search pathname|e w _ IH].
  - unfold registries_ok. simpl. split; [done|]. split; [done|]. intros ? ? H. discriminate.
  - by apply step_ok.
Qed.

Lemma reachable_run (es : list event) (w : window) : reachable w -> reachable (run es w).
Proof.
  revert w. induction es as [|e es IH]; intros w Hw; [done|].
  simpl. apply IH. by constructor.
Qed.

(** ** scrollBack *)

Lemma run_callback_pathname (c : callback) (w : window) :
  location_pathname (run_callback c w) = location_pathname w.
Proof.
  destruct c; simpl.
  - unfold scrollBack.restore. by destruct (object_property _ _).
  - reflexivity.
Qed.

Lemma run_callback_entry_None (p : jsstring) (c : callback) (w : window) :
  entry p w = None -> entry p (run_callback c w) = None.
Proof.
  unfold entry. intros H. destruct c; simpl; [|done].
  unfold scrollBack.restore. destruct (object_property _ _); [|done].
  simpl. by apply own_get_delete_None.
Qed.

Lemma run_callback_entry_keep (p : jsstring) (c : callback) (w : window) :
  is_restore c && str_eqb (location_pathname w) p = false ->
  entry p (run_callback c w) = entry p w.
Proof.
  unfold entry. intros H. destruct c; simpl in *; [|done].
  unfold scrollBack.restore. destruct (object_property _ _); [|done].
  simpl. apply own_get_delete_ne. apply str_eqb_neq in H. congruence.
Qed.

Lemma click_entry_None (p : jsstring) (cs : list callback) (w : window) :
  entry p w = None -> entry p (fold_left (fun w c => run_callback c w) cs w) = None.
Proof.
  apply (fold_callbacks (fun w => entry p w = None)).
  intros c w'. apply run_callback_entry_None.
Qed.

Lemma click_entry_keep (p : jsstring) (cs : list callback) (w : window) :
  existsb is_restore cs && str_eqb (location_pathname w) p = false ->
  entry p (fold_left (fun w c => run_callback c w) cs w) = entry p w.
Proof.
  revert w. induction cs as [|c cs IH]; intros w H; simpl in *; [done|].
  rewrite IH.
  - apply run_callback_entry_keep.
    destruct (is_restore c); [|done]. by simpl in H.
  - rewrite run_callback_pathname.
    destruct (existsb is_restore cs); [|done].
    by rewrite orb_true_r in H.
Qed.

Lemma audioPlayer_call_scrollPositions (url : jsstring) (st : option status) (w : window) :
  scrollPositions (fst (audioPlayer.call url st w)) = scrollPositions w.
Proof.
  unfold audioPlayer.call, audioPlayer.on_audio.
  destruct (nonempty url); [|done]. simpl.
  destruct (negb (audioPlayer.in_urls url w)), st as [[]|]; simpl;
    repeat match goal with
      | |- context [own_get ?k ?l] => destruct (own_get k l)
      end; reflexivity.
Qed.

Lemma step_entry_None (p : jsstring) (e : event) (w : window) :
  saves_at p e w = false -> entry p w = None -> entry p (step e w) = None.
Proof.
  intros Hs H. destruct e; simpl in *; try done.
  - unfold run_timer. destruct (timers w) as [|c rest]; [done|].
    by apply run_callback_entry_None.
  - by apply click_entry_None.
  - unfold storageManager.clear. destruct key as [k|]; [destruct (nonempty k)|]; done.
  - unfold entry in *. simpl. rewrite own_get_object_set_ne; [done|].
    apply str_eqb_neq in Hs. congruence.
  - unfold entry. by rewrite audioPlayer_call_scrollPositions.
Qed.

Lemma step_entry_keep (p : jsstring) (e : event) (w : window) :
  saves_at p e w = false -> restores_at p e w = false ->
  entry p (step e w) = entry p w.
Proof.
  intros Hs Hr. destruct e; simpl in *; try done.
  - unfold run_timer. destruct (timers w) as [|c rest]; [done|].
    by rewrite run_callback_entry_keep.
  - by apply click_entry_keep.
  - unfold storageManager.clear. destruct key as [k|]; [destruct (nonempty k)|]; done.
  - unfold entry in *. simpl. rewrite own_get_object_set_ne; [done|].
    apply str_eqb_neq in Hs. congruence.
  - unfold entry. by rewrite audioPlayer_call_scrollPositions.
Qed.

Lemma run_entry_None (p : jsstring) (es : list event) (w : window) :
  never (saves_at p) es w = true -> entry p w = None -> entry p (run es w) = None.
Proof.
  revert w. induction es as [|e es IH]; intros w Hn H; [done|].
  simpl in *. apply andb_true_iff in Hn as [Hs Hn]. apply negb_true_iff in Hs.
  apply IH; [done|]. by apply step_entry_None.
Qed.

Lemma run_entry_keep (p : jsstring) (es : list event) (w : window) :
  never (fun e w => saves_at p e w || restores_at p e w) es w = true ->
  entry p (run es w) = entry p w.
Proof.
  revert w. induction es as [|e es IH]; intros w Hn; [done|].
  simpl in *. apply andb_true_iff in Hn as [Hs Hn].
  apply negb_true_iff, orb_false_iff in Hs as [Hs Hr].
  rewrite IH by done. by apply step_entry_keep.
Qed.

Lemma scrollBack_save_entry (w : window) :
  named_in Object_prototype (location_pathname w) = false ->
  entry (location_pathname w) (scrollBack.save w) = Some (JNum (scrollY w)).
Proof. intros Hp. unfold entry, scrollBack.save. simpl. by apply own_get_object_set. Qed.

(** The deferred body consumes the entry of the current page. *)
Lemma scrollBack_restore_consumes (w : window) (offset : json) :
  registries_ok w ->
  entry (location_pathname w) w = Some offset ->
  scrollTo_calls (scrollBack.restore w) = (0, Data offset) :: scrollTo_calls w
  /\ entry (location_pathname w) (scrollBack.restore w) = None.
Proof.
  intros (Hd & _) He. unfold entry in *. unfold scrollBack.restore, object_property.
  rewrite He. simpl. split; [done|]. by apply own_get_delete.
Qed.

(** Without an entry for the current page the deferred body does
    nothing. *)
Lemma scrollBack_restore_noop (w : window) :
  named_in Object_prototype (location_pathname w) = false ->
  entry (location_pathname w) w = None ->
  scrollBack.restore w = w.
Proof.
  intros Hp He. unfold entry in *. unfold scrollBack.restore, object_property.
  by rewrite He, (Object_prototype_get_None _ Hp).
Qed.

(** When the oldest timer is the callback of [scrollBack.init], the
    timer event runs the deferred body. *)
Lemma run_timer_restore (w : window) (rest : list callback) :
  timers w = cb_restore :: rest ->
  run_timer w = scrollBack.restore (with_timers rest w).
Proof. intros H. unfold run_timer. by rewrite H. Qed.

(** A path that starts with a slash names no member of
    [Object.prototype]. *)
Lemma page_path_not_inherited (rest : jsstring) :
  named_in Object_prototype (47 :: rest) = false.
Proof.
  destruct (named_in Object_prototype (47 :: rest)) eqn:E; [|done].
  apply named_in_spec in E. simpl in E.
  repeat (destruct E as [E|E]; [discriminate|]). done.
Qed.

(** The life of a checkpoint, for a path that names no member of
    [Object.prototype], which the registry object would inherit. *)
Lemma scrollBack_checkpoint (p : jsstring) (w : window) (es1 es2 : list event)
  (rest rest' : list callback) :
  reachable w ->
  named_in Object_prototype p = false ->
  location_pathname w = p ->
  let w1 := scrollBack.save w in
  never (fun e w => saves_at p e w || restores_at p e w) es1 w1 = true ->
  let w2 := run es1 w1 in
  location_pathname w2 = p ->
  timers w2 = cb_restore :: rest ->
  let w3 := step ev_timer w2 in
  never (saves_at p) es2 w3 = true ->
  let w4 := run es2 w3 in
  location_pathname w4 = p ->
  timers w4 = cb_restore :: rest' ->
  entry p w1 = Some (JNum (scrollY w))
  /\ scrollTo_calls w3 = (0, Data (JNum (scrollY w))) :: scrollTo_calls w2
  /\ entry p w3 = None
  /\ step ev_timer w4 = with_timers rest' w4.
Proof.
  intros Hreach Hp Hpath w1 Hquiet w2 Hpath2 Htimers2 w3 Hnosave w4 Hpath4 Htimers4.
  assert (H1 : entry p w1 = Some (JNum (scrollY w))).
  { subst w1 p. by apply scrollBack_save_entry. }
  assert (H2 : entry p w2 = Some (JNum (scrollY w))).
  { subst w2. by rewrite run_entry_keep. }
  assert (Hok : registries_ok w2).
  { apply reachable_ok. subst w2 w1. apply reachable_run.
    apply (reachable_step ev_scroll_save w Hreach). }
  assert (E3 : w3 = scrollBack.restore (with_timers rest w2)).
  { subst w3. simpl. by apply run_timer_restore. }
  destruct (scrollBack_restore_consumes (with_timers rest w2) (JNum (scrollY w)))
    as [Hcalls Hgone].
  { exact Hok. }
  { simpl. by rewrite Hpath2. }
  simpl location_pathname in Hgone. rewrite Hpath2, <- E3 in Hgone. rewrite <- E3 in Hcalls.
  split; [done|]. split; [done|]. split; [done|].
  simpl. rewrite (run_timer_restore w4 rest' Htimers4).
  apply scrollBack_restore_noop; simpl; rewrite Hpath4; [done|].
  subst w4. by apply run_entry_None.
Qed.

(** C7: for every page path [p], after [save()] has recorded the
    offset of [p], the first timer of [init()] that fires at [p] runs
    a deferred body that calls [scrollTo(0, offset)] with that offset
    and deletes the entry; after that, whatever happens except a
    [save()] at [p], a timer of [init()] that fires at [p] is only
    taken off the queue: its body scrolls nowhere and leaves the
    registry as it is. *)
Theorem scrollBack_restores_once (p : jsstring) (w : window) (es1 es2 : list event)
  (rest rest' : list callback) :
  reachable w ->
  page_path p ->
  location_pathname w = p ->
  let w1 := scrollBack.save w in
  never (fun e w => saves_at p e w || restores_at p e w) es1 w1 = true ->
  let w2 := run es1 w1 in
  location_pathname w2 = p ->
  timers w2 = cb_restore :: rest ->
  let w3 := step ev_timer w2 in
  never (saves_at p) es2 w3 = true ->
  let w4 := run es2 w3 in
  location_pathname w4 = p ->
  timers w4 = cb_restore :: rest' ->
  entry p w1 = Some (JNum (scrollY w))
  /\ scrollTo_calls w3 = (0, Data (JNum (scrollY w))) :: scrollTo_calls w2
  /\ entry p w3 = None
  /\ step ev_timer w4 = with_timers rest' w4.
Proof.
  intros Hreach [tail ->]. apply scrollBack_checkpoint; [done|].
  apply page_path_not_inherited.
Qed.

Lemma scrollBack_restores_once_witness :
  let w := with_scrollY 120 (fresh_window None [] (js "/p")) in
  let es1 := [ev_navigate [] (js "/q"); ev_scroll 30; ev_scroll_save; ev_scroll_init;
              ev_timer; ev_navigate [] (js "/p"); ev_scroll_init] in
  let es2 := [ev_scroll 45; ev_click; ev_navigate [] (js "/q"); ev_scroll_save;
              ev_navigate [] (js "/p"); ev_scroll_init] in
  let w2 := run es1 (scrollBack.save w) in
  let w3 := step ev_timer w2 in
  let w4 := run es2 w3 in
  entry (js "/p") (scrollBack.save w) = Some (JNum 120)
  /\ scrollTo_calls w3 = (0, Data (JNum 120)) :: scrollTo_calls w2
  /\ entry (js "/p") w3 = None
  /\ step ev_timer w4 = with_timers [] w4.
Proof.
  intros w es1 es2 w2 w3 w4.
  apply (scrollBack_restores_once (js "/p") w es1 es2 [] []).
  - apply (reachable_step (ev_scroll 120)). apply reachable_fresh.
  - by exists (js "p").
  - reflexivity.
  - vm_compute. reflexivity.
  - vm_compute. reflexivity.
  - vm_compute. reflexivity.
  - vm_compute. reflexivity.
  - vm_compute. reflexivity.
  - vm_compute. reflexivity.
Defined.

(** ** audioPlayer *)

Lemma transport_urls (st : option status) (h : nat) (w : window) :
  urls (transport st h w) = urls w.
Proof. unfold transport. by destruct (default play st). Qed.

Lemma transport_audios (st : option status) (h : nat) (w : window) :
  length (audios (transport st h w)) = length (audios w).
Proof.
  unfold transport. destruct (default play st); simpl; by rewrite ?length_alter.
Qed.

(** A call for an URL the registry owns runs the status on the cached
    element. *)
Lemma audioPlayer_call_cached (url : jsstring) (st : option status) (h : nat) (w : window) :
  nonempty url = true ->
  own_get url (urls w) = Some h ->
  audioPlayer.call url st w = (transport st h w, Normal tt).
Proof.
  intros Hne Hh. unfold audioPlayer.call, audioPlayer.in_urls, has_own, transport.
  rewrite Hne, Hh. simpl.
  destruct st as [[]|]; simpl; unfold audioPlayer.on_audio; simpl; rewrite ?Hh; try done.
  change (urls (audio_pause h w)) with (urls w). by rewrite Hh.
Qed.

(** A call for an URL the registry only inherits creates nothing and
    leaves the window as it is; unless the status is [load], it ends
    in a [TypeError]. *)
Lemma audioPlayer_call_inherited (url : jsstring) (st : option status) (w : window) :
  nonempty url = true ->
  own_get url (urls w) = None ->
  named_in Object_prototype url = true ->
  fst (audioPlayer.call url st w) = w.
Proof.
  intros Hne Hh Hin. unfold audioPlayer.call, audioPlayer.in_urls, has_own.
  rewrite Hne, Hh, Hin. simpl.
  destruct st as [[]|]; simpl; unfold audioPlayer.on_audio; rewrite ?Hh; done.
Qed.

(** A call for an URL the registry does not hold creates its element
    and caches it. *)
Lemma audioPlayer_call_new (url : jsstring) (st : option status) (w : window) :
  nonempty url = true ->
  audioPlayer.in_urls url w = false ->
  own_get url (urls (fst (audioPlayer.call url st w))) = Some (length (audios w)).
Proof.
  intros Hne Hin. unfold audioPlayer.call. rewrite Hne, Hin. simpl.
  set (w1 := with_urls _ _).
  assert (H1 : own_get url (urls w1) = Some (length (audios w))).
  { subst w1. simpl. apply own_get_CreateDataProperty. }
  clearbody w1.
  destruct st as [[]|]; simpl; unfold audioPlayer.on_audio; rewrite ?H1; simpl; try done.
  change (urls (audio_pause (length (audios w)) w1)) with (urls w1). by rewrite H1.
Qed.

Lemma audioPlayer_call_in_urls (url : jsstring) (st : option status) (w : window) :
  nonempty url = true ->
  audioPlayer.in_urls url (fst (audioPlayer.call url st w)) = true.
Proof.
  intros Hne. destruct (audioPlayer.in_urls url w) eqn:Hin.
  - unfold audioPlayer.in_urls in Hin. apply orb_true_iff in Hin.
    destruct (own_get url (urls w)) as [h|] eqn:Hh.
    + rewrite (audioPlayer_call_cached url st h w Hne Hh). simpl.
      unfold audioPlayer.in_urls, has_own. by rewrite transport_urls, Hh.
    + destruct Hin as [Hin|Hin]; [by unfold has_own in Hin; rewrite Hh in Hin|].
      rewrite (audioPlayer_call_inherited url st w Hne Hh Hin).
      unfold audioPlayer.in_urls. by rewrite Hin, orb_true_r.
  - pose proof (audioPlayer_call_new url st w Hne Hin) as H.
    unfold audioPlayer.in_urls, has_own. by rewrite H.
Qed.

(** For a non-empty URL that names no member of [Object.prototype],
    the registry holds one handle per URL; a call caches a handle for
    the URL, which is an element created for that URL; and a second
    call, with any status, leaves the registry as it is, creates no
    element, and runs its status on that handle. *)
Lemma audioPlayer_memoizes (url : jsstring) (st1 st2 : option status) (w : window) :
  reachable w ->
  nonempty url = true ->
  named_in Object_prototype url = false ->
  let w1 := fst (audioPlayer.call url st1 w) in
  let w2 := fst (audioPlayer.call url st2 w1) in
  List.NoDup (map fst (urls w1))
  /\ exists h a,
       own_get url (urls w1) = Some h
       /\ audios w1 !! h = Some a /\ src a = url
       /\ urls w2 = urls w1
       /\ length (audios w2) = length (audios w1)
       /\ audioPlayer.call url st2 w1 = (transport st2 h w1, Normal tt).
Proof.
  intros Hreach Hne Hown w1 w2.
  assert (Hok : registries_ok w1).
  { apply reachable_ok. apply (reachable_step (ev_audio url st1) w Hreach). }
  split; [apply distinct_NoDup; apply Hok|].
  pose proof (audioPlayer_call_in_urls url st1 w Hne) as Hin. fold w1 in Hin.
  unfold audioPlayer.in_urls, has_own in Hin. rewrite Hown, orb_false_r in Hin.
  destruct (own_get url (urls w1)) as [h|] eqn:Hh; [|done].
  destruct (proj2 (proj2 Hok) url h Hh) as (a & Ha & Hsrc).
  pose proof (audioPlayer_call_cached url st2 h w1 Hne Hh) as Hc.
  exists h, a. subst w2. rewrite Hc. simpl.
  repeat split; try done; [apply transport_urls|apply transport_audios].
Qed.

(** C8 at an URL that names a member of [Object.prototype]:
    [audioPlayer('toString', 'load')] on a page freshly loaded finds
    [url in urls] true, creates no element and caches no handle, and
    the second call, [audioPlayer('toString', 'play')] or
    [audioPlayer('toString')], finds no handle to reuse and throws a
    [TypeError]. *)
Theorem audioPlayer_inherited_url :
  let url := js "toString" in
  let w := fresh_window None [] (js "/p") in
  let w1 := fst (audioPlayer.call url (Some load) w) in
  nonempty url = true
  /\ audioPlayer.in_urls url w = true
  /\ audioPlayer.call url (Some load) w = (w, Normal tt)
  /\ audios w1 = []
  /\ own_get url (urls w1) = None
  /\ audioPlayer.call url (Some play) w1 = (w1, Throw TypeError)
  /\ audioPlayer.call url None w1 = (w1, Throw TypeError).
Proof. by repeat split. Qed.

(** * More of the code *)

(** ** addPluralSuffix and getOrdinalSuffix *)

Lemma endsWith_snoc (s : jsstring) (c c' : Z) : endsWith (s ++ [c']) c = (c' =? c).
Proof. unfold endsWith. by rewrite last_snoc. Qed.

Lemma endsWith_true (s : jsstring) (c : Z) :
  endsWith s c = true -> s = take (length s - 1) s ++ [c].
Proof.
  unfold endsWith. destruct s as [|a s'] using rev_ind; [done|].
  rewrite last_snoc. intros H. apply Z.eqb_eq in H. subst.
  rewrite length_app. simpl.
  replace (length s' + 1 - 1)%nat with (length s') by lia.
  by rewrite take_app_length.
Qed.

(** For every value other than the number 1, the result ends in [s]:
    a final [y] of the entity is replaced by [ies], and any other
    entity, the empty one too, gets an [s] appended. *)
Theorem addPluralSuffix_plural (value : any) (entity : jsstring) :
  value <> Data (JNum 1) ->
  endsWith (addPluralSuffix value entity) 115 = true
  /\ ((exists stem, entity = stem ++ [121]
                    /\ addPluralSuffix value entity = stem ++ js "ies")
      \/ (endsWith entity 121 = false
          /\ addPluralSuffix value entity = entity ++ js "s")).
Proof.
  intros Hv. unfold addPluralSuffix.
  assert (E : match match value with Undefined => Data (JNum 0) | _ => value end with
              | Data (JNum n) => n =? 1
              | _ => false
              end = false).
  { destruct value as [|[]|]; try done.
    destruct (Z.eqb_spec n 1); [congruence|done]. }
  rewrite E. destruct (endsWith entity 121) eqn:Ey.
  - split.
    + change (js "ies") with ([105; 101] ++ [115]). by rewrite app_assoc, endsWith_snoc.
    + left. exists (take (length entity - 1) entity). split; [|done].
      by apply endsWith_true.
  - split; [apply endsWith_snoc|]. by right.
Qed.

Lemma addPluralSuffix_plural_witness :
  endsWith (addPluralSuffix (Data (JNum 2)) (js "entry")) 115 = true
  /\ ((exists stem, js "entry" = stem ++ [121]
                    /\ addPluralSuffix (Data (JNum 2)) (js "entry") = stem ++ js "ies")
      \/ (endsWith (js "entry") 121 = false
          /\ addPluralSuffix (Data (JNum 2)) (js "entry") = js "entry" ++ js "s")).
Proof. apply (addPluralSuffix_plural (Data (JNum 2)) (js "entry")). discriminate. Defined.

(** For every natural number up to [2^53 - 90], for which the sum
    [n + 90] is exact, the suffix is the English one: [st], [nd], [rd]
    after a last digit 1, 2, 3, except in the teens 11, 12 and 13, and
    [th] otherwise. *)
Theorem getOrdinalSuffix_natural (n : Z) :
  0 <= n <= 9007199254740902 ->
  getOrdinalSuffix n
  = if (n mod 10 =? 1) && negb (n mod 100 =? 11) then js "st"
    else if (n mod 10 =? 2) && negb (n mod 100 =? 12) then js "nd"
    else if (n mod 10 =? 3) && negb (n mod 100 =? 13) then js "rd"
    else js "th".
Proof.
  intros Hn. unfold getOrdinalSuffix.
  rewrite binary64_integer by (change (2 ^ 53) with 9007199254740992; lia).
  set (index := Z.rem (Z.rem (n + 90) 100 - 10) 10 - 1).
  assert (H : (index = 0 /\ n mod 10 = 1 /\ n mod 100 <> 11)
              \/ (index = 1 /\ n mod 10 = 2 /\ n mod 100 <> 12)
              \/ (index = 2 /\ n mod 10 = 3 /\ n mod 100 <> 13)
              \/ ((index < 0 \/ 2 < index)
                  /\ (n mod 10 = 1 -> n mod 100 = 11)
                  /\ (n mod 10 = 2 -> n mod 100 = 12)
                  /\ (n mod 10 = 3 -> n mod 100 = 13)
                  /\ (n mod 10 <> 1 \/ n mod 100 = 11)
                  /\ (n mod 10 <> 2 \/ n mod 100 = 12)
                  /\ (n mod 10 <> 3 \/ n mod 100 = 13))).
  { subst index. Z.quot_rem_to_equations. Z.div_mod_to_equations. lia. }
  destruct H as [(-> & H1 & H2)|[(-> & H1 & H2)|[(-> & H1 & H2)|(Hi & H1 & H2 & H3 & _)]]].
  - rewrite H1. simpl. by destruct (Z.eqb_spec (n mod 100) 11).
  - rewrite H1. simpl. by destruct (Z.eqb_spec (n mod 100) 12).
  - rewrite H1. simpl. by destruct (Z.eqb_spec (n mod 100) 13).
  - assert (E : (if 0 <=? index
                 then nth_error [js "st"; js "nd"; js "rd"] (Z.to_nat index)
                 else None) = None).
    { destruct (Z.leb_spec 0 index); [|done].
      apply nth_error_None. simpl. lia. }
    rewrite E.
    destruct (Z.eqb_spec (n mod 10) 1), (Z.eqb_spec (n mod 10) 2),
      (Z.eqb_spec (n mod 10) 3), (Z.eqb_spec (n mod 100) 11),
      (Z.eqb_spec (n mod 100) 12), (Z.eqb_spec (n mod 100) 13); simpl; try done; lia.
Qed.

Lemma getOrdinalSuffix_natural_witness :
  getOrdinalSuffix 112
  = if (112 mod 10 =? 1) && negb (112 mod 100 =? 11) then js "st"
    else if (112 mod 10 =? 2) && negb (112 mod 100 =? 12) then js "nd"
    else if (112 mod 10 =? 3) && negb (112 mod 100 =? 13) then js "rd"
    else js "th".
Proof. apply (getOrdinalSuffix_natural 112). lia. Defined.

(** Beyond that bound the sum is rounded: for the safe integer
    [2^53 - 89], which ends in 03, it is [2^53], which ends in 92. *)
Lemma getOrdinalSuffix_rounded_sum : getOrdinalSuffix 9007199254740903 = js "nd".
Proof. by vm_compute. Qed.

(** ** arrangeObjects *)

Lemma strict_equals_value (v v' : any) (id : primitive) :
  strict_equals v id = true -> strict_equals v' id = true -> v = v'.
Proof.
  destruct v as [|[| | | | | |]|], v' as [|[| | | | | |]|], id; simpl; try done.
  - intros H1 H2. apply Bool.eqb_prop in H1, H2. congruence.
  - intros H1 H2. apply Z.eqb_eq in H1, H2. congruence.
  - intros H1 H2. apply nonintegral_eqb_eq in H1, H2. congruence.
  - intros H1 H2. apply str_eqb_eq in H1, H2. congruence.
Qed.

Lemma strict_equals_id (v : any) (id id' : primitive) :
  strict_equals v id = true -> strict_equals v id' = true -> id = id'.
Proof.
  destruct v as [|[| | | | | |]|], id, id'; simpl; try done.
  - intros H1 H2. apply Bool.eqb_prop in H1, H2. congruence.
  - intros H1 H2. apply Z.eqb_eq in H1, H2. congruence.
  - intros H1 H2. apply nonintegral_eqb_eq in H1, H2. congruence.
  - intros H1 H2. apply str_eqb_eq in H1, H2. congruence.
Qed.

Lemma find_elem_of {A : Type} (f : A -> bool) (l : list A) (x : A) :
  List.find f l = Some x -> x ∈ l /\ f x = true.
Proof. intros H. apply find_some in H as [H1 H2]. by apply list_elem_of_In in H1. Qed.

Lemma find_is_Some {A : Type} (f : A -> bool) (l : list A) (x : A) :
  x ∈ l -> f x = true -> exists y, List.find f l = Some y.
Proof.
  intros Hx Hf. destruct (List.find f l) as [y|] eqn:E; [by eauto|].
  apply list_elem_of_In in Hx. pose proof (find_none f l E x Hx). congruence.
Qed.

(** The result holds, in the order of the sequence, one object for
    each id that is the [key] of some object of the array, and every
    object of the result is the first of the array with that [key];
    the ids no object has are dropped. *)
Theorem arrangeObjects_found (ids : list primitive)
  (array : list (list (jsstring * json))) (key : jsstring) :
  Forall2
    (fun obj id =>
       List.find (fun o => strict_equals (object_get key o) id) array = Some obj
       /\ strict_equals (object_get key obj) id = true /\ obj ∈ array)
    (arrangeObjects ids array key)
    (List.filter
       (fun id => existsb (fun o => strict_equals (object_get key o) id) array) ids).
Proof.
  unfold arrangeObjects. induction ids as [|id ids IH]; simpl; [constructor|].
  destruct (List.find _ array) as [obj|] eqn:E.
  - destruct (find_elem_of _ _ _ E) as [Hin Hm].
    assert (Hex : existsb (fun o => strict_equals (object_get key o) id) array = true).
    { apply existsb_exists. exists obj. split; [by apply list_elem_of_In|done]. }
    rewrite Hex. by constructor.
  - assert (Hex : existsb (fun o => strict_equals (object_get key o) id) array = false).
    { destruct (existsb _ array) eqn:Hex; [|done].
      apply existsb_exists in Hex as (o & Ho & Hm).
      pose proof (find_none _ _ E o Ho) as Hn. simpl in Hn. congruence. }
    by rewrite Hex.
Qed.

Lemma NoDup_fmap_eq {A B : Type} (f : A -> B) (l : list A) (x y : A) :
  NoDup (f <$> l) -> x ∈ l -> y ∈ l -> f x = f y -> x = y.
Proof.
  induction l as [|a l IH]; intros Hnd Hx Hy Hf; [by apply elem_of_nil in Hx|].
  rewrite fmap_cons in Hnd. apply NoDup_cons in Hnd as [Ha Hnd].
  apply elem_of_cons in Hx as [->|Hx], Hy as [->|Hy]; auto.
  - exfalso. apply Ha. rewrite Hf. by apply list_elem_of_fmap_2.
  - exfalso. apply Ha. rewrite <- Hf. by apply list_elem_of_fmap_2.
Qed.

Lemma NoDup_omap {A B : Type} (f : A -> option B) (l : list A) :
  NoDup l -> (forall x y z, f x = Some z -> f y = Some z -> x = y) -> NoDup (omap f l).
Proof.
  intros Hnd Hinj. induction Hnd as [|x l Hx Hnd IH]; simpl; [constructor|].
  destruct (f x) as [z|] eqn:E; [|done].
  apply NoDup_cons. split; [|done].
  rewrite list_elem_of_omap. intros (y & Hy & E').
  assert (x = y) by eauto. by subst.
Qed.

Lemma Forall2_omap {A B : Type} (f : A -> option B) (P : B -> A -> Prop) (l : list A) :
  (forall x, x ∈ l -> exists y, f x = Some y /\ P y x) -> Forall2 P (omap f l) l.
Proof.
  induction l as [|x l IH]; intros H; simpl; [constructor|].
  destruct (H x) as (y & -> & Hy); [by left|].
  constructor; [done|]. apply IH. intros x' Hx'. apply H. by right.
Qed.

(** When the objects have distinct [key]s and the sequence lists
    exactly those [key]s, each once, the result is the array in the
    order of the sequence. *)
Theorem arrangeObjects_rearranges (ids : list primitive)
  (array : list (list (jsstring * json))) (key : jsstring) :
  NoDup ids ->
  NoDup (object_get key <$> array) ->
  (forall id, id ∈ ids ->
     exists obj, obj ∈ array /\ strict_equals (object_get key obj) id = true) ->
  (forall obj, obj ∈ array ->
     exists id, id ∈ ids /\ strict_equals (object_get key obj) id = true) ->
  arrangeObjects ids array key ≡ₚ array
  /\ Forall2 (fun obj id => strict_equals (object_get key obj) id = true)
       (arrangeObjects ids array key) ids.
Proof.
  intros Hids Hkeys Hall Hcover.
  assert (Hf : forall id obj,
             List.find (fun o => strict_equals (object_get key o) id) array = Some obj ->
             obj ∈ array /\ strict_equals (object_get key obj) id = true).
  { intros id obj H. by apply find_elem_of in H. }
  assert (Hmem : forall x, x ∈ arrangeObjects ids array key <-> x ∈ array).
  { intros x. unfold arrangeObjects. rewrite list_elem_of_omap. split.
    - intros (id & _ & H). by apply Hf in H as [? _].
    - intros Hx. destruct (Hcover x Hx) as (id & Hid & Hm).
      exists id. split; [done|].
      destruct (find_is_Some (fun o => strict_equals (object_get key o) id) array x Hx Hm)
        as [y Hy].
      rewrite Hy. f_equal. destruct (Hf id y Hy) as [Hyin Hym].
      apply (NoDup_fmap_eq (object_get key) array); try done.
      by eapply strict_equals_value. }
  split.
  - apply NoDup_Permutation; [|by eapply NoDup_fmap_1|done].
    apply NoDup_omap; [done|]. intros id id' x E E'.
    apply Hf in E as [_ E], E' as [_ E']. by eapply strict_equals_id.
  - apply Forall2_omap. intros id Hid.
    destruct (Hall id Hid) as (obj & Hobj & Hm).
    destruct (find_is_Some (fun o => strict_equals (object_get key o) id) array obj Hobj Hm)
      as [y Hy].
    exists y. split; [done|]. by apply Hf in Hy as [_ ?].
Qed.

Lemma arrangeObjects_rearranges_witness :
  let a := [(js "id", JNum 1); (js "name", JStr (js "one"))] in
  let b := [(js "id", JNum 2); (js "name", JStr (js "two"))] in
  let c := [(js "id", JNum 3)] in
  arrangeObjects [PNum 3; PNum 1; PNum 2] [a; b; c] (js "id") ≡ₚ [a; b; c]
  /\ Forall2 (fun obj id => strict_equals (object_get (js "id") obj) id = true)
       (arrangeObjects [PNum 3; PNum 1; PNum 2] [a; b; c] (js "id"))
       [PNum 3; PNum 1; PNum 2].
Proof.
  intros a b c.
  apply (arrangeObjects_rearranges [PNum 3; PNum 1; PNum 2] [a; b; c] (js "id")).
  - repeat (apply NoDup_cons; split;
            [rewrite ?elem_of_cons, elem_of_nil; intuition discriminate|]).
    apply NoDup_nil_2.
  - vm_compute.
    repeat (apply NoDup_cons; split;
            [rewrite ?elem_of_cons, elem_of_nil; intuition discriminate|]).
    apply NoDup_nil_2.
  - intros id Hid.
    repeat (apply elem_of_cons in Hid as [->|Hid]);
      [exists c|exists a|exists b|by apply elem_of_nil in Hid];
      (split; [rewrite !elem_of_cons; tauto|reflexivity]).
  - intros obj Hobj.
    repeat (apply elem_of_cons in Hobj as [->|Hobj]);
      [exists (PNum 1)|exists (PNum 2)|exists (PNum 3)|by apply elem_of_nil in Hobj];
      (split; [rewrite !elem_of_cons; tauto|reflexivity]).
Defined.

(** ** removeDuplicates *)

Lemma indices_then_names_snoc_name (ks : list jsstring) (k : jsstring) (lo : N) :
  indices_then_names lo ks = true -> array_index k = None ->
  indices_then_names lo (ks ++ [k]) = true.
Proof.
  revert lo. induction ks as [|k0 r IH]; intros lo H Hk; simpl in *.
  - by rewrite Hk.
  - destruct (array_index k0) as [j|].
    + apply andb_true_iff in H as [H1 H2]. rewrite H1. simpl. auto.
    + rewrite forallb_app, H. simpl. unfold is_index. by rewrite Hk.
Qed.

Lemma indices_then_names_insert_index {A : Type} (l : list (jsstring * A))
  (k : jsstring) (v : A) (lo i : N) :
  indices_then_names lo (map fst l) = true ->
  array_index k = Some i -> (lo <= i)%N ->
  named_in (map fst l) k = false ->
  indices_then_names lo (map fst (own_insert_index i k v l)) = true.
Proof.
  revert lo. induction l as [|[k0 v0] r IH]; intros lo H Hk Hlo Hin; simpl in *.
  - rewrite Hk. apply andb_true_iff. split; [by apply N.leb_le|done].
  - apply orb_false_iff in Hin as [Hk0 Hin].
    destruct (array_index k0) as [j|] eqn:E0.
    + apply andb_true_iff in H as [H1 H2].
      destruct (N.ltb_spec i j) as [Hlt|Hge]; simpl.
      * rewrite Hk, E0, H2. apply N.leb_le in H1.
        rewrite !andb_true_iff, !N.leb_le. lia.
      * rewrite E0, H1. simpl. apply IH; [done..| |done].
        assert (i <> j).
        { intros ->. apply str_eqb_neq in Hk0. apply Hk0.
          by eapply array_index_inj. }
        lia.
    + simpl. rewrite Hk, E0. apply andb_true_iff. split; [by apply N.leb_le|done].
Qed.

Lemma own_keys_ok_CreateDataProperty {A : Type} (l : list (jsstring * A))
  (k : jsstring) (v : A) :
  own_keys_ok (map fst l) = true ->
  own_keys_ok (map fst (CreateDataProperty k v l)) = true.
Proof.
  unfold own_keys_ok. rewrite !andb_true_iff. intros [Hd Hi].
  split; [by apply distinct_CreateDataProperty|].
  unfold CreateDataProperty. destruct (has_own k l) eqn:E.
  - by rewrite keys_own_replace.
  - rewrite has_own_named_in in E. destruct (array_index k) as [i|] eqn:Ei.
    + apply indices_then_names_insert_index; [done..|lia|done].
    + rewrite map_app. by apply indices_then_names_snoc_name.
Qed.

Lemma elem_of_own_replace {A : Type} (l : list (jsstring * A)) (k : jsstring) (v : A)
  (p : jsstring * A) :
  p ∈ own_replace k v l -> p = (k, v) \/ p ∈ l.
Proof.
  induction l as [|[k0 v0] r IH]; simpl; [by right|].
  destruct (str_eqb k k0) eqn:E.
  - apply str_eqb_eq in E. subst k0. rewrite !elem_of_cons. tauto.
  - rewrite !elem_of_cons. intros [->|H]; [tauto|]. apply IH in H. tauto.
Qed.

Lemma elem_of_own_insert_index {A : Type} (l : list (jsstring * A)) (k : jsstring)
  (v : A) (i : N) (p : jsstring * A) :
  p ∈ own_insert_index i k v l -> p = (k, v) \/ p ∈ l.
Proof.
  induction l as [|[k0 v0] r IH]; simpl.
  - rewrite elem_of_cons. tauto.
  - destruct (array_index k0) as [j|]; [destruct (i <? j)%N|];
      rewrite !elem_of_cons; tauto.
Qed.

Lemma elem_of_CreateDataProperty {A : Type} (l : list (jsstring * A)) (k : jsstring)
  (v : A) (p : jsstring * A) :
  p ∈ CreateDataProperty k v l -> p = (k, v) \/ p ∈ l.
Proof.
  unfold CreateDataProperty. destruct (has_own k l); [apply elem_of_own_replace|].
  destruct (array_index k); [apply elem_of_own_insert_index|].
  rewrite elem_of_app, list_elem_of_singleton. tauto.
Qed.

Lemma own_get_elem_of {A : Type} (l : list (jsstring * A)) (k : jsstring) (v : A) :
  own_get k l = Some v -> (k, v) ∈ l.
Proof.
  induction l as [|[k0 v0] r IH]; simpl; [done|].
  destruct (str_eqb k k0) eqn:E.
  - apply str_eqb_eq in E. intros [= ->]. subst. by left.
  - intros H. right. auto.
Qed.

Lemma elem_of_own_get {A : Type} (l : list (jsstring * A)) (k : jsstring) (v : A) :
  distinct (map fst l) = true -> (k, v) ∈ l -> own_get k l = Some v.
Proof.
  induction l as [|[k0 v0] r IH]; simpl; [by intros _ ?%elem_of_nil|].
  rewrite andb_true_iff, negb_true_iff. intros [H0 Hr] Hin.
  apply elem_of_cons in Hin as [[= -> ->]|Hin]; [by rewrite str_eqb_refl|].
  destruct (str_eqb k k0) eqn:E; [|auto].
  apply str_eqb_eq in E. subst k0.
  assert (named_in (map fst r) k = true); [|congruence].
  apply named_in_spec, list_elem_of_In. by apply (list_elem_of_fmap_2 fst) in Hin.
Qed.

Lemma indices_sorted (ks : list jsstring) (idx : list N) (lo : N) :
  indices_then_names lo ks = true ->
  Forall2 (fun k i => array_index k = Some i) ks idx ->
  Forall (fun i => (lo <= i)%N) idx /\ Sorted N.lt idx.
Proof.
  intros H Hf. revert lo H. induction Hf as [|k i ks idx Hk _ IH]; intros lo H; simpl in H.
  - by split.
  - rewrite Hk in H. apply andb_true_iff in H as [H1 H2]. apply N.leb_le in H1.
    destruct (IH _ H2) as [Hge Hs]. split.
    + constructor; [done|]. eapply Forall_impl; [exact Hge|]. simpl. intros. lia.
    + constructor; [done|]. destruct Hge; constructor. lia.
Qed.

Section RemoveDuplicates.

Variable native_source : jsstring -> jsstring.
Variable key : jsstring.

(** The property key an object is filed under. *)
Let key_of (x : list (jsstring * json)) : completion jsstring :=
  ToPropertyKey native_source (object_get key x).

(** What the loop keeps true of [keyObjectMap]: its keys are in
    enumeration order, and each object is filed under its own
    key. *)
Let filed (array : list (list (jsstring * json))) (m : object_map) : Prop :=
  own_keys_ok (map fst (map_own m)) = true
  /\ Forall (fun p => key_of (snd p) = Normal (fst p) /\ snd p ∈ array) (map_own m).

(** No property named [__proto__] hides the accessor. *)
Let setter_in_reach (m : object_map) : Prop :=
  has_own (js "__proto__") (map_own m) = false
  /\ match map_prototype m with
     | Some prototype => has_own (js "__proto__") prototype = false
     | None => True
     end.

Lemma keyObjectMap_set_filed (array : list (list (jsstring * json)))
  (m : object_map) (x : list (jsstring * json)) (k : jsstring) :
  filed array m -> key_of x = Normal k -> x ∈ array ->
  filed array (keyObjectMap_set k x m).
Proof.
  intros [Hok Hall] Hk Hx. unfold keyObjectMap_set.
  destruct (reaches_setter k m); [done|].
  split; simpl; [by apply own_keys_ok_CreateDataProperty|].
  apply List.Forall_forall. intros p Hp. apply list_elem_of_In in Hp.
  apply elem_of_CreateDataProperty in Hp as [->|Hp]; [done|].
  rewrite List.Forall_forall in Hall. apply Hall. by apply list_elem_of_In.
Qed.

Lemma removeDuplicates_loop_filed (all array : list (list (jsstring * json)))
  (m m' : object_map) :
  (forall x, x ∈ array -> x ∈ all) ->
  filed all m ->
  removeDuplicates_loop native_source array key m = Normal m' ->
  filed all m'.
Proof.
  revert m. induction array as [|x rest IH]; intros m Hsub Hm H; simpl in H.
  - by injection H as <-.
  - unfold bind in H. destruct (ToPropertyKey native_source (object_get key x)) as [k|e] eqn:E;
      [|done].
    eapply IH; [| |exact H].
    + intros y Hy. apply Hsub. by right.
    + apply keyObjectMap_set_filed; [done..|]. apply Hsub. by left.
Qed.

Lemma removeDuplicates_filed (array : list (list (jsstring * json))) (m : object_map) :
  removeDuplicates_loop native_source array key {| map_prototype := None; map_own := [] |}
  = Normal m ->
  filed array m.
Proof.
  intros E. eapply (removeDuplicates_loop_filed array array); [done| |exact E].
  by split.
Qed.

Lemma removeDuplicates_loop_app (pre post : list (list (jsstring * json)))
  (m : object_map) :
  removeDuplicates_loop native_source (pre ++ post) key m
  = (m1 <- removeDuplicates_loop native_source pre key m ;;
     removeDuplicates_loop native_source post key m1).
Proof.
  revert m. induction pre as [|x pre IH]; intros m; simpl; [done|].
  unfold bind at 1 3. by destruct (ToPropertyKey native_source (object_get key x)).
Qed.

Lemma removeDuplicates_loop_keep (post : list (list (jsstring * json)))
  (m m' : object_map) (k : jsstring) :
  Forall (fun z => key_of z <> Normal k) post ->
  removeDuplicates_loop native_source post key m = Normal m' ->
  own_get k (map_own m') = own_get k (map_own m).
Proof.
  revert m. induction post as [|z post IH]; intros m Hpost H; simpl in H.
  - by injection H as <-.
  - apply Forall_cons_1 in Hpost as [Hz Hpost]. unfold bind in H.
    destruct (ToPropertyKey native_source (object_get key z)) as [kz|e] eqn:E; [|done].
    rewrite (IH _ Hpost H). unfold keyObjectMap_set.
    destruct (reaches_setter kz m); [done|]. simpl.
    apply own_get_CreateDataProperty_ne. intros ->. by apply Hz.
Qed.

(** The objects of the result are objects of the array, filed under
    keys that differ from one another. *)
Theorem removeDuplicates_distinct (array result : list (list (jsstring * json))) :
  removeDuplicates native_source array key = Normal result ->
  exists ks,
    Forall2 (fun x k => ToPropertyKey native_source (object_get key x) = Normal k)
      result ks
    /\ NoDup ks
    /\ forall x, x ∈ result -> x ∈ array.
Proof.
  unfold removeDuplicates, bind. intros H.
  destruct (removeDuplicates_loop native_source array key _) as [m|e] eqn:E; [|done].
  injection H as <-.
  destruct (removeDuplicates_filed array m E) as [Hok Hall].
  exists (map fst (map_own m)). split; [|split].
  - clear Hok E. induction Hall as [|p l (Hp & _) _ IH]; simpl; by constructor.
  - unfold own_keys_ok in Hok. apply andb_true_iff in Hok as [Hd _].
    by apply NoDup_ListNoDup, distinct_NoDup.
  - intros x Hx. apply list_elem_of_fmap in Hx as (p & -> & Hp).
    rewrite List.Forall_forall in Hall. apply list_elem_of_In in Hp.
    by apply Hall in Hp as (_ & ?).
Qed.

(** Of the objects filed under one key other than [__proto__], the
    last of the array is in the result, and no other. *)
Theorem removeDuplicates_last_wins (pre post : list (list (jsstring * json)))
  (y : list (jsstring * json)) (k : jsstring) (result : list (list (jsstring * json))) :
  removeDuplicates native_source (pre ++ y :: post) key = Normal result ->
  ToPropertyKey native_source (object_get key y) = Normal k ->
  k <> js "__proto__" ->
  Forall (fun z => ToPropertyKey native_source (object_get key z) <> Normal k) post ->
  y ∈ result
  /\ forall x, x ∈ result ->
       ToPropertyKey native_source (object_get key x) = Normal k -> x = y.
Proof.
  unfold removeDuplicates, bind. intros H Hy Hk Hpost.
  destruct (removeDuplicates_loop native_source (pre ++ y :: post) key _) as [m|e] eqn:E;
    [|done].
  injection H as <-.
  pose proof (removeDuplicates_filed _ m E) as Hm.
  rewrite removeDuplicates_loop_app in E. unfold bind in E.
  destruct (removeDuplicates_loop native_source pre key _) as [m1|e] eqn:E1; [|done].
  simpl in E. unfold bind in E. rewrite Hy in E.
  assert (Hget : own_get k (map_own m) = Some y).
  { rewrite (removeDuplicates_loop_keep post _ m k Hpost E).
    unfold keyObjectMap_set, reaches_setter. apply str_eqb_neq in Hk. rewrite Hk.
    simpl. apply own_get_CreateDataProperty. }
  split.
  - apply own_get_elem_of in Hget. by apply (list_elem_of_fmap_2 snd) in Hget.
  - intros x Hx Hkx. apply list_elem_of_fmap in Hx as ([k' x'] & -> & Hp). simpl in *.
    destruct Hm as [Hok Hall]. rewrite List.Forall_forall in Hall.
    pose proof Hp as Hp'. apply list_elem_of_In in Hp'. apply Hall in Hp' as (Hk' & _).
    simpl in Hk'. unfold key_of in Hk'. rewrite Hkx in Hk'. injection Hk' as <-.
    unfold own_keys_ok in Hok. apply andb_true_iff in Hok as [Hd _].
    pose proof (elem_of_own_get (map_own m) k x' Hd Hp). congruence.
Qed.

Lemma removeDuplicates_loop_ordered (l acc : list (jsstring * list (jsstring * json)))
  (prototype : option (list (jsstring * json))) :
  own_keys_ok (map fst (acc ++ l)) = true ->
  Forall (fun p => key_of (snd p) = Normal (fst p) /\ fst p <> js "__proto__") l ->
  removeDuplicates_loop native_source (map snd l) key
    {| map_prototype := prototype; map_own := acc |}
  = Normal {| map_prototype := prototype; map_own := acc ++ l |}.
Proof.
  revert acc. induction l as [|[k x] l IH]; intros acc Hok Hall; simpl.
  - by rewrite app_nil_r.
  - apply Forall_cons_1 in Hall as [[Hk Hne] Hall]. simpl in Hk, Hne.
    unfold key_of in Hk. unfold bind. rewrite Hk.
    unfold keyObjectMap_set, reaches_setter. apply str_eqb_neq in Hne. rewrite Hne.
    simpl.
    replace (acc ++ (k, x) :: l) with ((acc ++ [(k, x)]) ++ l) in Hok |- *
      by (by rewrite <- app_assoc).
    rewrite CreateDataProperty_last.
    + by apply IH.
    + rewrite map_app in Hok. by apply own_keys_ok_app_l in Hok.
Qed.

(** An array whose objects are filed under distinct keys that are
    already in enumeration order (the array indices first and
    ascending, then the other names), none of them [__proto__],
    comes back as it is. *)
Theorem removeDuplicates_unchanged (array : list (list (jsstring * json)))
  (ks : list jsstring) :
  Forall2 (fun x k => ToPropertyKey native_source (object_get key x) = Normal k)
    array ks ->
  own_keys_ok ks = true ->
  js "__proto__" ∉ ks ->
  removeDuplicates native_source array key = Normal array.
Proof.
  intros Hks Hok Hproto. unfold removeDuplicates.
  assert (E : exists l : list (jsstring * list (jsstring * json)),
             map fst l = ks /\ map snd l = array
             /\ Forall (fun p => key_of (snd p) = Normal (fst p)
                                 /\ fst p <> js "__proto__") l).
  { clear Hok. induction Hks as [|x k array ks Hk _ IH].
    - by exists [].
    - destruct IH as (l & <- & <- & Hl).
      { intros H. apply Hproto. by right. }
      exists ((k, x) :: l). split; [done|]. split; [done|].
      constructor; [|done].
      split; [done|]. simpl. intros ->. apply Hproto. by left. }
  destruct E as (l & <- & <- & Hl).
  by rewrite (removeDuplicates_loop_ordered l [] None).
Qed.

(** When every object is filed under an array index, as under a
    natural number below [2^32 - 1], the result is in ascending
    order of the indices, whatever the order of the array. *)
Theorem removeDuplicates_sorts_indices (array result : list (list (jsstring * json)))
  (idx : list N) :
  removeDuplicates native_source array key = Normal result ->
  Forall2
    (fun x i => exists k, ToPropertyKey native_source (object_get key x) = Normal k
                          /\ array_index k = Some i)
    result idx ->
  Sorted N.lt idx.
Proof.
  unfold removeDuplicates, bind. intros H His.
  destruct (removeDuplicates_loop native_source array key _) as [m|e] eqn:E; [|done].
  injection H as <-.
  destruct (removeDuplicates_filed array m E) as [Hok Hall]. unfold own_keys_ok in Hok.
  apply andb_true_iff in Hok as [_ Hi].
  apply (indices_sorted (map fst (map_own m)) idx 0 Hi).
  clear Hi E. revert idx His.
  induction Hall as [|p l (Hp & _) _ IH]; intros idx His; simpl in *.
  - inversion His. constructor.
  - inversion His as [|? i ? idx' (k & Hk & Hik) Hrest]; subst.
    constructor; [|by apply IH].
    unfold key_of in Hp. congruence.
Qed.

Lemma keyObjectMap_set_setter_in_reach (m : object_map) (x : list (jsstring * json))
  (k : jsstring) :
  has_own (js "__proto__") x = false ->
  setter_in_reach m -> setter_in_reach (keyObjectMap_set k x m).
Proof.
  intros Hx [Hown Hp]. unfold keyObjectMap_set, reaches_setter.
  destruct (str_eqb k (js "__proto__")) eqn:Ek.
  - apply str_eqb_eq in Ek. subst k. rewrite Hown.
    destruct (map_prototype m) as [prototype|]; [rewrite Hp|]; by split.
  - simpl. split; [|done]. simpl. unfold has_own.
    rewrite own_get_CreateDataProperty_ne; [done|].
    apply str_eqb_neq in Ek. congruence.
Qed.

Lemma removeDuplicates_loop_setter_in_reach (array : list (list (jsstring * json)))
  (m m' : object_map) :
  Forall (fun x => has_own (js "__proto__") x = false) array ->
  setter_in_reach m ->
  removeDuplicates_loop native_source array key m = Normal m' ->
  setter_in_reach m'.
Proof.
  revert m. induction array as [|x rest IH]; intros m Harr Hm H; simpl in H.
  - by injection H as <-.
  - apply Forall_cons_1 in Harr as [Hx Harr]. unfold bind in H.
    destruct (ToPropertyKey native_source (object_get key x)) as [k|e]; [|done].
    eapply IH; [done| |exact H]. by apply keyObjectMap_set_setter_in_reach.
Qed.

(** An object filed under [__proto__] is lost: when no object of
    the array owns a property of that name, the result holds no
    object whose key is [__proto__]. *)
Theorem removeDuplicates_proto_dropped (array result : list (list (jsstring * json)))
  (y : list (jsstring * json)) :
  removeDuplicates native_source array key = Normal result ->
  Forall (fun x => has_own (js "__proto__") x = false) array ->
  ToPropertyKey native_source (object_get key y) = Normal (js "__proto__") ->
  y ∉ result.
Proof.
  unfold removeDuplicates, bind. intros H Harr Hy Hin.
  destruct (removeDuplicates_loop native_source array key _) as [m|e] eqn:E; [|done].
  injection H as <-.
  destruct (removeDuplicates_filed array m E) as [Hok Hall].
  assert (Hreach : setter_in_reach m).
  { eapply removeDuplicates_loop_setter_in_reach; [exact Harr| |exact E]. by split. }
  destruct Hreach as [Hown _].
  apply list_elem_of_fmap in Hin as ([k y'] & -> & Hp). simpl in Hy.
  rewrite List.Forall_forall in Hall.
  pose proof Hp as Hp'. apply list_elem_of_In in Hp'. apply Hall in Hp' as (Hk & _).
  simpl in Hk. unfold key_of in Hk. rewrite Hy in Hk. injection Hk as <-.
  unfold own_keys_ok in Hok. apply andb_true_iff in Hok as [Hd _].
  pose proof (elem_of_own_get (map_own m) _ y' Hd Hp) as Hget.
  unfold has_own in Hown. by rewrite Hget in Hown.
Qed.

(** No exception when the [key] of every object is a primitive. *)
Theorem removeDuplicates_primitive_keys (array : list (list (jsstring * json))) :
  Forall (fun x => exists id, strict_equals (object_get key x) id = true) array ->
  exists result, removeDuplicates native_source array key = Normal result.
Proof.
  intros H. unfold removeDuplicates.
  assert (E : forall m, exists m',
             removeDuplicates_loop native_source array key m = Normal m').
  { induction H as [|x array (id & Hid) _ IH]; intros m; simpl; [by eauto|].
    assert (Hk : exists k, ToPropertyKey native_source (object_get key x) = Normal k).
    { destruct (object_get key x) as [|[|[]| | | | |]|]; simpl in *; try by eauto.
      all: by destruct id. }
    destruct Hk as [k ->]. simpl. apply IH. }
  destruct (E {| map_prototype := None; map_own := [] |}) as [m' ->]. simpl. by eauto.
Qed.

End RemoveDuplicates.

Lemma removeDuplicates_distinct_witness :
  let array := [[(js "id", JNum 3); (js "n", JStr (js "a"))]; [(js "id", JNum 1)];
                [(js "id", JNum 3); (js "n", JStr (js "b"))]; [(js "id", JStr (js "x"))]] in
  let result := [[(js "id", JNum 1)]; [(js "id", JNum 3); (js "n", JStr (js "b"))];
                 [(js "id", JStr (js "x"))]] in
  exists ks,
    Forall2 (fun x k => ToPropertyKey (fun name => name) (object_get (js "id") x) = Normal k)
      result ks
    /\ NoDup ks
    /\ forall x, x ∈ result -> x ∈ array.
Proof.
  intros array result.
  apply (removeDuplicates_distinct (fun name => name) (js "id") array result).
  vm_compute. reflexivity.
Defined.

Lemma removeDuplicates_last_wins_witness :
  let a := [(js "id", JNum 3); (js "n", JStr (js "a"))] in
  let b := [(js "id", JNum 1)] in
  let c := [(js "id", JStr (js "3")); (js "n", JStr (js "b"))] in
  let d := [(js "id", JStr (js "x"))] in
  c ∈ [b; c; d]
  /\ forall x, x ∈ [b; c; d] ->
       ToPropertyKey (fun name => name) (object_get (js "id") x) = Normal (js "3") -> x = c.
Proof.
  intros a b c d.
  apply (removeDuplicates_last_wins (fun name => name) (js "id") [a; b] [d] c (js "3")
           [b; c; d]).
  - vm_compute. reflexivity.
  - vm_compute. reflexivity.
  - discriminate.
  - constructor; [discriminate|constructor].
Defined.

Lemma removeDuplicates_unchanged_witness :
  let array := [[(js "id", JNum 1)]; [(js "id", JNum 3)]; [(js "id", JStr (js "x"))]] in
  removeDuplicates (fun name => name) array (js "id") = Normal array.
Proof.
  intros array.
  apply (removeDuplicates_unchanged (fun name => name) (js "id") array
           [js "1"; js "3"; js "x"]).
  - repeat constructor.
  - vm_compute. reflexivity.
  - rewrite !elem_of_cons, elem_of_nil. intros [H|[H|[H|[]]]]; discriminate.
Defined.

Lemma removeDuplicates_proto_dropped_witness :
  [(js "id", JStr (js "__proto__"))] ∉ [[(js "id", JNum 1)]].
Proof.
  apply (removeDuplicates_proto_dropped (fun name => name) (js "id")
           [[(js "id", JStr (js "__proto__"))]; [(js "id", JNum 1)]]).
  - vm_compute. reflexivity.
  - repeat constructor.
  - reflexivity.
Defined.

(** With an object that owns a property named [__proto__] in the
    array, an object filed under [__proto__] can reach the result; a
    second run then drops it. *)
Lemma removeDuplicates_proto_kept :
  let x1 := [(js "id", JStr (js "__proto__")); (js "__proto__", JNum 5)] in
  let x2 := [(js "id", JStr (js "__proto__"))] in
  removeDuplicates (fun name => name) [x1; x2] (js "id") = Normal [x2]
  /\ removeDuplicates (fun name => name) [x2] (js "id") = Normal [].
Proof. split; reflexivity. Qed.

Lemma removeDuplicates_sorts_indices_witness : Sorted N.lt [1; 2; 10]%N.
Proof.
  apply (removeDuplicates_sorts_indices (fun name => name) (js "id")
           [[(js "id", JNum 10)]; [(js "id", JNum 2)]; [(js "id", JNum 1)]]
           [[(js "id", JNum 1)]; [(js "id", JNum 2)]; [(js "id", JNum 10)]]).
  - vm_compute. reflexivity.
  - repeat constructor.
    + exists (js "1"). split; reflexivity.
    + exists (js "2"). split; reflexivity.
    + exists (js "10"). split; reflexivity.
Defined.

Lemma removeDuplicates_primitive_keys_witness :
  exists result,
    removeDuplicates (fun name => name)
      [[(js "id", JNum 3)]; [(js "name", JNull)]; [(js "id", JStr (js "x"))]] (js "id")
    = Normal result.
Proof.
  apply (removeDuplicates_primitive_keys (fun name => name) (js "id")).
  repeat constructor.
  - by exists (PNum 3).
  - by exists PUndefined.
  - by exists (PStr (js "x")).
Defined.

(** ** storageManager and themeManager together *)

(** Writing under one key leaves what [get] reads under every other
    key as it was. *)
Theorem storageManager_set_other_key (k k' : jsstring) (v d : any) (w : window) :
  k <> k' ->
  storageManager.get k' d (storageManager.set k v w) = storageManager.get k' d w.
Proof.
  intros H. unfold storageManager.get, storageManager.set.
  by rewrite getItem_setItem_ne.
Qed.

Lemma storageManager_set_other_key_witness :
  storageManager.get (js "b") Undefined
    (storageManager.set (js "a") (Data (JNum 1))
       (storageManager.set (js "b") (Data (JNum 2)) (fresh_window None [] [])))
  = storageManager.get (js "b") Undefined
      (storageManager.set (js "b") (Data (JNum 2)) (fresh_window None [] [])).
Proof. apply (storageManager_set_other_key (js "a") (js "b")). discriminate. Defined.

Lemma getItem_init (w : window) :
  getItem themeManager.key (themeManager.init w) = Some (themeManager.get w).
Proof. unfold themeManager.init. apply getItem_setItem. Qed.

Lemma getItem_toggle (w : window) :
  getItem themeManager.key (themeManager.toggle w)
  = Some (if str_eqb (themeManager.get w) (js "light") then js "dark" else js "light").
Proof.
  unfold themeManager.toggle, setAttribute_data_theme, getItem. simpl.
  apply lookup_insert_eq.
Qed.

(** The theme is stored as bare text, which is no JSON: after
    [themeManager.init()] or [themeManager.toggle()],
    [storageManager.get('APP_THEME', d)] returns [d]. *)
Theorem storageManager_get_theme (d : any) (w : window) :
  storageManager.get themeManager.key d (themeManager.init w) = Normal d
  /\ storageManager.get themeManager.key d (themeManager.toggle w) = Normal d.
Proof.
  unfold storageManager.get. rewrite getItem_init, getItem_toggle. split.
  - by destruct (themeManager_get_two_valued w) as [-> | ->].
  - by destruct (str_eqb _ _).
Qed.

Lemma SerializeJSONProperty_not_theme (v : json) :
  nonempty (SerializeJSONProperty v) = true
  /\ SerializeJSONProperty v <> js "light" /\ SerializeJSONProperty v <> js "dark".
Proof.
  assert (Hnum : forall x,
             nonempty (SerializeNumber x) = true
             /\ SerializeNumber x <> js "light" /\ SerializeNumber x <> js "dark").
  { intros x. destruct (SerializeNumber_head x) as (c & r & -> & Hc).
    split; [done|].
    split; intros [= -> _]; by destruct Hc as [Hc|[Hc|Hc]]. }
  destruct v as [|[]|n|x|s|elems|props]; try by repeat split.
  - apply Hnum.
  - apply Hnum.
Qed.

(** [storageManager.set] stores JSON text, which is never the bare
    [light] or [dark]: after [storageManager.set('APP_THEME', v)],
    whatever the value [v], [themeManager.get()] returns [light]. *)
Theorem themeManager_get_after_storageManager_set (v : any) (w : window) :
  themeManager.get (storageManager.set themeManager.key v w) = js "light".
Proof.
  unfold themeManager.get, storageManager.set. rewrite getItem_setItem.
  set (stored := ToString_undefined (JSON_stringify v)).
  assert (H : nonempty stored = true /\ stored <> js "light" /\ stored <> js "dark").
  { subst stored. destruct v as [|j|name]; simpl; [by repeat split| |by repeat split].
    apply SerializeJSONProperty_not_theme. }
  destruct H as (Hne & Hl & Hd). rewrite Hne.
  destruct (named_in [js "light"; js "dark"] stored) eqn:E; [|done].
  apply named_in_spec in E. simpl in E. destruct E as [E|[E|[]]]; congruence.
Qed.

(** ** themeManager *)

Lemma themeManager_get_init (w : window) :
  themeManager.get (themeManager.init w) = themeManager.get w.
Proof.
  apply themeManager_get_stored; [apply getItem_init|apply themeManager_get_two_valued].
Qed.

(** [init()] leaves [get()] as it was, and a second [init()] changes
    nothing. *)
Theorem themeManager_init_idempotent (w : window) :
  themeManager.get (themeManager.init w) = themeManager.get w
  /\ themeManager.init (themeManager.init w) = themeManager.init w.
Proof.
  pose proof (themeManager_get_init w) as H.
  split; [done|].
  unfold themeManager.init at 1. rewrite H.
  unfold themeManager.init, setItem, setAttribute_data_theme, with_localStorage,
    with_data_theme. simpl. by rewrite insert_insert_eq.
Qed.

(** After [init()] and after [toggle()], the [data-theme] attribute
    of the body and the stored value both hold the theme [get()]
    returns. *)
Theorem themeManager_mirrors (w : window) :
  (data_theme (themeManager.init w) = Some (themeManager.get (themeManager.init w))
   /\ getItem themeManager.key (themeManager.init w)
      = Some (themeManager.get (themeManager.init w)))
  /\ (data_theme (themeManager.toggle w) = Some (themeManager.get (themeManager.toggle w))
      /\ getItem themeManager.key (themeManager.toggle w)
         = Some (themeManager.get (themeManager.toggle w))).
Proof.
  rewrite themeManager_get_init, themeManager_get_toggle, getItem_init, getItem_toggle.
  by repeat split.
Qed.

(** [set(theme)] with [light] or [dark] makes [get()] return that
    theme, whatever was stored and whatever the OS prefers, and puts
    it in the attribute and in the store. *)
Theorem themeManager_set_get (t : jsstring) (w : window) :
  t = js "light" \/ t = js "dark" ->
  themeManager.get (themeManager.set t w) = t
  /\ data_theme (themeManager.set t w) = Some t
  /\ getItem themeManager.key (themeManager.set t w) = Some t.
Proof.
  intros Ht.
  assert (H : getItem themeManager.key (themeManager.set t w) = Some t).
  { unfold themeManager.set. apply getItem_setItem. }
  split; [by apply themeManager_get_stored|]. by split.
Qed.

Lemma themeManager_set_get_witness :
  let w := themeManager.set (js "dark") (fresh_window None [] []) in
  themeManager.get w = js "dark"
  /\ data_theme w = Some (js "dark")
  /\ getItem themeManager.key w = Some (js "dark").
Proof. apply (themeManager_set_get (js "dark")). by right. Defined.

(** [toggle()] switches between the two themes: from [light] to
    [dark], and from [dark] to [light]. *)
Theorem themeManager_toggle_flips (w : window) :
  (themeManager.get w = js "light" ->
   themeManager.get (themeManager.toggle w) = js "dark")
  /\ (themeManager.get w = js "dark" ->
      themeManager.get (themeManager.toggle w) = js "light")
  /\ themeManager.get (themeManager.toggle w) <> themeManager.get w.
Proof.
  rewrite themeManager_get_toggle.
  destruct (themeManager_get_two_valued w) as [-> | ->]; by repeat split.
Qed.

(** ** What the readers return *)

(** [storageManager.get] never throws: it returns the default, or the
    value the stored text parses to, which is then not [null]. *)
Theorem storageManager_get_result (k : jsstring) (d : any) (w : window) :
  storageManager.get k d w = Normal d
  \/ exists text value,
       getItem k w = Some text
       /\ JSON_parse text = Normal value
       /\ value <> JNull
       /\ storageManager.get k d w = Normal (Data value).
Proof.
  unfold storageManager.get, try_catch, bind.
  destruct (getItem k w) as [text|]; [|by left]. simpl ToString_null.
  destruct (JSON_parse text) as [value|e] eqn:Ep; [|by left].
  destruct value as [|b|n|x|s|elems|props]; [by left|..];
    (right; eexists _, _; split; [reflexivity|]; split; [exact Ep|];
     split; [discriminate|reflexivity]).
Qed.

(** [qsm.read] never throws: it returns the default, or a value that
    is neither [null] nor [undefined], which is the decoded payload or
    the member of the payload under a non-empty key. *)
Theorem qsm_read_result (key : option jsstring) (d : any) (w : window) :
  qsm.read key d w = Normal d
  \/ exists obj v,
       query_payload w = Normal obj
       /\ qsm.read key d w = Normal v
       /\ is_nullish v = false
       /\ (v = Data obj
           \/ exists k, key = Some k /\ nonempty k = true
                        /\ property k obj = Normal (Some v)).
Proof.
  rewrite qsm_read_payload.
  destruct (query_payload w) as [obj|e]; [|by left].
  assert (Hwhole :
    Normal (if is_nullish (Data obj) then d else Data obj) = Normal d
    \/ exists obj0 v,
         Normal obj = Normal obj0
         /\ Normal (if is_nullish (Data obj) then d else Data obj) = Normal v
         /\ is_nullish v = false
         /\ (v = Data obj0
             \/ exists k, key = Some k /\ nonempty k = true
                          /\ property k obj0 = Normal (Some v))).
  { destruct (is_nullish (Data obj)) eqn:E; [by left|].
    right. exists obj, (Data obj). repeat split; auto. }
  destruct (truthy_key key && ToBoolean (Data obj)) eqn:Ek; [|done].
  apply andb_true_iff in Ek as [Ek _].
  destruct key as [k|]; [|done]. simpl in Ek. simpl default.
  destruct (property k obj) as [[member|]|e] eqn:Ep; [| done | by left].
  destruct (is_nullish member) eqn:E; [by left|].
  right. exists obj, member. repeat split; auto. right. by exists k.
Qed.

(** ** qsm *)

(** The whole content comes back: for every serializable [content]
    other than [null], when the query of the location is the token
    [qsm.gen(content)] produced, [qsm.read()] without a key returns
    [content]. *)
Theorem qsm_gen_read_whole (content : json) (prefix : jsstring) (d : any) (w : window) :
  serializable content = true ->
  qsm.gen (Data content) prefix = Normal (prefix ++ location_search w) ->
  content <> JNull ->
  qsm.read None d w = Normal (Data content).
Proof.
  intros Hc Hgen Hn.
  rewrite qsm_read_payload, (query_payload_gen content prefix w Hc Hgen).
  by destruct content.
Qed.

Lemma qsm_gen_read_whole_witness :
  let content := JArr [JNum 1; JStr (js "x")] in
  let w := with_location (js "?WzEsIngiXQ==") (js "/my-page") (fresh_window None [] []) in
  qsm.read None (Data (JNum 0)) w = Normal (Data content).
Proof.
  intros content w.
  apply (qsm_gen_read_whole content (js "/my-page") (Data (JNum 0)) w);
    [reflexivity|reflexivity|discriminate].
Defined.

(** On a location whose query is empty or a lone question mark,
    [qsm.read] returns the default, whatever the key. *)
Theorem qsm_read_no_query (key : option jsstring) (d : any) (w : window) :
  (length (location_search w) <= 1)%nat ->
  qsm.read key d w = Normal d.
Proof.
  intros H. apply qsm_read_default. left. exists SyntaxError.
  unfold query_payload.
  destruct (location_search w) as [|c [|c' r]]; [done|done|simpl in H; lia].
Qed.

Lemma qsm_read_no_query_witness :
  qsm.read (Some (js "a")) (Data (JNum 7)) (fresh_window None (js "?") (js "/my-page"))
  = Normal (Data (JNum 7)).
Proof. apply qsm_read_no_query. simpl. lia. Defined.

Lemma is_byte_spec (c : Z) : is_byte c = true <-> byte c.
Proof.
  unfold is_byte, byte. rewrite andb_true_iff, !Z.leb_le. tauto.
Qed.

Lemma forallb_is_byte (s : jsstring) : forallb is_byte s = true <-> Forall byte s.
Proof.
  rewrite forallb_forall, List.Forall_forall.
  split; intros H c Hc; apply is_byte_spec; auto.
Qed.

Lemma hex_digit_byte (n : Z) : 0 <= n < 16 -> byte (hex_digit n).
Proof. unfold hex_digit, byte. intros H. destruct (n <? 10); lia. Qed.

Lemma quote_unit_bytes (c : Z) : byte c -> Forall byte (quote_unit c).
Proof.
  intros H. unfold quote_unit.
  repeat match goal with
    | |- context [(c =? ?b)] => destruct (c =? b); [repeat constructor; unfold byte; lia|]
    end.
  destruct (_ || _).
  - unfold UnicodeEscape.
    repeat (constructor; [first [apply hex_digit_byte; bytes_arith | unfold byte; lia]|]).
    constructor.
  - constructor; [done|constructor].
Qed.

Lemma quote_units_bytes (s : jsstring) : Forall byte s -> Forall byte (quote_units s).
Proof.
  induction 1 as [|c r Hc _ IH]; [constructor|].
  cbn [quote_units].
  assert (E : is_high_surrogate c = false).
  { unfold is_high_surrogate, byte in *. apply andb_false_iff. left. apply Z.leb_gt. lia. }
  rewrite E. apply Forall_app. split; [by apply quote_unit_bytes|done].
Qed.

Lemma digits_of_uint_bytes (d : Decimal.uint) : Forall byte (digits_of_uint d).
Proof.
  induction d; simpl; constructor; auto; unfold byte; lia.
Qed.

Lemma format_number_bytes (ds : jsstring) (n : Z) :
  Forall byte ds -> Forall byte (format_number ds n).
Proof.
  intros H.
  assert (Hz : forall j, Forall byte (repeat 48 j)).
  { induction j; simpl; constructor; auto; unfold byte; lia. }
  assert (He : forall e, Forall byte (exponent_text e)).
  { intros e. unfold exponent_text. constructor; [unfold byte; lia|].
    constructor; [destruct (e <? 0); unfold byte; lia|apply digits_of_uint_bytes]. }
  unfold format_number.
  destruct ((Z.of_nat (length ds) <=? n) && _); [apply Forall_app; by split|].
  destruct ((0 <? n) && _).
  { apply Forall_app. split; [by apply Forall_take|].
    constructor; [unfold byte; lia|by apply Forall_drop]. }
  destruct ((-6 <? n) && _).
  { repeat (constructor; [unfold byte; lia|]). apply Forall_app. by split. }
  destruct ds as [|c [|c' r]]; [constructor|..].
  - apply Forall_cons_1 in H as [Hc _]. by constructor.
  - apply Forall_cons_1 in H as [Hc H]. constructor; [done|].
    constructor; [unfold byte; lia|]. apply Forall_app. by split.
Qed.

Lemma SerializeNumber_bytes (x : number) : Forall byte (SerializeNumber x).
Proof.
  assert (Hm : forall negative target p a, Forall byte (magnitude_text negative target p a)).
  { intros negative target p a. unfold magnitude_text.
    destruct (shortest_decimal negative target p a) as [s e].
    apply format_number_bytes, digits_of_uint_bytes. }
  assert (Hs : forall target m a, Forall byte (signed_text target m a)).
  { intros target m a. unfold signed_text.
    destruct (m <? 0); [constructor; [unfold byte; lia|]|]; apply Hm. }
  destruct x as [n|[m e|negative]]; simpl.
  - destruct (n =? 0); [|apply Hs]. constructor; [unfold byte; lia|constructor].
  - apply Hs.
  - by apply forallb_is_byte.
Qed.

Lemma join_comma_bytes (l : list jsstring) :
  Forall (Forall byte) l -> Forall byte (join_comma l).
Proof.
  induction 1 as [|x r Hx Hr IH]; [constructor|].
  destruct r as [|y r]; [done|].
  change (join_comma (x :: y :: r)) with (x ++ 44 :: join_comma (y :: r)).
  apply Forall_app. split; [done|]. constructor; [unfold byte; lia|done].
Qed.

Lemma QuoteJSONString_bytes (s : jsstring) :
  Forall byte s -> Forall byte (QuoteJSONString s).
Proof.
  intros H. unfold QuoteJSONString. constructor; [unfold byte; lia|].
  apply Forall_app. split; [by apply quote_units_bytes|].
  constructor; [unfold byte; lia|constructor].
Qed.

Lemma SerializeJSONProperty_bytes (v : json) :
  latin1 v = true -> Forall byte (SerializeJSONProperty v).
Proof.
  induction v as [|b|n|x|s|elems IH|props IH] using json_ind; intros H.
  - by apply forallb_is_byte.
  - destruct b; by apply forallb_is_byte.
  - apply SerializeNumber_bytes.
  - apply SerializeNumber_bytes.
  - simpl in *. by apply QuoteJSONString_bytes, forallb_is_byte.
  - simpl in *. constructor; [unfold byte; lia|].
    apply Forall_app. split; [|constructor; [unfold byte; lia|constructor]].
    apply join_comma_bytes.
    induction IH as [|e r He _ IHr]; [constructor|].
    simpl in H. apply andb_true_iff in H as [H1 H2].
    constructor; auto.
  - simpl in *. constructor; [unfold byte; lia|].
    apply Forall_app. split; [|constructor; [unfold byte; lia|constructor]].
    apply join_comma_bytes.
    induction IH as [|[k e] r He _ IHr]; [constructor|].
    simpl in H. apply andb_true_iff in H as [H1 H2].
    apply andb_true_iff in H1 as [Hk H1].
    constructor; [|auto].
    change (Forall byte (QuoteJSONString k ++ 58 :: SerializeJSONProperty e)).
    apply Forall_app. split; [by apply QuoteJSONString_bytes, forallb_is_byte|].
    constructor; [unfold byte; lia|auto].
Qed.

Lemma b64_char_text (n : Z) : sextet n -> b64_text (b64_char n).
Proof. intros H. apply b64_char_alphabet in H. unfold b64_text. tauto. Qed.

Lemma b64_encode_text (s : jsstring) : Forall byte s -> Forall b64_text (b64_encode s).
Proof.
  assert (Hpad : b64_text 61) by (unfold b64_text; lia).
  induction s as [|a|a b|a b c l IH] using list_ind3; intros H.
  - constructor.
  - apply Forall_cons_1 in H as [Ha _]. simpl.
    repeat (constructor; [first [exact Hpad | apply b64_char_text; bytes_arith]|]).
    constructor.
  - apply Forall_cons_1 in H as [Ha H]. apply Forall_cons_1 in H as [Hb _]. simpl.
    repeat (constructor; [first [exact Hpad | apply b64_char_text; bytes_arith]|]).
    constructor.
  - apply Forall_cons_1 in H as [Ha H]. apply Forall_cons_1 in H as [Hb H].
    apply Forall_cons_1 in H as [Hc H].
    change (b64_encode (a :: b :: c :: l))
      with (b64_char (a / 4) :: b64_char (a mod 4 * 16 + b / 16)
              :: b64_char (b mod 16 * 4 + c / 64) :: b64_char (c mod 64) :: b64_encode l).
    repeat (constructor; [apply b64_char_text; bytes_arith|]). auto.
Qed.

(** On content whose strings and keys hold bytes only, [qsm.gen]
    succeeds: it returns the prefix, a question mark and a token of
    base64 characters, a multiple of four long, that [atob] decodes
    to the JSON text of the content. *)
Theorem qsm_gen_latin1 (content : json) (prefix : jsstring) :
  latin1 content = true ->
  exists token,
    qsm.gen (Data content) prefix = Normal (prefix ++ 63 :: token)
    /\ Forall b64_text token
    /\ Z.of_nat (length token) mod 4 = 0
    /\ atob token = Normal (SerializeJSONProperty content).
Proof.
  intros H. apply SerializeJSONProperty_bytes in H.
  exists (b64_encode (SerializeJSONProperty content)).
  split.
  - unfold qsm.gen, bind, btoa. simpl ToString_undefined.
    by rewrite (proj2 (forallb_is_byte _) H).
  - split; [by apply b64_encode_text|].
    split; [apply b64_encode_length|by apply atob_b64_encode].
Qed.

Lemma qsm_gen_latin1_witness :
  exists token,
    qsm.gen (Data (JObj [(js "a", JNum 1); (js "b", JStr (js "x"))])) (js "/my-page")
    = Normal (js "/my-page" ++ 63 :: token)
    /\ Forall b64_text token
    /\ Z.of_nat (length token) mod 4 = 0
    /\ atob token
       = Normal (SerializeJSONProperty (JObj [(js "a", JNum 1); (js "b", JStr (js "x"))])).
Proof. apply qsm_gen_latin1. reflexivity. Defined.

Lemma wide_unit_spec (c : Z) :
  wide_unit c = true ->
  is_byte c = false /\ is_high_surrogate c = false /\ quote_unit c = [c].
Proof.
  unfold wide_unit, is_byte, quote_unit. intros H.
  apply andb_true_iff in H as [H Hl]. apply andb_true_iff in H as [H Hh].
  apply negb_true_iff in Hl, Hh. apply Z.ltb_lt in H. rewrite Hl, Hh.
  split; [apply andb_false_iff; right; apply Z.leb_gt; lia|]. split; [done|].
  repeat match goal with
    | |- context [(c =? ?b)] => destruct (Z.eqb_spec c b); [lia|]
    end.
  destruct (Z.ltb_spec c 32); [lia|done].
Qed.

Lemma quote_units_wide (c : Z) (s : jsstring) :
  wide_unit c = true -> c ∈ s -> c ∈ quote_units s.
Proof.
  intros Hc. pose proof (wide_unit_spec c Hc) as (_ & Hh & Hq).
  assert (Hl : is_low_surrogate c = false).
  { unfold wide_unit in Hc. apply andb_true_iff in Hc as [_ Hc]. by apply negb_true_iff. }
  induction s as [|a|a b l IH1 IH2] using list_ind2; intros Hin.
  - done.
  - apply list_elem_of_singleton in Hin as <-. cbn [quote_units].
    rewrite Hh, Hq. by left.
  - cbn [quote_units]. destruct (is_high_surrogate a) eqn:Ea.
    + assert (Hca : c <> a) by congruence.
      apply elem_of_cons in Hin as [->|Hin]; [done|].
      destruct (is_low_surrogate b) eqn:Eb.
      * assert (Hcb : c <> b) by congruence.
        apply elem_of_cons in Hin as [->|Hin]; [done|].
        rewrite !elem_of_cons. auto.
      * apply elem_of_app. right. auto.
    + apply elem_of_app.
      apply elem_of_cons in Hin as [->|Hin]; [left; rewrite Hq; by left|auto].
Qed.

Lemma join_comma_elem_of (c : Z) (x : jsstring) (l : list jsstring) :
  x ∈ l -> c ∈ x -> c ∈ join_comma l.
Proof.
  intros Hx Hc. induction l as [|y r IH]; [by apply elem_of_nil in Hx|].
  destruct r as [|z r].
  - apply list_elem_of_singleton in Hx as ->. done.
  - change (join_comma (y :: z :: r)) with (y ++ 44 :: join_comma (z :: r)).
    rewrite elem_of_app, elem_of_cons.
    apply elem_of_cons in Hx as [->|Hx]; auto.
Qed.

Lemma SerializeJSONProperty_wide (v : json) :
  wide v = true ->
  exists c, c ∈ SerializeJSONProperty v /\ wide_unit c = true.
Proof.
  induction v as [|b|n|x|s|elems IH|props IH] using json_ind; intros H; try done.
  - simpl in H. apply existsb_exists in H as (c & Hin & Hc).
    exists c. split; [|done]. simpl. unfold QuoteJSONString.
    rewrite elem_of_cons, elem_of_app. right. left.
    apply quote_units_wide; [done|]. by apply list_elem_of_In.
  - simpl in H. apply existsb_exists in H as (e & Hin & He).
    rewrite List.Forall_forall in IH.
    destruct (IH e Hin He) as (c & Hc & Hw).
    exists c. split; [|done]. simpl.
    rewrite elem_of_cons, elem_of_app. right. left.
    apply (join_comma_elem_of c (SerializeJSONProperty e)); [|done].
    apply list_elem_of_fmap_2. by apply list_elem_of_In.
  - simpl in H. apply existsb_exists in H as ([k e] & Hin & He).
    rewrite List.Forall_forall in IH. simpl in He.
    assert (Hm : exists c,
               c ∈ QuoteJSONString k ++ 58 :: SerializeJSONProperty e
               /\ wide_unit c = true).
    { apply orb_true_iff in He as [He|He].
      - apply existsb_exists in He as (c & Hc & Hw).
        exists c. split; [|done]. unfold QuoteJSONString.
        rewrite elem_of_app, elem_of_cons, elem_of_app. left. right. left.
        apply quote_units_wide; [done|]. by apply list_elem_of_In.
      - destruct (IH (k, e) Hin He) as (c & Hc & Hw).
        exists c. split; [|done]. rewrite elem_of_app, elem_of_cons. auto. }
    destruct Hm as (c & Hc & Hw).
    exists c. split; [|done]. simpl.
    rewrite elem_of_cons, elem_of_app. right. left.
    apply (join_comma_elem_of c (QuoteJSONString k ++ 58 :: SerializeJSONProperty e));
      [|done].
    apply (list_elem_of_fmap_2
             (fun p => QuoteJSONString (fst p) ++ 58 :: SerializeJSONProperty (snd p))
             props (k, e)).
    by apply list_elem_of_In.
Qed.

(** On content one of whose strings or keys holds a code unit above
    U+00FF that is no surrogate, [qsm.gen] throws an
    [InvalidCharacterError]. *)
Theorem qsm_gen_wide (content : json) (prefix : jsstring) :
  wide content = true ->
  qsm.gen (Data content) prefix = Throw InvalidCharacterError.
Proof.
  intros H. apply SerializeJSONProperty_wide in H as (c & Hc & Hw).
  apply wide_unit_spec in Hw as (Hb & _).
  unfold qsm.gen, bind, btoa. simpl ToString_undefined.
  destruct (forallb is_byte (SerializeJSONProperty content)) eqn:E; [|done].
  rewrite forallb_forall in E. apply list_elem_of_In in Hc.
  specialize (E c Hc). congruence.
Qed.

Lemma qsm_gen_wide_witness :
  qsm.gen (Data (JObj [(js "name", JStr [26085; 26412])])) [] = Throw InvalidCharacterError.
Proof. apply qsm_gen_wide. reflexivity. Defined.

(** ** scrollBack *)

(** [save()] replaces whatever checkpoint the page had by the present
    offset, and leaves the checkpoints of the other pages and the
    viewport as they are. *)
Theorem scrollBack_save_frame (q : jsstring) (w : window) :
  page_path (location_pathname w) ->
  entry (location_pathname w) (scrollBack.save w) = Some (JNum (scrollY w))
  /\ (q <> location_pathname w -> entry q (scrollBack.save w) = entry q w)
  /\ scrollTo_calls (scrollBack.save w) = scrollTo_calls w.
Proof.
  intros [rest Hp]. split.
  - apply scrollBack_save_entry. rewrite Hp. apply page_path_not_inherited.
  - split; [|done]. intros Hq. unfold entry, scrollBack.save. simpl.
    by apply own_get_object_set_ne.
Qed.

Lemma scrollBack_save_frame_witness :
  let w := with_scrollY 120 (scrollBack.save (fresh_window None [] (js "/a"))) in
  entry (location_pathname w) (scrollBack.save w) = Some (JNum (scrollY w))
  /\ (js "/b" <> location_pathname w ->
      entry (js "/b") (scrollBack.save w) = entry (js "/b") w)
  /\ scrollTo_calls (scrollBack.save w) = scrollTo_calls w.
Proof. intros w. apply (scrollBack_save_frame (js "/b") w). by exists (js "a"). Defined.


(** [init()] only queues: it scrolls nothing and touches no
    checkpoint; and the page whose checkpoint is restored is the one
    the location names when the timer fires, not the one [init] was
    called on. *)
Theorem scrollBack_init_deferred (search pathname : jsstring) (w : window) :
  timers w = [] ->
  scrollTo_calls (scrollBack.init w) = scrollTo_calls w
  /\ scrollPositions (scrollBack.init w) = scrollPositions w
  /\ step ev_timer (step (ev_navigate search pathname) (scrollBack.init w))
     = scrollBack.restore (with_location search pathname w).
Proof.
  intros H. split; [done|]. split; [done|].
  destruct w. simpl in *. subst. reflexivity.
Qed.

Lemma scrollBack_init_deferred_witness :
  let w := scrollBack.save (with_scrollY 300 (fresh_window None [] (js "/a"))) in
  scrollTo_calls (scrollBack.init w) = scrollTo_calls w
  /\ scrollPositions (scrollBack.init w) = scrollPositions w
  /\ step ev_timer (step (ev_navigate [] (js "/b")) (scrollBack.init w))
     = scrollBack.restore (with_location [] (js "/b") w).
Proof. intros w. apply (scrollBack_init_deferred [] (js "/b") w). reflexivity. Defined.

(** ** audioPlayer *)

(** The window in which the element just created for [url] is
    cached. *)
Lemma audioPlayer_call_fresh (url : jsstring) (st : option status) (w : window) :
  nonempty url = true ->
  audioPlayer.in_urls url w = false ->
  audioPlayer.call url st w
  = (transport st (length (audios w))
       (with_urls (CreateDataProperty url (length (audios w)) (urls w))
          (snd (createElement_audio url w))),
     Normal tt).
Proof.
  intros Hne Hin. unfold audioPlayer.call. rewrite Hne, Hin. simpl negb. cbv iota.
  change (let '(audioEl, w1) := createElement_audio url w in
          with_urls (CreateDataProperty url audioEl (urls w1)) w1)
    with (with_urls (CreateDataProperty url (length (audios w)) (urls w))
            (snd (createElement_audio url w))).
  set (w1 := with_urls _ _).
  assert (H1 : own_get url (urls w1) = Some (length (audios w))).
  { subst w1. simpl. apply own_get_CreateDataProperty. }
  clearbody w1. unfold transport.
  destruct st as [[]|]; simpl; unfold audioPlayer.on_audio; rewrite ?H1; simpl; try done.
  change (urls (audio_pause (length (audios w)) w1)) with (urls w1). by rewrite H1.
Qed.

(** A call for an URL the registry only inherits. *)
Lemma audioPlayer_call_inherited_result (url : jsstring) (st : option status) (w : window) :
  nonempty url = true ->
  own_get url (urls w) = None ->
  named_in Object_prototype url = true ->
  audioPlayer.call url st w
  = (w, match default play st with
        | load => Normal tt
        | _ => Throw TypeError
        end).
Proof.
  intros Hne Hh Hin. unfold audioPlayer.call, audioPlayer.in_urls, has_own.
  rewrite Hne, Hh, Hin. simpl.
  destruct st as [[]|]; simpl; unfold audioPlayer.on_audio; rewrite ?Hh; done.
Qed.

(** The four ways a call goes. *)
Lemma audioPlayer_call_cases (url : jsstring) (st : option status) (w : window) :
  (nonempty url = false /\ audioPlayer.call url st w = (w, Normal tt))
  \/ (nonempty url = true
      /\ exists h, own_get url (urls w) = Some h
                   /\ audioPlayer.call url st w = (transport st h w, Normal tt))
  \/ (nonempty url = true /\ own_get url (urls w) = None
      /\ named_in Object_prototype url = true
      /\ fst (audioPlayer.call url st w) = w)
  \/ (nonempty url = true /\ own_get url (urls w) = None
      /\ named_in Object_prototype url = false
      /\ audioPlayer.call url st w
         = (transport st (length (audios w))
              (with_urls (CreateDataProperty url (length (audios w)) (urls w))
                 (snd (createElement_audio url w))),
            Normal tt)).
Proof.
  destruct (nonempty url) eqn:Hne.
  - right. destruct (own_get url (urls w)) as [h|] eqn:Hh.
    + left. split; [done|]. exists h. split; [done|]. by apply audioPlayer_call_cached.
    + right. destruct (named_in Object_prototype url) eqn:Hin.
      * left. repeat split; try done. by apply audioPlayer_call_inherited.
      * right. repeat split; try done. apply audioPlayer_call_fresh; [done|].
        unfold audioPlayer.in_urls, has_own. by rewrite Hh, Hin.
  - left. split; [done|]. unfold audioPlayer.call. by rewrite Hne.
Qed.

Lemma transport_lookup (st : option status) (h : nat) (w : window) (a0 : audio) :
  audios w !! h = Some a0 ->
  exists a,
    audios (transport st h w) !! h = Some a
    /\ src a = src a0
    /\ match default play st with
       | load => a = a0
       | play => paused a = false /\ currentTime a = currentTime a0
       | pause => paused a = true /\ currentTime a = currentTime a0
       | stop => paused a = true /\ currentTime a = 0
       end.
Proof.
  intros H. unfold transport.
  destruct (default play st); simpl; rewrite ?list_lookup_alter_eq, ?H; simpl; by eauto.
Qed.

Lemma transport_lookup_ne (st : option status) (h h' : nat) (w : window) :
  h <> h' -> audios (transport st h w) !! h' = audios w !! h'.
Proof.
  intros H. unfold transport.
  destruct (default play st); simpl; by rewrite ?list_lookup_alter_ne.
Qed.


(** What a call leaves of the element of its URL: for every non-empty
    URL that names no member of [Object.prototype], the call completes
    normally, the registry holds an element whose source is the URL,
    and that element is playing after [play] (the default), paused
    after [pause], paused at time 0 after [stop]; after [load] it is
    as it was, or paused at time 0 when the call created it. *)
Theorem audioPlayer_call_transport (url : jsstring) (st : option status) (w : window) :
  reachable w ->
  nonempty url = true ->
  named_in Object_prototype url = false ->
  exists h a,
    snd (audioPlayer.call url st w) = Normal tt
    /\ own_get url (urls (fst (audioPlayer.call url st w))) = Some h
    /\ audios (fst (audioPlayer.call url st w)) !! h = Some a
    /\ src a = url
    /\ match default play st with
       | play => paused a = false
       | pause => paused a = true
       | stop => paused a = true /\ currentTime a = 0
       | load =>
           match own_get url (urls w) with
           | Some h0 => h0 = h /\ audios w !! h = Some a
           | None => paused a = true /\ currentTime a = 0
           end
       end.
Proof.
  intros Hreach Hne Hin. apply reachable_ok in Hreach as (_ & _ & Hreg).
  destruct (audioPlayer_call_cases url st w)
    as [[E _]|[(_ & h & Hh & ->)|[(_ & _ & E & _)|(_ & Hh & _ & ->)]]]; [congruence| |congruence|].
  - destruct (Hreg url h Hh) as (a0 & Ha0 & Hsrc).
    destruct (transport_lookup st h w a0 Ha0) as (a & Ha & Hs & Hst).
    exists h, a. simpl. rewrite transport_urls, Hh.
    split; [done|]. split; [done|]. split; [done|]. split; [congruence|].
    destruct (default play st); try tauto. subst a. by split.
  - set (w1 := with_urls _ _).
    set (a0 := {| src := url; paused := true; currentTime := 0 |}).
    assert (Ha0 : audios w1 !! length (audios w) = Some a0).
    { subst w1. simpl. rewrite lookup_app_r by lia. by rewrite Nat.sub_diag. }
    destruct (transport_lookup st _ w1 a0 Ha0) as (a & Ha & Hs & Hst).
    exists (length (audios w)), a. simpl. rewrite transport_urls.
    split; [done|]. split; [subst w1; simpl; apply own_get_CreateDataProperty|].
    split; [done|]. split; [done|].
    rewrite Hh. destruct (default play st); try tauto. by subst a.
Qed.

Lemma audioPlayer_call_transport_witness :
  let w := fst (audioPlayer.call (js "/ding.mp3") None (fresh_window None [] (js "/p"))) in
  exists h a,
    snd (audioPlayer.call (js "/ding.mp3") (Some stop) w) = Normal tt
    /\ own_get (js "/ding.mp3") (urls (fst (audioPlayer.call (js "/ding.mp3") (Some stop) w)))
       = Some h
    /\ audios (fst (audioPlayer.call (js "/ding.mp3") (Some stop) w)) !! h = Some a
    /\ src a = js "/ding.mp3"
    /\ match default play (Some stop) with
       | play => paused a = false
       | pause => paused a = true
       | stop => paused a = true /\ currentTime a = 0
       | load =>
           match own_get (js "/ding.mp3") (urls w) with
           | Some h0 => h0 = h /\ audios w !! h = Some a
           | None => paused a = true /\ currentTime a = 0
           end
       end.
Proof.
  intros w. apply (audioPlayer_call_transport (js "/ding.mp3") (Some stop) w).
  - apply (reachable_step (ev_audio (js "/ding.mp3") None)). apply reachable_fresh.
  - reflexivity.
  - reflexivity.
Defined.

(** A call leaves the elements of the other URLs alone: what the
    registry holds under another URL, and the state of that element,
    are as before. *)
Theorem audioPlayer_call_other_url (url url' : jsstring) (st : option status) (h' : nat)
  (w : window) :
  reachable w ->
  url' <> url ->
  own_get url' (urls w) = Some h' ->
  own_get url' (urls (fst (audioPlayer.call url st w))) = Some h'
  /\ audios (fst (audioPlayer.call url st w)) !! h' = audios w !! h'.
Proof.
  intros Hreach Hne Hh'. apply reachable_ok in Hreach as (_ & _ & Hreg).
  destruct (Hreg url' h' Hh') as (a' & Ha' & Hsrc').
  destruct (audioPlayer_call_cases url st w)
    as [[_ ->]|[(_ & h & Hh & ->)|[(_ & _ & _ & ->)|(_ & Hh & _ & ->)]]]; simpl; try done.
  - rewrite transport_urls. split; [done|].
    apply transport_lookup_ne. intros ->.
    destruct (Hreg url h' Hh) as (a & Ha & Hsrc). congruence.
  - rewrite transport_urls. simpl.
    split; [by rewrite own_get_CreateDataProperty_ne|].
    pose proof (lookup_lt_Some _ _ _ Ha') as Hlt.
    rewrite transport_lookup_ne by lia. simpl. by apply lookup_app_l.
Qed.

Lemma audioPlayer_call_other_url_witness :
  let w := fst (audioPlayer.call (js "/ding.mp3") None (fresh_window None [] (js "/p"))) in
  own_get (js "/ding.mp3") (urls (fst (audioPlayer.call (js "/dong.mp3") (Some stop) w)))
  = Some 0%nat
  /\ audios (fst (audioPlayer.call (js "/dong.mp3") (Some stop) w)) !! 0%nat
     = audios w !! 0%nat.
Proof.
  intros w. apply (audioPlayer_call_other_url (js "/dong.mp3") (js "/ding.mp3")).
  - apply (reachable_step (ev_audio (js "/ding.mp3") None)). apply reachable_fresh.
  - discriminate.
  - reflexivity.
Defined.

Lemma run_callback_urls (c : callback) (w : window) : urls (run_callback c w) = urls w.
Proof.
  destruct c; simpl; [|done].
  unfold scrollBack.restore. by destruct (object_property _ _).
Qed.

Lemma step_urls_inherited (url : jsstring) (e : event) (w : window) :
  named_in Object_prototype url = true ->
  own_get url (urls w) = None -> own_get url (urls (step e w)) = None.
Proof.
  intros Hin H. destruct e; simpl; try done.
  - unfold run_timer. destruct (timers w) as [|c rest]; [done|].
    by rewrite run_callback_urls.
  - unfold click. apply (fold_callbacks (fun w => own_get url (urls w) = None)); [|done].
    intros c w' Hw'. by rewrite run_callback_urls.
  - unfold storageManager.clear. destruct key as [k|]; [destruct (nonempty k)|]; done.
  - destruct (audioPlayer_call_cases url0 st w)
      as [[_ ->]|[(_ & h & Hh & ->)|[(_ & _ & _ & ->)|(_ & Hh & Hn & ->)]]]; simpl;
      try done.
    + by rewrite transport_urls.
    + rewrite transport_urls. simpl. rewrite own_get_CreateDataProperty_ne; [done|].
      congruence.
Qed.

(** The registry never owns a name it inherits. *)
Lemma reachable_urls_inherited (url : jsstring) (w : window) :
  reachable w ->
  named_in Object_prototype url = true -> own_get url (urls w) = None.
Proof.
  intros Hreach Hin. induction Hreach as [dark search pathname|e w _ IH]; [done|].
  by apply step_urls_inherited.
Qed.

(** An URL that names a member of [Object.prototype] passes the test
    [url in urls] without an element: the call creates and changes
    nothing, and unless the status is [load] it throws a
    [TypeError]. *)
Theorem audioPlayer_call_inherited_name (url : jsstring) (st : option status) (w : window) :
  reachable w ->
  nonempty url = true ->
  named_in Object_prototype url = true ->
  audioPlayer.call url st w
  = (w, match default play st with
        | load => Normal tt
        | _ => Throw TypeError
        end).
Proof.
  intros Hreach Hne Hin. apply audioPlayer_call_inherited_result; try done.
  by apply reachable_urls_inherited.
Qed.

Lemma audioPlayer_call_inherited_name_witness :
  audioPlayer.call (js "toString") None (fresh_window None [] (js "/p"))
  = (fresh_window None [] (js "/p"), Throw TypeError).
Proof.
  apply (audioPlayer_call_inherited_name (js "toString") None).
  - apply reachable_fresh.
  - reflexivity.
  - reflexivity.
Defined.





